(** * c10d TCPStore: the store daemon and its wire protocol

    A shallow embedding of [torch/lib/c10d/TCPStore.cpp].  The daemon is a
    single-threaded event loop; its handlers read and mutate four hash maps
    and write replies on sockets.  The maps are finite maps, the sockets are
    integers, and everything the daemon writes (and every socket it closes)
    is appended to a trace kept in the state, so that "replies with" and
    "pushes a notification" are statements about that trace.

    Handlers can throw (a failed receive or send, [unordered_map::at] on a
    missing key, [std::stoll] on a value that is no number, an unknown query
    type).  A C++ exception keeps whatever the handler mutated before the
    throw, so the monad below returns the state in both outcomes.

    A client is looked at in two ways.  One request on a connection in
    order, where the client has read everything written on its socket, is
    [exchange].  Calls one after the other on the same connection are
    [request_on] and [recv] over a [net], which keeps for every socket how
    far its client has read, so that what one call leaves unread is what
    the next call reads first, and a connection the daemon has closed is
    served no more. *)

From Stdlib Require Import ZArith String Ascii List Lia.
From Stdlib.Strings Require Import Byte.
From stdpp Require Import gmap strings list fin_maps.

Local Open Scope Z_scope.

(** ** Wire data *)

(** [uint8_t] is [byte]; [std::vector<uint8_t>] is compared with [==]. *)
Global Instance byte_eq_decision : EqDecision byte := Byte.byte_eq_dec.

(** [enum class QueryType : uint8_t], in declaration order. *)
Inductive QueryType :=
  SET | COMPARE_SET | GET | ADD | CHECK | WAIT | GETNUMKEYS | WATCH_KEY | DELETE_KEY.

Inductive CheckResponseType := READY | NOT_READY.
Inductive WaitResponseType := STOP_WAITING.
Inductive WatchResponseType := KEY_UPDATED.

Definition QueryType_code (q : QueryType) : Z :=
  match q with
  | SET => 0 | COMPARE_SET => 1 | GET => 2 | ADD => 3 | CHECK => 4
  | WAIT => 5 | GETNUMKEYS => 6 | WATCH_KEY => 7 | DELETE_KEY => 8
  end.

(** One primitive written by a [tcputil::send*] call. *)
Inductive packet :=
| PCheck (r : CheckResponseType)
| PWait (r : WaitResponseType)
| PWatch (r : WatchResponseType)
| PString (s : string)
| PVector (v : list byte)
| PInt64 (z : Z).

(** What the daemon does to the outside world, oldest first. *)
Inductive effect :=
| Sent (socket : Z) (p : packet)
| Accepted (socket : Z)
| Closed (socket : Z).

Global Instance CheckResponseType_eq_dec : EqDecision CheckResponseType.
Proof. solve_decision. Defined.
Global Instance WaitResponseType_eq_dec : EqDecision WaitResponseType.
Proof. solve_decision. Defined.
Global Instance WatchResponseType_eq_dec : EqDecision WatchResponseType.
Proof. solve_decision. Defined.
Global Instance packet_eq_dec : EqDecision packet.
Proof. solve_decision. Defined.
Global Instance effect_eq_dec : EqDecision effect.
Proof. solve_decision. Defined.

(** A query as the handlers receive it.  Every handler receives all of its
    arguments before it touches the state, so the received arguments are
    passed to the handler; a receive that fails, and a type byte that is no
    [QueryType], are the two remaining cases of [incoming]. *)
Inductive request :=
| RSet (key : string) (newData : list byte)
| RCompareSet (key : string) (currentValue newValue : list byte)
| RGet (key : string)
| RAdd (key : string) (addVal : Z)
| RCheck (keys : list string)
| RWait (keys : list string)
| RGetNumKeys
| RWatchKey (key : string)
| RDeleteKey (key : string).

Inductive incoming :=
| Request (r : request)
| UnknownType (qt : Z)
| RecvFailed.

Definition request_type (r : request) : QueryType :=
  match r with
  | RSet _ _ => SET | RCompareSet _ _ _ => COMPARE_SET | RGet _ => GET
  | RAdd _ _ => ADD | RCheck _ => CHECK | RWait _ => WAIT
  | RGetNumKeys => GETNUMKEYS | RWatchKey _ => WATCH_KEY
  | RDeleteKey _ => DELETE_KEY
  end.

(** ** Fixed-width integers *)

(** [int64_t] arithmetic, two's complement. *)
Definition INT64_MIN : Z := - 2 ^ 63.
Definition INT64_MAX : Z := 2 ^ 63 - 1.
Definition in_int64 (z : Z) : Prop := INT64_MIN <= z <= INT64_MAX.
Definition wrap64 (z : Z) : Z := (z + 2 ^ 63) mod 2 ^ 64 - 2 ^ 63.

(** [size_t] arithmetic: the remaining-count of [keysAwaited_]. *)
Definition wrap_size (z : Z) : Z := z mod 2 ^ 64.

(** ** [std::to_string] and [std::stoll] *)

Definition digit_char (d : Z) : ascii := ascii_of_nat (48 + Z.to_nat d).

Fixpoint digits_fuel (fuel : nat) (n : Z) (acc : string) : string :=
  match fuel with
  | O => acc
  | S fuel' =>
      let acc' := String (digit_char (n mod 10)) acc in
      if n / 10 =? 0 then acc' else digits_fuel fuel' (n / 10) acc'
  end.

(** Decimal digits of a non-negative number, most significant first, no
    leading zero.  A number below [2 ^ 64] has at most twenty digits. *)
Definition digits (n : Z) : string := digits_fuel 20 n EmptyString.

(** [std::to_string(long long)]: ["%lld"]. *)
Definition to_string (z : Z) : string :=
  if z <? 0 then String "-" (digits (- z)) else digits z.

Definition is_space (c : ascii) : bool :=
  let n := nat_of_ascii c in
  (Nat.eqb n 32 || (Nat.leb 9 n && Nat.leb n 13))%bool.

Definition digit_value (c : ascii) : option Z :=
  let n := nat_of_ascii c in
  if (Nat.leb 48 n && Nat.leb n 57)%bool then Some (Z.of_nat n - 48) else None.

Fixpoint skip_spaces (s : string) : string :=
  match s with
  | String c s' => if is_space c then skip_spaces s' else s
  | EmptyString => s
  end.

(** The longest run of decimal digits at the front of [s], read as a number
    continuing [acc]; [seen] tells whether a digit was consumed. *)
Fixpoint read_digits (s : string) (acc : Z) (seen : bool) : Z * bool :=
  match s with
  | String c s' =>
      match digit_value c with
      | Some d => read_digits s' (acc * 10 + d) true
      | None => (acc, seen)
      end
  | EmptyString => (acc, seen)
  end.

Inductive exn :=
| invalid_argument            (* std::stoll: no conversion *)
| out_of_range                (* std::stoll: overflow; unordered_map::at *)
| runtime_error (what : string)
| system_error (revents : Z)  (* ECONNABORTED in [run] *)
| io_error (socket : Z).      (* thrown by tcputil send / recv *)

Inductive result (A : Type) :=
| Ok (a : A)
| Throw (e : exn).
Arguments Ok {A} a.
Arguments Throw {A} e.

(** [std::stoll(str)], base 10: skip white space, take an optional sign and
    then digits up to the first character that is none; throw
    [invalid_argument] when there is no digit and [out_of_range] when the
    number does not fit [long long]. *)
Definition stoll (s : string) : result Z :=
  let s1 := skip_spaces s in
  let '(neg, s2) :=
    match s1 with
    | String "-" r => (true, r)
    | String "+" r => (false, r)
    | _ => (false, s1)
    end in
  let '(n, seen) := read_digits s2 0 false in
  if seen then
    let v := if neg then - n else n in
    if (INT64_MIN <=? v) && (v <=? INT64_MAX) then Ok v else Throw out_of_range
  else Throw invalid_argument.

(** ** Daemon state *)

(** The four maps of [TCPStoreDaemon], the accepted sockets of
    [BackgroundThread], and the trace.  The members are declared in
    [TCPStore.hpp], which is not among the sources: the maps are
    [unordered_map]s, whose iteration order no handler depends on, and the
    values of [keysAwaited_] are taken to be [size_t]. *)
Record daemon := Daemon {
  tcpStore_ : gmap string (list byte);
  waitingSockets_ : gmap string (list Z);
  keysAwaited_ : gmap Z Z;
  watchedSockets_ : gmap string (list Z);
  sockets_ : list Z;
  trace : list effect
}.

Definition set_tcpStore (f : gmap string (list byte) → gmap string (list byte))
    (st : daemon) : daemon :=
  Daemon (f (tcpStore_ st)) (waitingSockets_ st) (keysAwaited_ st)
         (watchedSockets_ st) (sockets_ st) (trace st).
Definition set_waitingSockets (f : gmap string (list Z) → gmap string (list Z))
    (st : daemon) : daemon :=
  Daemon (tcpStore_ st) (f (waitingSockets_ st)) (keysAwaited_ st)
         (watchedSockets_ st) (sockets_ st) (trace st).
Definition set_keysAwaited (f : gmap Z Z → gmap Z Z) (st : daemon) : daemon :=
  Daemon (tcpStore_ st) (waitingSockets_ st) (f (keysAwaited_ st))
         (watchedSockets_ st) (sockets_ st) (trace st).
Definition set_watchedSockets (f : gmap string (list Z) → gmap string (list Z))
    (st : daemon) : daemon :=
  Daemon (tcpStore_ st) (waitingSockets_ st) (keysAwaited_ st)
         (f (watchedSockets_ st)) (sockets_ st) (trace st).
Definition set_sockets (f : list Z → list Z) (st : daemon) : daemon :=
  Daemon (tcpStore_ st) (waitingSockets_ st) (keysAwaited_ st)
         (watchedSockets_ st) (f (sockets_ st)) (trace st).
Definition emit (e : effect) (st : daemon) : daemon :=
  Daemon (tcpStore_ st) (waitingSockets_ st) (keysAwaited_ st)
         (watchedSockets_ st) (sockets_ st) (trace st ++ [e]).

(** A daemon that has just started: nothing stored, nobody connected. *)
Definition fresh : daemon := Daemon ∅ ∅ ∅ ∅ [] [].

(** ** The handler monad: state and exceptions *)

Definition M (A : Type) : Type := daemon → result A * daemon.

Definition ret {A} (a : A) : M A := λ st, (Ok a, st).
Definition bind {A B} (m : M A) (k : A → M B) : M B :=
  λ st, match m st with
        | (Ok a, st') => k a st'
        | (Throw e, st') => (Throw e, st')
        end.
Definition throw {A} (e : exn) : M A := λ st, (Throw e, st).
Definition gets {A} (f : daemon → A) : M A := λ st, (Ok (f st), st).
Definition modify (f : daemon → daemon) : M unit := λ st, (Ok tt, f st).
Definition lift {A} (r : result A) : M A := λ st, (r, st).

Notation "x <- c1 ;;; c2" := (bind c1 (λ x, c2))
  (at level 100, c1 at next level, c2 at level 200, right associativity).
Notation "c1 ;;; c2" := (bind c1 (λ _, c2))
  (at level 100, c2 at level 200, right associativity).

(** [for (x : l) body]. *)
Fixpoint for_each {A} (l : list A) (body : A → M unit) : M unit :=
  match l with
  | [] => ret tt
  | x :: l' => body x ;;; for_each l' body
  end.

(** ** The handlers of [TCPStoreDaemon] *)

Section Handlers.

(** The network, as far as a handler can tell: a [tcputil::send*] on a
    socket whose peer no longer takes bytes throws.  [writable] says, for
    the duration of one dispatch, which sockets still take bytes. *)
Variable writable : Z → bool.

(** Modelled from the spec: the [tcputil] send helpers (Utils.hpp is not part
    of the sources).  A send writes one primitive, complete, on one socket,
    or throws. *)
Definition send (socket : Z) (p : packet) : M unit :=
  λ st, if writable socket then (Ok tt, emit (Sent socket p) st)
        else (Throw (io_error socket), st).

(** [operator[]] of the two list-valued maps: a missing key is inserted with
    an empty vector. *)
Definition bucket (m : gmap string (list Z)) (key : string) : list Z :=
  default [] (m !! key).

Definition push_back (key : string) (socket : Z) (m : gmap string (list Z))
    : gmap string (list Z) :=
  <[key := bucket m key ++ [socket]]> m.

(** [--keysAwaited_[socket]]: [operator[]] inserts a zero count for a socket
    without one; the decrement is on [size_t]. *)
Definition decrement_awaited (socket : Z) : M Z :=
  λ st, let n := wrap_size (default 0 (keysAwaited_ st !! socket) - 1) in
        (Ok n, set_keysAwaited (λ m, <[socket := n]> m) st).

Definition wakeupWaitingClients (key : string) : M unit :=
  socketsToWait <- gets (λ st, waitingSockets_ st !! key) ;;;
  match socketsToWait with
  | Some waiting =>
      for_each waiting (λ socket,
        n <- decrement_awaited socket ;;;
        if n =? 0 then send socket (PWait STOP_WAITING) else ret tt) ;;;
      modify (set_waitingSockets (delete key))
  | None => ret tt
  end.

(** The four sends of one KEY_UPDATED notification. *)
Definition sendKeyUpdate (key : string) (oldData newData : list byte)
    (socket : Z) : M unit :=
  send socket (PWatch KEY_UPDATED) ;;;
  send socket (PString key) ;;;
  send socket (PVector oldData) ;;;
  send socket (PVector newData).

Definition sendKeyUpdatesToClients (key : string) (oldData newData : list byte)
    : M unit :=
  watching <- gets (λ st, bucket (watchedSockets_ st) key) ;;;
  modify (set_watchedSockets (λ m, <[key := watching]> m)) ;;;
  for_each watching (sendKeyUpdate key oldData newData).

Definition setHandler (socket : Z) (key : string) (newData : list byte)
    : M unit :=
  oldData <- gets (λ st, default [] (tcpStore_ st !! key)) ;;;
  modify (set_tcpStore (λ m, <[key := newData]> m)) ;;;
  wakeupWaitingClients key ;;;
  sendKeyUpdatesToClients key oldData newData.

Definition compareSetHandler (socket : Z) (key : string)
    (currentValue newValue : list byte) : M unit :=
  pos <- gets (λ st, tcpStore_ st !! key) ;;;
  match pos with
  | None => send socket (PVector currentValue)
  | Some stored =>
      if bool_decide (stored = currentValue) then
        modify (set_tcpStore (λ m, <[key := newValue]> m)) ;;;
        sendKeyUpdatesToClients key currentValue newValue ;;;
        send socket (PVector newValue)
      else send socket (PVector stored)
  end.

Definition addHandler (socket : Z) (key : string) (addVal : Z) : M unit :=
  found <- gets (λ st, tcpStore_ st !! key) ;;;
  sum <- match found with
         | Some stored =>
             parsed <- lift (stoll (string_of_list_byte stored)) ;;;
             ret (stored, wrap64 (addVal + parsed))
         | None => ret ([], addVal)
         end ;;;
  let '(oldData, addVal) := sum in
  let newData := list_byte_of_string (to_string addVal) in
  modify (set_tcpStore (λ m, <[key := newData]> m)) ;;;
  send socket (PInt64 addVal) ;;;
  wakeupWaitingClients key ;;;
  sendKeyUpdatesToClients key oldData newData.

Definition getHandler (socket : Z) (key : string) : M unit :=
  found <- gets (λ st, tcpStore_ st !! key) ;;;
  match found with
  | Some data => send socket (PVector data)
  | None => throw out_of_range
  end.

Definition getNumKeysHandler (socket : Z) : M unit :=
  n <- gets (λ st, Z.of_nat (size (tcpStore_ st))) ;;;
  send socket (PInt64 n).

Definition deleteHandler (socket : Z) (key : string) : M unit :=
  numDeleted <- gets (λ st, match tcpStore_ st !! key with
                            | Some _ => 1
                            | None => 0
                            end) ;;;
  modify (set_tcpStore (delete key)) ;;;
  send socket (PInt64 numDeleted) ;;;
  modify (set_watchedSockets (delete key)).

Definition checkKeys (keys : list string) (st : daemon) : bool :=
  forallb (λ s, bool_decide (is_Some (tcpStore_ st !! s))) keys.

Definition checkHandler (socket : Z) (keys : list string) : M unit :=
  ready <- gets (checkKeys keys) ;;;
  if ready then send socket (PCheck READY) else send socket (PCheck NOT_READY).

(** The loop of [waitHandler] over the keys: the socket is appended to the
    list of every key that is not set, and those keys are counted.  The
    counter is an [int] in the source; it is counted here without the
    overflow of an [int], which takes more than [INT_MAX] absent keys in
    one request. *)
Fixpoint await_keys (socket : Z) (keys : list string) (numKeysToAwait : Z)
    : M Z :=
  match keys with
  | [] => ret numKeysToAwait
  | key :: keys' =>
      found <- gets (λ st, tcpStore_ st !! key) ;;;
      match found with
      | None =>
          modify (set_waitingSockets (push_back key socket)) ;;;
          await_keys socket keys' (numKeysToAwait + 1)
      | Some _ => await_keys socket keys' numKeysToAwait
      end
  end.

Definition waitHandler (socket : Z) (keys : list string) : M unit :=
  ready <- gets (checkKeys keys) ;;;
  if ready then send socket (PWait STOP_WAITING)
  else
    numKeysToAwait <- await_keys socket keys 0 ;;;
    modify (set_keysAwaited (λ m, <[socket := numKeysToAwait]> m)).

Definition watchHandler (socket : Z) (key : string) : M unit :=
  modify (set_watchedSockets (push_back key socket)).

Definition query (socket : Z) (inc : incoming) : M unit :=
  match inc with
  | RecvFailed => throw (io_error socket)
  | UnknownType _ => throw (runtime_error "Unexpected query type")
  | Request (RSet key newData) => setHandler socket key newData
  | Request (RCompareSet key currentValue newValue) =>
      compareSetHandler socket key currentValue newValue
  | Request (RAdd key addVal) => addHandler socket key addVal
  | Request (RGet key) => getHandler socket key
  | Request (RCheck keys) => checkHandler socket keys
  | Request (RWait keys) => waitHandler socket keys
  | Request RGetNumKeys => getNumKeysHandler socket
  | Request (RDeleteKey key) => deleteHandler socket key
  | Request (RWatchKey key) => watchHandler socket key
  end.

(** *** The catch block of [queryFds] *)

(** One pass of the erase loops over a list-valued map: the socket is taken
    out of every list, and a list that is empty afterwards is erased with
    its key. *)
Definition scrub_lists (fd : Z) (m : gmap string (list Z))
    : gmap string (list Z) :=
  omap (λ l, let l' := filter (λ s, s ≠ fd) l in
             if bool_decide (l' = []) then None else Some l') m.

Definition scrub (fd : Z) (st : daemon) : daemon :=
  set_keysAwaited (delete fd)
    (set_watchedSockets (scrub_lists fd)
      (set_waitingSockets (scrub_lists fd) st)).

Definition closeSocket (fd : Z) (st : daemon) : daemon := emit (Closed fd) st.

(** [try { query(fd); } catch (...) { closeSocket(fd); ...erase loops... }],
    without the bookkeeping of [fds] and [sockets_] that follows it.  The
    boolean tells whether the handler threw. *)
Definition dispatch (fd : Z) (inc : incoming) (st : daemon) : bool * daemon :=
  match query fd inc st with
  | (Ok _, st') => (false, st')
  | (Throw _, st') => (true, scrub fd (closeSocket fd st'))
  end.

End Handlers.

(** ** The event loop *)

(** [struct pollfd] and the two event bits the loop looks at (the values of
    <poll.h> on Linux). *)
Record pollfd := Pollfd { fd : Z; events : Z; revents : Z }.

Definition POLLIN : Z := 1.
Definition POLLHUP : Z := 16.

(** [CONNECT_SOCKET_OFFSET] is defined in [TCPStore.hpp], which is not among
    the sources; the comment at the head of [queryFds] gives its value
    outside Windows: [fds[0]] is the listening socket and [fds[1]] the
    reading end of the control pipe. *)
Definition CONNECT_SOCKET_OFFSET : nat := 2.

Definition addPollfd (fds : list pollfd) (socket events : Z) : list pollfd :=
  fds ++ [Pollfd socket events 0].

(** What one pass of the loop finds outside the daemon: which sockets take
    bytes, what each readable socket delivers, what [poll] reports for each
    descriptor, and the descriptor [accept] returns. *)
Record world := World {
  w_writable : Z → bool;
  w_inbox : Z → incoming;
  w_revents : Z → Z;
  w_accept : Z
}.

(** The loop of [queryFds] from index [fdIdx] on; [todo] is the part of
    [fds] from [fdIdx] to its end.  A socket whose handler throws is closed,
    scrubbed, and erased from [fds] and [sockets_], and the index stays
    ([--fdIdx] before the [++fdIdx] of the loop).  [sockets_] runs parallel
    to [fds] from [CONNECT_SOCKET_OFFSET] on. *)
Fixpoint queryFds_from (w : world) (todo : list pollfd) (fdIdx : nat)
    (fds : list pollfd) (st : daemon) : list pollfd * daemon :=
  match todo with
  | [] => (fds, st)
  | p :: todo' =>
      if revents p =? 0 then queryFds_from w todo' (S fdIdx) fds st
      else
        match dispatch (w_writable w) (fd p) (w_inbox w (fd p)) st with
        | (false, st') => queryFds_from w todo' (S fdIdx) fds st'
        | (true, st') =>
            queryFds_from w todo' fdIdx (delete fdIdx fds)
              (set_sockets (delete (fdIdx - CONNECT_SOCKET_OFFSET)%nat) st')
        end
  end.

Definition queryFds (w : world) (fds : list pollfd) (st : daemon)
    : list pollfd * daemon :=
  queryFds_from w (drop CONNECT_SOCKET_OFFSET fds) CONNECT_SOCKET_OFFSET fds st.

(** [for (i = 0; i < sockets_.size(); i++) fds[i].revents = 0]. *)
Definition clear_revents (n : nat) (fds : list pollfd) : list pollfd :=
  imap (λ i p, if bool_decide (i < n)%nat then Pollfd (fd p) (events p) 0
               else p) fds.

(** [::poll] fills in [revents] of every entry. *)
Definition poll (w : world) (fds : list pollfd) : list pollfd :=
  map (λ p, Pollfd (fd p) (events p) (w_revents w (fd p))) fds.

Definition revents_at (fds : list pollfd) (i : nat) : Z :=
  from_option revents 0 (fds !! i).

(** How one pass of the loop of [run] ends. *)
Inductive pass :=
| Continue            (* go round again *)
| Finished            (* [finished = true; break] *)
| Aborted (e : exn).  (* an exception leaves [run] *)

(** One pass of [while (!finished)] in [TCPStoreDaemon::run], the POSIX
    variant, from the return of [poll] on. *)
Definition run_pass (w : world) (storeListenSocket : Z) (fds : list pollfd)
    (st : daemon) : pass * list pollfd * daemon :=
  let fds := clear_revents (length (sockets_ st)) fds in
  let fds := poll w fds in
  (* the listening socket *)
  let listening :=
    if revents_at fds 0 =? 0 then Ok (fds, st)
    else if Z.lxor (revents_at fds 0) POLLIN =? 0 then
      let sockFd := w_accept w in
      Ok (addPollfd fds sockFd POLLIN,
          set_sockets (λ l, l ++ [sockFd]) (emit (Accepted sockFd) st))
    else Throw (system_error (revents_at fds 0)) in
  match listening with
  | Throw e => (Aborted e, fds, st)
  | Ok (fds, st) =>
      (* the control pipe *)
      if revents_at fds 1 =? 0 then
        let '(fds, st) := queryFds w fds st in (Continue, fds, st)
      else if Z.lxor (revents_at fds 1) POLLHUP =? 0 then (Finished, fds, st)
      else (Aborted (system_error (revents_at fds 1)), fds, st)
  end.

(** [run]: the passes over what the world delivers, one [world] per return
    of [poll], until the loop finishes or throws. *)
Fixpoint run_loop (ws : list world) (storeListenSocket : Z)
    (fds : list pollfd) (st : daemon) : pass * list pollfd * daemon :=
  match ws with
  | [] => (Continue, fds, st)
  | w :: ws' =>
      match run_pass w storeListenSocket fds st with
      | (Continue, fds', st') => run_loop ws' storeListenSocket fds' st'
      | stop => stop
      end
  end.

Definition run (ws : list world) (storeListenSocket controlPipeFd : Z)
    (st : daemon) : pass * list pollfd * daemon :=
  let fds := addPollfd [] storeListenSocket POLLIN in
  let fds := addPollfd fds controlPipeFd POLLHUP in
  run_loop ws storeListenSocket fds st.

(** ** The client side, request by request *)

(** The packets written on [socket] in a trace, oldest first. *)
Definition sent_to (socket : Z) (tr : list effect) : list packet :=
  omap (λ e, match e with
             | Sent s p => if bool_decide (s = socket) then Some p else None
             | _ => None
             end) tr.

(** One request of a client whose connection is in order: the daemon
    serves the socket, and the client has read everything written on it so
    far.  What such a client finds to read afterwards are the packets the
    daemon wrote on [socket] while it handled the request.  A connection in
    any condition, with what earlier calls left unread on it, is
    [request_on] and [recv] below. *)
Definition exchange (writable : Z → bool) (socket : Z) (r : request)
    (st : daemon) : list packet * daemon :=
  let st' := (dispatch writable socket (Request r) st).2 in
  (drop (length (sent_to socket (trace st))) (sent_to socket (trace st')), st').

Definition regularPrefix_ : string := "/".

(** [TCPStore::set]: nothing is read back. *)
Definition TCPStore_set (writable : Z → bool) (storeSocket : Z) (key : string)
    (data : list byte) (st : daemon) : daemon :=
  (exchange writable storeSocket (RSet (regularPrefix_ +:+ key) data) st).2.

(** [TCPStore::deleteKey]: [recvValue<int64_t>] and [numDeleted == 1];
    [None] when the read finds no [int64_t]. *)
Definition TCPStore_deleteKey (writable : Z → bool) (storeSocket : Z)
    (key : string) (st : daemon) : option bool * daemon :=
  let '(reply, st') :=
    exchange writable storeSocket (RDeleteKey (regularPrefix_ +:+ key)) st in
  (match reply with
   | PInt64 numDeleted :: _ => Some (numDeleted =? 1)
   | _ => None
   end, st').

(** [TCPStore::compareSet]: [recvVector<uint8_t>]. *)
Definition TCPStore_compareSet (writable : Z → bool) (storeSocket : Z)
    (key : string) (currentValue newValue : list byte) (st : daemon)
    : option (list byte) * daemon :=
  let '(reply, st') :=
    exchange writable storeSocket
      (RCompareSet (regularPrefix_ +:+ key) currentValue newValue) st in
  (match reply with
   | PVector v :: _ => Some v
   | _ => None
   end, st').

(** ** Vocabulary of the statements *)

(** Several effects appended to the trace at once. *)
Definition emits (es : list effect) (st : daemon) : daemon :=
  Daemon (tcpStore_ st) (waitingSockets_ st) (keysAwaited_ st)
         (watchedSockets_ st) (sockets_ st) (trace st ++ es).

(** One KEY_UPDATED notification on the wire. *)
Definition notification (key : string) (oldData newData : list byte)
    (socket : Z) : list effect :=
  [Sent socket (PWatch KEY_UPDATED); Sent socket (PString key);
   Sent socket (PVector oldData); Sent socket (PVector newData)].

Definition notifications (key : string) (oldData newData : list byte)
    (watching : list Z) : list effect :=
  concat (map (notification key oldData newData) watching).

Definition all_writable (writable : Z → bool) (l : list Z) : Prop :=
  ∀ s, s ∈ l → writable s = true.

(** What the loop of [wakeupWaitingClients] leaves behind when every send
    goes through: the remaining-counts after one decrement per list entry,
    and a STOP_WAITING for every decrement that reached zero. *)
Fixpoint wake (waiting : list Z) (awaited : gmap Z Z)
    : gmap Z Z * list effect :=
  match waiting with
  | [] => (awaited, [])
  | socket :: waiting' =>
      let n := wrap_size (default 0 (awaited !! socket) - 1) in
      let '(awaited', es) := wake waiting' (<[socket := n]> awaited) in
      (awaited',
       (if n =? 0 then [Sent socket (PWait STOP_WAITING)] else []) ++ es)
  end.

(** The state after [wakeupWaitingClients(key)] when every send goes
    through. *)
Definition woken (key : string) (st : daemon) : daemon :=
  match waitingSockets_ st !! key with
  | Some waiting =>
      emits (wake waiting (keysAwaited_ st)).2
        (set_waitingSockets (delete key)
           (set_keysAwaited (λ _, (wake waiting (keysAwaited_ st)).1) st))
  | None => st
  end.

(** The sockets [wakeupWaitingClients(key)] may write on. *)
Definition waiting_on (key : string) (st : daemon) : list Z :=
  bucket (waitingSockets_ st) key.

(** A computation leaves an observation [f] of the state as it found it,
    whether it returns or throws. *)
Definition preserves {A X} (f : daemon → X) (m : M A) : Prop :=
  ∀ st r st', m st = (r, st') → f st' = f st.

(** The number ADD(key, addVal) arrives at before it stores anything: the
    stored value read by [std::stoll] plus [addVal], in [int64_t]; [addVal]
    itself when the key is absent; a throw when [std::stoll] throws. *)
Definition add_total (st : daemon) (key : string) (addVal : Z) : result Z :=
  match tcpStore_ st !! key with
  | Some stored =>
      match stoll (string_of_list_byte stored) with
      | Ok parsed => Ok (wrap64 (addVal + parsed))
      | Throw e => Throw e
      end
  | None => Ok addVal
  end.

(** The old value a notification carries: empty when the key was absent. *)
Definition old_value (st : daemon) (key : string) : list byte :=
  default [] (tcpStore_ st !! key).

(** The sockets a trace writes a KEY_UPDATED tag on, in order: one entry per
    notification. *)
Definition key_updates (tr : list effect) : list Z :=
  omap (λ e, match e with
             | Sent s (PWatch KEY_UPDATED) => Some s
             | _ => None
             end) tr.

(** All sockets take bytes. *)
Definition all_up : Z → bool := λ _, true.

(** A sequence of requests, each from its socket, dispatched one after the
    other. *)
Fixpoint handle_all (writable : Z → bool) (reqs : list (Z * incoming))
    (st : daemon) : daemon :=
  match reqs with
  | [] => st
  | (socket, inc) :: reqs' =>
      handle_all writable reqs' (dispatch writable socket inc st).2
  end.

(** A computation only ever appends to the trace. *)
Definition extends {A} (m : M A) : Prop :=
  ∀ st r st', m st = (r, st') → trace st `prefix_of` trace st'.

(** One pass of the loop in the order the specification gives: the
    shutdown signal first, then the listening socket, then the dispatch.
    This definition follows the words of the specification, not the source;
    it is here to be compared with [run_pass]. *)
Definition run_pass_shutdown_first (w : world) (storeListenSocket : Z)
    (fds : list pollfd) (st : daemon) : pass * list pollfd * daemon :=
  let fds := clear_revents (length (sockets_ st)) fds in
  let fds := poll w fds in
  if negb (revents_at fds 1 =? 0) then
    if Z.lxor (revents_at fds 1) POLLHUP =? 0 then (Finished, fds, st)
    else (Aborted (system_error (revents_at fds 1)), fds, st)
  else
    let listening :=
      if revents_at fds 0 =? 0 then Ok (fds, st)
      else if Z.lxor (revents_at fds 0) POLLIN =? 0 then
        let sockFd := w_accept w in
        Ok (addPollfd fds sockFd POLLIN,
            set_sockets (λ l, l ++ [sockFd]) (emit (Accepted sockFd) st))
      else Throw (system_error (revents_at fds 0)) in
    match listening with
    | Throw e => (Aborted e, fds, st)
    | Ok (fds, st) => let '(fds, st) := queryFds w fds st in (Continue, fds, st)
    end.

(** The descriptors and the state after the listening socket has been
    looked at: one connection accepted when it was readable. *)
Definition after_accept (w : world) (polled : list pollfd) (st : daemon)
    : list pollfd * daemon :=
  if revents_at polled 0 =? 0 then (polled, st)
  else (addPollfd polled (w_accept w) POLLIN,
        set_sockets (λ l, l ++ [w_accept w]) (emit (Accepted (w_accept w)) st)).

(** A pass in which a connection is pending on the listening socket 3 and
    the control pipe 5 has been closed; [accept] would return 8. *)
Definition both_ready : world :=
  World all_up (λ _, RecvFailed)
        (λ fd, if fd =? 3 then POLLIN else if fd =? 5 then POLLHUP else 0) 8.

Definition fds_at_start : list pollfd :=
  addPollfd (addPollfd [] 3 POLLIN) 5 POLLHUP.

(** No overlay mentions the socket. *)
Definition unreferenced (socket : Z) (st : daemon) : Prop :=
  (∀ key l, waitingSockets_ st !! key = Some l → socket ∉ l) ∧
  keysAwaited_ st !! socket = None ∧
  (∀ key l, watchedSockets_ st !! key = Some l → socket ∉ l).

(** Two list-valued maps that no handler can tell apart: every key has the
    same list in both, a key without a bucket counting as one with an empty
    list. *)
Definition same_buckets (m1 m2 : gmap string (list Z)) : Prop :=
  ∀ key, bucket m1 key = bucket m2 key.

(** Two daemon states with the same store, the same remaining-counts and
    the same buckets. *)
Definition alike (a b : daemon) : Prop :=
  tcpStore_ a = tcpStore_ b ∧
  keysAwaited_ a = keysAwaited_ b ∧
  same_buckets (waitingSockets_ a) (waitingSockets_ b) ∧
  same_buckets (watchedSockets_ a) (watchedSockets_ b).

(** A computation cannot tell alike states apart: from alike states it
    ends the same way, writes the same, and leaves alike states. *)
Definition blind {A} (m : M A) : Prop :=
  ∀ a b, alike a b →
    ∃ r a' b' t, m a = (r, a') ∧ m b = (r, b') ∧ alike a' b' ∧
      trace a' = trace a ++ t ∧ trace b' = trace b ++ t.

(** [TCPStore::addHelper_]: [recvValue<int64_t>]; [None] when the read
    finds no [int64_t]. *)
Definition TCPStore_addHelper_ (writable : Z → bool) (storeSocket : Z)
    (key : string) (value : Z) (st : daemon) : option Z * daemon :=
  let '(reply, st') := exchange writable storeSocket (RAdd key value) st in
  (match reply with
   | PInt64 total :: _ => Some total
   | _ => None
   end, st').

(** ** The client side, connection by connection *)

(** The daemon together with the clients' ends of the connections: for
    every socket, how many of the packets written on it the client at the
    other end has read.  A socket is known here by the descriptor the
    daemon has for it. *)
Record net := Net { daemon_of : daemon; taken : Z → nat }.

(** The clients have read everything written so far. *)
Definition drained (st : daemon) : net :=
  Net st (λ socket, length (sent_to socket (trace st))).

(** The daemon has closed the connection it had under this descriptor (the
    [closeSocket] of the catch block in [queryFds], after which the
    descriptor is erased from [fds] and no request on it is handled any
    more) and has accepted none under it since. *)
Definition hung_up (socket : Z) (st : daemon) : bool :=
  foldl (λ gone e,
           match e with
           | Closed s => if bool_decide (s = socket) then true else gone
           | Accepted s => if bool_decide (s = socket) then false else gone
           | Sent _ _ => gone
           end) false (trace st).

(** A client writes a request on its socket: the daemon handles it, unless
    it has closed the connection. *)
Definition request_on (writable : Z → bool) (socket : Z) (r : request)
    (n : net) : net :=
  if hung_up socket (daemon_of n) then n
  else Net (dispatch writable socket (Request r) (daemon_of n)).2 (taken n).

(** One [tcputil::recv*] of a client: the oldest packet on its socket that
    it has not read; nothing when there is none (the read blocks until its
    timeout, or fails on a connection the daemon has closed). *)
Definition recv (socket : Z) (n : net) : option packet * net :=
  match sent_to socket (trace (daemon_of n)) !! taken n socket with
  | Some p =>
      (Some p,
       Net (daemon_of n)
         (λ s, if bool_decide (s = socket) then S (taken n socket)
               else taken n s))
  | None => (None, n)
  end.

(** The connection is in order: the daemon serves it, and its client has
    read everything written on it. *)
Definition in_order (socket : Z) (n : net) : Prop :=
  hung_up socket (daemon_of n) = false ∧
  taken n socket = length (sent_to socket (trace (daemon_of n))).

(** The calls of [TCPStore] on a connection in any condition.  The packets
    are typed, so a read that meets a packet of another kind (where the
    code would take its bytes for a value of the kind it expects) is shown
    as a read that gives no value, like a read that finds nothing. *)
Module Client.

(** [TCPStore::set]: nothing is read back. *)
Definition set (writable : Z → bool) (storeSocket : Z) (key : string)
    (data : list byte) (n : net) : net :=
  request_on writable storeSocket (RSet (regularPrefix_ +:+ key) data) n.

(** [TCPStore::deleteKey]: [recvValue<int64_t>] and [numDeleted == 1]. *)
Definition deleteKey (writable : Z → bool) (storeSocket : Z) (key : string)
    (n : net) : option bool * net :=
  match recv storeSocket
          (request_on writable storeSocket
             (RDeleteKey (regularPrefix_ +:+ key)) n) with
  | (Some (PInt64 numDeleted), n') => (Some (numDeleted =? 1), n')
  | (_, n') => (None, n')
  end.

(** [TCPStore::compareSet]: [recvVector<uint8_t>]. *)
Definition compareSet (writable : Z → bool) (storeSocket : Z) (key : string)
    (currentValue newValue : list byte) (n : net)
    : option (list byte) * net :=
  match recv storeSocket
          (request_on writable storeSocket
             (RCompareSet (regularPrefix_ +:+ key) currentValue newValue) n)
  with
  | (Some (PVector v), n') => (Some v, n')
  | (_, n') => (None, n')
  end.

(** [TCPStore::addHelper_]: [recvValue<int64_t>]. *)
Definition addHelper_ (writable : Z → bool) (storeSocket : Z) (key : string)
    (value : Z) (n : net) : option Z * net :=
  match recv storeSocket
          (request_on writable storeSocket (RAdd key value) n) with
  | (Some (PInt64 total), n') => (Some total, n')
  | (_, n') => (None, n')
  end.

(** [TCPStore::waitHelper_]: [recvValue<WaitResponseType>]. *)
Definition waitHelper_ (writable : Z → bool) (storeSocket : Z)
    (keys : list string) (n : net) : option unit * net :=
  match recv storeSocket
          (request_on writable storeSocket (RWait keys) n) with
  | (Some (PWait STOP_WAITING), n') => (Some tt, n')
  | (_, n') => (None, n')
  end.

(** [TCPStore::getHelper_]: a WAIT for the key, and only after its reply
    the GET and [recvVector<uint8_t>]. *)
Definition getHelper_ (writable : Z → bool) (storeSocket : Z) (key : string)
    (n : net) : option (list byte) * net :=
  match waitHelper_ writable storeSocket [key] n with
  | (Some _, n1) =>
      match recv storeSocket
              (request_on writable storeSocket (RGet key) n1) with
      | (Some (PVector data), n2) => (Some data, n2)
      | (_, n2) => (None, n2)
      end
  | (None, n1) => (None, n1)
  end.

(** [TCPStore::get]. *)
Definition get (writable : Z → bool) (storeSocket : Z) (key : string)
    (n : net) : option (list byte) * net :=
  getHelper_ writable storeSocket (regularPrefix_ +:+ key) n.

(** [TCPStore::getNumKeys]: [recvValue<int64_t>]. *)
Definition getNumKeys (writable : Z → bool) (storeSocket : Z) (n : net)
    : option Z * net :=
  match recv storeSocket
          (request_on writable storeSocket RGetNumKeys n) with
  | (Some (PInt64 numKeys), n') => (Some numKeys, n')
  | (_, n') => (None, n')
  end.

End Client.

(** ADDs on one key, each from its own client socket, one after the other;
    what each client reads back, in order, and the daemon and the
    connections at the end. *)
Fixpoint add_sequence (writable : Z → bool) (key : string)
    (adds : list (Z * Z)) (n : net) : list (option Z) * net :=
  match adds with
  | [] => ([], n)
  | (storeSocket, value) :: adds' =>
      let '(reply, n1) :=
        Client.addHelper_ writable storeSocket key value n in
      let '(replies, n2) := add_sequence writable key adds' n1 in
      (reply :: replies, n2)
  end.

(** The running totals of a sequence of deltas, starting after [acc]: in
    [int64_t], and in the integers. *)
Fixpoint totals64 (acc : Z) (deltas : list Z) : list Z :=
  match deltas with
  | [] => []
  | d :: deltas' => wrap64 (d + acc) :: totals64 (wrap64 (d + acc)) deltas'
  end.

Fixpoint totals (acc : Z) (deltas : list Z) : list Z :=
  match deltas with
  | [] => []
  | d :: deltas' => (acc + d) :: totals (acc + d) deltas'
  end.

Definition sum_list_Z (deltas : list Z) : Z := foldr Z.add 0 deltas.

(** The value stored for a number: the bytes of its decimal string. *)
Definition decimal (z : Z) : list byte := list_byte_of_string (to_string z).

(** How often a socket stands in a list. *)
Definition count (socket : Z) (l : list Z) : Z :=
  Z.of_nat (length (filter (λ s, s = socket) l)).

(** The entries a socket has in the wait lists, over all keys, every entry
    counted. *)
Definition occurrences (socket : Z) (m : gmap string (list Z)) : Z :=
  map_fold (λ _ l acc, count socket l + acc) 0 m.

(** The number of wait lists a socket stands in. *)
Definition lists_with (socket : Z) (m : gmap string (list Z)) : Z :=
  map_fold (λ _ l acc, (if bool_decide (socket ∈ l) then 1 else 0) + acc) 0 m.

(** The remaining-count of a socket; a socket without an entry has none
    left. *)
Definition remaining (socket : Z) (st : daemon) : Z :=
  default 0 (keysAwaited_ st !! socket).

(** The STOP_WAITING replies to a socket in a stretch of the trace. *)
Definition stops (socket : Z) (es : list effect) : Z :=
  Z.of_nat (length (filter (λ e, e = Sent socket (PWait STOP_WAITING)) es)).

(** [int numKeysToAwait]. *)
Definition INT_MAX : Z := 2 ^ 31 - 1.

(** The wait-record invariant as the specification words it: a socket with
    remaining-count [N > 0] stands in exactly [N] of the wait lists. *)
Definition wait_record_as_specified (st : daemon) : Prop :=
  ∀ socket N, keysAwaited_ st !! socket = Some N → 0 < N →
    lists_with socket (waitingSockets_ st) = N.

(** The wait-record invariant the handlers keep: the remaining-count of a
    socket is the number of its entries in the wait lists. *)
Definition wait_record (st : daemon) : Prop :=
  ∀ socket, remaining socket st = occurrences socket (waitingSockets_ st) ∧
            occurrences socket (waitingSockets_ st) <= INT_MAX.

(** The requests the invariant is kept under: a socket sends a WAIT only
    while it has no entry in a wait list, with no more keys than an [int]
    counts; and the sockets woken by a SET or an ADD take their reply. *)
Definition orderly (writable : Z → bool) (socket : Z) (inc : incoming)
    (st : daemon) : Prop :=
  match inc with
  | Request (RWait keys) =>
      occurrences socket (waitingSockets_ st) = 0 ∧
      Z.of_nat (length keys) <= INT_MAX
  | Request (RSet key _) | Request (RAdd key _) =>
      all_writable writable (waiting_on key st)
  | _ => True
  end.

(** The states the daemon reaches from its start by orderly requests. *)
Inductive reachable : daemon → Prop :=
| reachable_fresh : reachable fresh
| reachable_dispatch writable socket inc st :
    reachable st → orderly writable socket inc st →
    reachable (dispatch writable socket inc st).2.

(** The two maps of the wait overlay. *)
Definition wait_overlay (st : daemon) : gmap string (list Z) * gmap Z Z :=
  (waitingSockets_ st, keysAwaited_ st).

(** Counts that the loop of [wakeupWaitingClients] over [l] cannot take
    below zero. *)
Definition covers (awaited : gmap Z Z) (l : list Z) : Prop :=
  ∀ socket, count socket l <= default 0 (awaited !! socket) <= INT_MAX.

(** ** The rest of the client *)

(** [TCPStore::waitHelper_]: the WAIT request and the read of its reply.
    The daemon may defer the reply; a client that finds nothing to read
    stays in [recvValue] (until its receive timeout, which is not
    modelled), and that is [None]. *)
Definition TCPStore_waitHelper_ (writable : Z → bool) (storeSocket : Z)
    (keys : list string) (st : daemon) : option unit * daemon :=
  let '(reply, st') := exchange writable storeSocket (RWait keys) st in
  (match reply with
   | PWait STOP_WAITING :: _ => Some tt
   | _ => None
   end, st').


(** [TCPStore::getHelper_]: a WAIT for the key, and only after its reply
    the GET. *)
Definition TCPStore_getHelper_ (writable : Z → bool) (storeSocket : Z)
    (key : string) (st : daemon) : option (list byte) * daemon :=
  match TCPStore_waitHelper_ writable storeSocket [key] st with
  | (Some _, st1) =>
      let '(reply, st2) := exchange writable storeSocket (RGet key) st1 in
      (match reply with
       | PVector data :: _ => Some data
       | _ => None
       end, st2)
  | (None, st1) => (None, st1)
  end.

Definition TCPStore_get (writable : Z → bool) (storeSocket : Z)
    (key : string) (st : daemon) : option (list byte) * daemon :=
  TCPStore_getHelper_ writable storeSocket (regularPrefix_ +:+ key) st.

Definition TCPStore_add (writable : Z → bool) (storeSocket : Z)
    (key : string) (value : Z) (st : daemon) : option Z * daemon :=
  TCPStore_addHelper_ writable storeSocket (regularPrefix_ +:+ key) value st.

Definition TCPStore_getNumKeys (writable : Z → bool) (storeSocket : Z)
    (st : daemon) : option Z * daemon :=
  let '(reply, st') := exchange writable storeSocket RGetNumKeys st in
  (match reply with
   | PInt64 n :: _ => Some n
   | _ => None
   end, st').


(** The key of the rendezvous counter. *)
Definition initKey_ : string := "init/".

(** ** The watch listener *)

(** [ListenThread]: the callbacks by key.  A callback is known by a number;
    calling it is recorded with the two strings it is given. *)
Record call := Call { cb : nat; currentValue : string; newValue : string }.

Definition addCallback (key : string) (callback : nat) (table : gmap string nat)
    : gmap string nat :=
  <[key := callback]> table.

(** [TCPStore::watchKey]: the callback is entered under the prefixed key,
    then WATCH_KEY goes out on the listen socket; nothing is read back. *)
Definition TCPStore_watchKey (writable : Z → bool) (listenSocket : Z)
    (key : string) (callback : nat) (table : gmap string nat) (st : daemon)
    : gmap string nat * daemon :=
  (addCallback (regularPrefix_ +:+ key) callback table,
   (exchange writable listenSocket (RWatchKey (regularPrefix_ +:+ key)) st).2).

(** [ListenThread::callbackHandler] on what the listen socket holds: the
    four reads, then the tag test, then [keyToCallbacks_.at(key)] and the
    call.  The packets are typed here, so a read that meets a packet of
    another kind (where the code would misread bytes), and a read on an
    exhausted stream, are a failed read. *)
Definition callbackHandler (listenSocket : Z) (table : gmap string nat)
    (stream : list packet) : result call * list packet :=
  match stream with
  | PWatch watchResponse :: PString key :: PVector currentValueVec
      :: PVector newValueVec :: rest =>
      let currentValue := string_of_list_byte currentValueVec in
      let newValue := string_of_list_byte newValueVec in
      match watchResponse with
      | KEY_UPDATED =>
          match table !! key with
          | Some callback => (Ok (Call callback currentValue newValue), rest)
          | None => (Throw out_of_range, rest)
          end
      end
  | _ => (Throw (io_error listenSocket), stream)
  end.

(** How the listener thread stands after the passes it was given. *)
Inductive listener :=
| Listening          (* in [poll], or going round *)
| Stopped            (* the control pipe was closed: [break] *)
| Died (e : exn).    (* an exception left [run] *)

(** [ListenThread::run], the POSIX variant, from the return of [poll] on,
    for as many passes as [control] has entries: an entry is the [revents]
    of the control pipe at that return.  With no event on the pipe, a
    socket with nothing to read is one whose peer has closed ([recv]
    gives 0: [continue]); otherwise one [callbackHandler]. *)
Fixpoint ListenThread_run (control : list Z) (listenSocket : Z)
    (table : gmap string nat) (stream : list packet) : list call * listener :=
  match control with
  | [] => ([], Listening)
  | revents :: control' =>
      if revents =? 0 then
        match stream with
        | [] => ListenThread_run control' listenSocket table stream
        | _ =>
            match callbackHandler listenSocket table stream with
            | (Ok c, rest) =>
                let '(calls, l) :=
                  ListenThread_run control' listenSocket table rest in
                (c :: calls, l)
            | (Throw e, _) => ([], Died e)
            end
        end
      else if Z.lxor revents POLLHUP =? 0 then ([], Stopped)
      else ([], Died (system_error revents))
  end.

(** The key a request may write in the store; the requests that only read
    have none. *)
Definition written_key (r : request) : option string :=
  match r with
  | RSet key _ | RCompareSet key _ _ | RAdd key _ | RDeleteKey key => Some key
  | RGet _ | RCheck _ | RWait _ | RGetNumKeys | RWatchKey _ => None
  end.

(** [fds] and [sockets_] run parallel: the descriptors after the listening
    socket and the control pipe are the accepted sockets, in order. *)
Definition in_sync (fds : list pollfd) (st : daemon) : Prop :=
  (CONNECT_SOCKET_OFFSET <= length fds)%nat ∧
  map fd (drop CONNECT_SOCKET_OFFSET fds) = sockets_ st.

(** Nobody waits for a key that is in the store, and no wait list is
    empty. *)
Definition waits_for_missing_keys (st : daemon) : Prop :=
  ∀ key l, waitingSockets_ st !! key = Some l →
    tcpStore_ st !! key = None ∧ l ≠ [].

(** SETs, each from its socket, as requests. *)
Definition set_requests (sets : list (Z * string * list byte))
    : list (Z * incoming) :=
  map (λ '(socket, key, data), (socket, Request (RSet key data))) sets.

(** What a socket finds to read after the daemon went from [st] to [st']:
    the packets written on it in between. *)
Definition heard (socket : Z) (st st' : daemon) : list packet :=
  drop (length (sent_to socket (trace st))) (sent_to socket (trace st')).

(** The registrations of a socket in a watcher list. *)
Definition registrations (socket : Z) (watching : list Z) : nat :=
  length (filter (λ s, s = socket) watching).

(** The keys a sequence of SETs writes, in order. *)
Definition set_keys (sets : list (Z * string * list byte)) : list string :=
  map (λ '(_, key, _), key) sets.

(** Bytes written on [socket] or on one of [others], and nothing else. *)
Definition written (socket : Z) (others : list Z) (e : effect) : Prop :=
  match e with
  | Sent s _ => s = socket ∨ s ∈ others
  | _ => False
  end.

(** An effect that concerns [socket] or one of [others]: bytes written on
    one of them, or [socket] closed. *)
Definition addressed (socket : Z) (others : list Z) (e : effect) : Prop :=
  match e with
  | Sent s _ => s = socket ∨ s ∈ others
  | Closed s => s = socket
  | Accepted _ => False
  end.

(** The sockets a request concerns besides the one it comes from: those
    waiting for the key it writes and those watching it. *)
Definition concerned (inc : incoming) (st : daemon) : list Z :=
  match inc with
  | Request r =>
      match written_key r with
      | Some key => waiting_on key st ++ bucket (watchedSockets_ st) key
      | None => []
      end
  | _ => []
  end.

(** The waiters and watchers of [key] are among [W] and [V]. *)
Definition listed (key : string) (W V : list Z) (st : daemon) : Prop :=
  (∀ s, s ∈ waiting_on key st → s ∈ W) ∧
  (∀ s, s ∈ bucket (watchedSockets_ st) key → s ∈ V).

(** A computation that keeps [I] and appends to the trace only effects
    that satisfy [P], whether it returns or throws. *)
Definition confined {A} (I : daemon → Prop) (P : effect → Prop) (m : M A)
    : Prop :=
  ∀ st r st', I st → m st = (r, st') →
    I st' ∧ ∃ es, trace st' = trace st ++ es ∧ Forall P es.

(** ** [TCPStore::waitForWorkers] *)

Definition INT_MIN : Z := - 2 ^ 31.

(** [std::stoi]: what [std::stoll] reads, refused when it is no [int]. *)
Definition stoi (s : string) : result Z :=
  match stoll s with
  | Ok n =>
      if (INT_MIN <=? n) && (n <=? INT_MAX) then Ok n else Throw out_of_range
  | Throw e => Throw e
  end.

(** How [waitForWorkers] ends for the server. *)
Inductive waited :=
| AllThere         (* [numWorkersCompleted >= numWorkers_]: break *)
| TimedOut         (* the timeout has passed: break *)
| Unanswered       (* a request of the client got no reply *)
| Threw (e : exn)  (* [std::stoi] threw *)
| StillWaiting.    (* the passes given are used up *)

(** The loop of the server in [waitForWorkers].  The daemon serves other
    clients while the server sleeps between two passes; a pass of the
    schedule says whether the timeout has passed when the pass tests it,
    and which requests the daemon handles during the sleep after it. *)
Fixpoint waitForWorkers_loop (writable : Z → bool) (storeSocket : Z)
    (numWorkers : option Z) (schedule : list (bool * list (Z * incoming)))
    (st : daemon) : waited * daemon :=
  match schedule with
  | [] => (StillWaiting, st)
  | (expired, others) :: schedule' =>
      match TCPStore_getHelper_ writable storeSocket initKey_ st with
      | (Some value, st1) =>
          match stoi (string_of_list_byte value) with
          | Ok numWorkersCompleted =>
              if default (-1) numWorkers <=? numWorkersCompleted
              then (AllThere, st1)
              else if expired then (TimedOut, st1)
              else waitForWorkers_loop writable storeSocket numWorkers
                     schedule' (handle_all writable others st1)
          | Throw e => (Threw e, st1)
          end
      | (None, st1) => (Unanswered, st1)
      end
  end.

(** [TCPStore::waitForWorkers]: the ADD of one on [initKey_], and for the
    server the loop; a client that is no server returns after the ADD. *)
Definition TCPStore_waitForWorkers (writable : Z → bool) (storeSocket : Z)
    (isServer : bool) (numWorkers : option Z)
    (schedule : list (bool * list (Z * incoming))) (st : daemon)
    : option waited * daemon :=
  match TCPStore_addHelper_ writable storeSocket initKey_ 1 st with
  | (Some _, st1) =>
      if isServer then
        let '(w, st2) :=
          waitForWorkers_loop writable storeSocket numWorkers schedule st1 in
        (Some w, st2)
      else (None, st1)
  | (None, st1) => (Some Unanswered, st1)
  end.

(** The ADDs of workers that come, each on its socket. *)
Definition arrivals (workers : list Z) : list (Z * incoming) :=
  map (λ w, (w, Request (RAdd initKey_ 1))) workers.

(** Passes before the timeout, with the workers that come during each
    sleep. *)
Definition before_timeout (arriving : list (list Z))
    : list (bool * list (Z * incoming)) :=
  map (λ workers, (false, arrivals workers)) arriving.

(** Whether one of the passes finds [numWorkers] workers counted, when
    [c] are counted at the first pass and [arriving] come in between. *)
Fixpoint enough (numWorkers c : Z) (arriving : list (list Z)) : bool :=
  match arriving with
  | [] => false
  | workers :: arriving' =>
      (numWorkers <=? c)
      || enough numWorkers (c + Z.of_nat (length workers)) arriving'
  end.


(** ** Connections *)

(** How often a trace accepts a connection on a descriptor, and how often
    it closes one. *)
Definition accepted (s : Z) (tr : list effect) : Z :=
  Z.of_nat (length (filter (λ e, e = Accepted s) tr)).

Definition closed (s : Z) (tr : list effect) : Z :=
  Z.of_nat (length (filter (λ e, e = Closed s) tr)).

(** The connections accepted and not closed are the entries of
    [sockets_]. *)
Definition balanced (st : daemon) : Prop :=
  ∀ s, accepted s (trace st) = closed s (trace st) + count s (sockets_ st).

(** The loop of [~BackgroundThread] over [sockets_], after the thread has
    been joined: every socket left, unless it is -1, is closed.  (The
    control pipe, closed after it, is no socket.) *)
Definition closeSockets (st : daemon) : daemon :=
  emits (map Closed (filter (λ socket, socket ≠ -1) (sockets_ st))) st.

(** * Properties *)

(** ** The trace *)

Lemma emits_nil st : emits [] st = st.
Proof. destruct st; unfold emits; simpl. by rewrite app_nil_r. Qed.

Lemma emits_emits es1 es2 st : emits es2 (emits es1 st) = emits (es1 ++ es2) st.
Proof. unfold emits; simpl. by rewrite app_assoc. Qed.

Lemma emit_emits e st : emit e st = emits [e] st.
Proof. reflexivity. Qed.

Lemma all_writable_cons writable s l :
  all_writable writable (s :: l) ↔ writable s = true ∧ all_writable writable l.
Proof.
  unfold all_writable. split.
  - intros H. split; [apply H; left | intros x Hx; apply H; by right].
  - intros [Hs Hl] x Hx. apply elem_of_cons in Hx as [->|Hx]; auto.
Qed.

Section HandlerFacts.

Variable writable : Z → bool.

Lemma send_ok socket p st :
  writable socket = true →
  send writable socket p st = (Ok tt, emits [Sent socket p] st).
Proof. intros H. unfold send. by rewrite H. Qed.

Lemma send_fail socket p st :
  writable socket = false →
  send writable socket p st = (Throw (io_error socket), st).
Proof. intros H. unfold send. by rewrite H. Qed.

Lemma sendKeyUpdate_ok key oldData newData socket st :
  writable socket = true →
  sendKeyUpdate writable key oldData newData socket st
  = (Ok tt, emits (notification key oldData newData socket) st).
Proof.
  intros H. unfold sendKeyUpdate, bind.
  rewrite !send_ok by done. by rewrite !emits_emits.
Qed.

Lemma for_each_sendKeyUpdate key oldData newData watching st :
  all_writable writable watching →
  for_each watching (sendKeyUpdate writable key oldData newData) st
  = (Ok tt, emits (notifications key oldData newData watching) st).
Proof.
  revert st. induction watching as [|s l IH]; intros st Hw.
  - by rewrite emits_nil.
  - apply all_writable_cons in Hw as [Hs Hl].
    cbn [for_each]. unfold bind at 1. rewrite sendKeyUpdate_ok by done.
    rewrite IH by done. by rewrite emits_emits.
Qed.

Lemma sendKeyUpdatesToClients_ok key oldData newData st :
  all_writable writable (bucket (watchedSockets_ st) key) →
  sendKeyUpdatesToClients writable key oldData newData st
  = (Ok tt,
     emits (notifications key oldData newData (bucket (watchedSockets_ st) key))
       (set_watchedSockets
          (λ m, <[key := bucket (watchedSockets_ st) key]> m) st)).
Proof.
  intros Hw. unfold sendKeyUpdatesToClients, bind, gets, modify.
  by rewrite for_each_sendKeyUpdate.
Qed.

End HandlerFacts.

Section WakeFacts.

Variable writable : Z → bool.

Lemma wake_loop_ok waiting st :
  all_writable writable waiting →
  for_each waiting (λ socket,
    n <- decrement_awaited socket ;;;
    if n =? 0 then send writable socket (PWait STOP_WAITING) else ret tt) st
  = (Ok tt,
     emits (wake waiting (keysAwaited_ st)).2
       (set_keysAwaited (λ _, (wake waiting (keysAwaited_ st)).1) st)).
Proof.
  revert st. induction waiting as [|s l IH]; intros st Hw.
  - simpl. rewrite emits_nil. by destruct st.
  - apply all_writable_cons in Hw as [Hs Hl].
    cbn [for_each wake]. unfold bind at 1. unfold bind at 1.
    unfold decrement_awaited at 1.
    set (n := wrap_size (default 0 (keysAwaited_ st !! s) - 1)).
    assert (Hstep : (if n =? 0 then send writable s (PWait STOP_WAITING)
                     else ret tt)
                      (set_keysAwaited (λ m, <[s:=n]> m) st)
                    = (Ok tt, emits (if n =? 0 then [Sent s (PWait STOP_WAITING)]
                                     else [])
                                (set_keysAwaited (λ m, <[s:=n]> m) st))).
    { destruct (n =? 0); [by apply send_ok | by rewrite emits_nil]. }
    rewrite Hstep, IH by done. cbn [keysAwaited_ emits set_keysAwaited].
    destruct (wake l (<[s:=n]> (keysAwaited_ st))) as [m es] eqn:E.
    cbn [fst snd]. unfold emits, set_keysAwaited; simpl.
    by rewrite app_assoc.
Qed.

Lemma wakeupWaitingClients_ok key st :
  all_writable writable (waiting_on key st) →
  wakeupWaitingClients writable key st = (Ok tt, woken key st).
Proof.
  unfold waiting_on, bucket, woken, wakeupWaitingClients, bind, gets.
  destruct (waitingSockets_ st !! key) as [l|] eqn:E; [|done].
  simpl. intros Hw. rewrite wake_loop_ok by done. unfold modify.
  f_equal.
Qed.

End WakeFacts.

(** ** COMPARE_SET *)

Section CompareSet.

Variable writable : Z → bool.

Lemma compareSetHandler_absent socket key e d st :
  tcpStore_ st !! key = None →
  writable socket = true →
  compareSetHandler writable socket key e d st
  = (Ok tt, emits [Sent socket (PVector e)] st).
Proof.
  intros Hk Hs. unfold compareSetHandler, bind, gets. rewrite Hk.
  by apply send_ok.
Qed.

Lemma compareSetHandler_differs socket key e d v st :
  tcpStore_ st !! key = Some v → v ≠ e →
  writable socket = true →
  compareSetHandler writable socket key e d st
  = (Ok tt, emits [Sent socket (PVector v)] st).
Proof.
  intros Hk Hne Hs. unfold compareSetHandler, bind, gets. rewrite Hk.
  rewrite bool_decide_eq_false_2 by done. by apply send_ok.
Qed.

Lemma compareSetHandler_matches socket key e d st :
  tcpStore_ st !! key = Some e →
  writable socket = true →
  all_writable writable (bucket (watchedSockets_ st) key) →
  compareSetHandler writable socket key e d st
  = (Ok tt,
     emits (notifications key e d (bucket (watchedSockets_ st) key)
              ++ [Sent socket (PVector d)])
       (set_watchedSockets (λ m, <[key := bucket (watchedSockets_ st) key]> m)
          (set_tcpStore (λ m, <[key := d]> m) st))).
Proof.
  intros Hk Hs Hw. unfold compareSetHandler, bind, gets. rewrite Hk.
  rewrite bool_decide_eq_true_2 by done. unfold modify.
  rewrite sendKeyUpdatesToClients_ok by done.
  rewrite send_ok by done. by rewrite emits_emits.
Qed.

End CompareSet.

(** C1.  Compare-set fixed point.  On a socket that takes the reply, and
    with watchers of [k] that take their notifications, COMPARE_SET(k, e, d)
    returns normally and its last write is the reply.  When [k] is absent
    the reply is [e] and [k] is still absent; when [k] holds [v ≠ e] the
    reply is [v] and [k] still holds [v]; when [k] holds [e] the reply is
    [d] and [k] holds [d]. *)
Theorem compareSet_fixed_point (writable : Z → bool) (socket : Z)
    (k : string) (e d : list byte) (st : daemon) :
  writable socket = true →
  all_writable writable (bucket (watchedSockets_ st) k) →
  ∃ st' reply pushed,
    compareSetHandler writable socket k e d st = (Ok tt, st') ∧
    trace st' = trace st ++ pushed ++ [Sent socket (PVector reply)] ∧
    (tcpStore_ st !! k = None →
       reply = e ∧ pushed = [] ∧ tcpStore_ st' = tcpStore_ st ∧
       tcpStore_ st' !! k = None) ∧
    (∀ v, tcpStore_ st !! k = Some v → v ≠ e →
       reply = v ∧ pushed = [] ∧ tcpStore_ st' = tcpStore_ st ∧
       tcpStore_ st' !! k = Some v) ∧
    (tcpStore_ st !! k = Some e →
       reply = d ∧
       pushed = notifications k e d (bucket (watchedSockets_ st) k) ∧
       tcpStore_ st' = <[k := d]> (tcpStore_ st) ∧
       tcpStore_ st' !! k = Some d).
Proof.
  intros Hs Hw. destruct (tcpStore_ st !! k) as [v|] eqn:Hk.
  - destruct (decide (v = e)) as [->|Hv].
    + eexists _, d, _. split.
      { by apply compareSetHandler_matches. }
      simpl. split; [done|]. split; [done|]. split; [congruence|].
      intros _. by rewrite lookup_insert_eq.
    + eexists _, v, []. split.
      { by eapply compareSetHandler_differs. }
      simpl. split; [done|]. split; [done|]. split; [|congruence].
      intros v' [= <-] _. by rewrite Hk.
  - eexists _, e, []. split.
    { by apply compareSetHandler_absent. }
    simpl. rewrite Hk. split; [done|]. split; [done|]. split; [|done].
    intros v' [=].
Qed.

Lemma compareSet_fixed_point_witness :
  let st := Daemon {["/k" := [x01]]} ∅ ∅ {["/k" := [9]]} [7; 9] [] in
  (λ _ : Z, true) 7 = true ∧
  all_writable (λ _, true) (bucket (watchedSockets_ st) "/k") ∧
  ∃ st' reply pushed,
    compareSetHandler (λ _, true) 7 "/k" [x01] [x02] st = (Ok tt, st') ∧
    trace st' = trace st ++ pushed ++ [Sent 7 (PVector reply)] ∧
    (tcpStore_ st !! "/k" = None →
       reply = [x01] ∧ pushed = [] ∧ tcpStore_ st' = tcpStore_ st ∧
       tcpStore_ st' !! "/k" = None) ∧
    (∀ v, tcpStore_ st !! "/k" = Some v → v ≠ [x01] →
       reply = v ∧ pushed = [] ∧ tcpStore_ st' = tcpStore_ st ∧
       tcpStore_ st' !! "/k" = Some v) ∧
    (tcpStore_ st !! "/k" = Some [x01] →
       reply = [x02] ∧
       pushed = notifications "/k" [x01] [x02]
                  (bucket (watchedSockets_ st) "/k") ∧
       tcpStore_ st' = <["/k" := [x02]]> (tcpStore_ st) ∧
       tcpStore_ st' !! "/k" = Some [x02]).
Proof.
  intros st. split; [reflexivity|]. split; [intros ? ?; reflexivity|].
  apply (compareSet_fixed_point (λ _, true) 7 "/k" [x01] [x02] st);
    [reflexivity | intros ? ?; reflexivity].
Defined.

(** ** What a client reads back *)

Lemma sent_to_app socket tr1 tr2 :
  sent_to socket (tr1 ++ tr2) = sent_to socket tr1 ++ sent_to socket tr2.
Proof. unfold sent_to. apply omap_app. Qed.

Lemma sent_to_self socket p : sent_to socket [Sent socket p] = [p].
Proof. unfold sent_to. simpl. by rewrite bool_decide_eq_true_2. Qed.

Lemma sent_to_closed socket s : sent_to socket [Closed s] = [].
Proof. reflexivity. Qed.

Lemma trace_scrub fd st : trace (scrub fd st) = trace st.
Proof. reflexivity. Qed.

Lemma tcpStore_scrub fd st : tcpStore_ (scrub fd st) = tcpStore_ st.
Proof. reflexivity. Qed.

(** The packets a request brings back, from the trace it appended. *)
Lemma exchange_reply writable socket r st st' threw es :
  dispatch writable socket (Request r) st = (threw, st') →
  trace st' = trace st ++ es →
  exchange writable socket r st = (sent_to socket es, st').
Proof.
  intros Hd Ht. unfold exchange. rewrite Hd. simpl. f_equal.
  rewrite Ht, sent_to_app. by rewrite drop_app_length.
Qed.

(** ** DELETE_KEY *)

Lemma deleteHandler_ok writable socket key st :
  writable socket = true →
  deleteHandler writable socket key st
  = (Ok tt,
     set_watchedSockets (delete key)
       (emits [Sent socket (PInt64 (match tcpStore_ st !! key with
                                    | Some _ => 1
                                    | None => 0
                                    end))]
          (set_tcpStore (delete key) st))).
Proof.
  intros Hs. unfold deleteHandler, bind, gets, modify.
  by rewrite send_ok.
Qed.

(** ** Frame rules of the monad *)

Section Frame.

Context {X : Type} (f : daemon → X).

Lemma preserves_ret {A} (a : A) : preserves f (ret a).
Proof. intros st r st' [= <- <-]. done. Qed.

Lemma preserves_throw {A} e : preserves f (@throw A e).
Proof. intros st r st' [= <- <-]. done. Qed.

Lemma preserves_lift {A} (x : result A) : preserves f (lift x).
Proof. intros st r st' [= <- <-]. done. Qed.

Lemma preserves_gets {A} (g : daemon → A) : preserves f (gets g).
Proof. intros st r st' [= <- <-]. done. Qed.

Lemma preserves_modify g : (∀ st, f (g st) = f st) → preserves f (modify g).
Proof. intros Hg st r st' [= <- <-]. apply Hg. Qed.

Lemma preserves_bind {A B} (m : M A) (k : A → M B) :
  preserves f m → (∀ a, preserves f (k a)) → preserves f (bind m k).
Proof.
  intros Hm Hk st r st'. unfold bind.
  destruct (m st) as [[a|e] st1] eqn:E.
  - intros H. rewrite (Hk _ _ _ _ H). eapply Hm, E.
  - intros [= <- <-]. eapply Hm, E.
Qed.

Lemma preserves_for_each {A} (l : list A) body :
  (∀ x, preserves f (body x)) → preserves f (for_each l body).
Proof.
  intros Hb. induction l as [|x l IH]; simpl.
  - apply preserves_ret.
  - apply preserves_bind; [apply Hb | intros _; apply IH].
Qed.

Lemma preserves_send writable socket p :
  (∀ e st, f (emit e st) = f st) → preserves f (send writable socket p).
Proof.
  intros He st r st'. unfold send.
  destruct (writable socket); intros [= <- <-]; [apply He | done].
Qed.

Lemma preserves_if {A} (b : bool) (m1 m2 : M A) :
  preserves f m1 → preserves f m2 → preserves f (if b then m1 else m2).
Proof. by destruct b. Qed.

End Frame.

Lemma bind_Ok_inv {A B} (m : M A) (k : A → M B) st b st' :
  bind m k st = (Ok b, st') →
  ∃ a st1, m st = (Ok a, st1) ∧ k a st1 = (Ok b, st').
Proof.
  unfold bind. destruct (m st) as [[a|e] st1]; [eauto | intros [=]].
Qed.

Ltac frame :=
  repeat first
    [ apply preserves_ret | apply preserves_throw | apply preserves_lift
    | apply preserves_gets
    | apply preserves_modify; intros; reflexivity
    | apply preserves_send; intros; reflexivity
    | apply preserves_for_each; intros
    | apply preserves_if
    | apply preserves_bind; [|intros]
    | match goal with |- preserves _ (match ?x with _ => _ end) =>
        destruct x end ].

Section Frames.

Variable writable : Z → bool.

Lemma sendKeyUpdate_frame {X} (f : daemon → X) key o n s :
  (∀ e st, f (emit e st) = f st) →
  preserves f (sendKeyUpdate writable key o n s).
Proof. intros He. unfold sendKeyUpdate. repeat (apply preserves_bind; [|intros]);
  by apply preserves_send. Qed.

Lemma decrement_awaited_frame {X} (f : daemon → X) s :
  (∀ g st, f (set_keysAwaited g st) = f st) →
  preserves f (decrement_awaited s).
Proof. intros Hg st r st'. unfold decrement_awaited. intros [= <- <-]. apply Hg. Qed.

Lemma wakeupWaitingClients_tcpStore key :
  preserves tcpStore_ (wakeupWaitingClients writable key).
Proof. unfold wakeupWaitingClients. frame. by apply decrement_awaited_frame. Qed.

Lemma wakeupWaitingClients_watchedSockets key :
  preserves watchedSockets_ (wakeupWaitingClients writable key).
Proof. unfold wakeupWaitingClients. frame. by apply decrement_awaited_frame. Qed.

Lemma sendKeyUpdatesToClients_tcpStore key o n :
  preserves tcpStore_ (sendKeyUpdatesToClients writable key o n).
Proof. unfold sendKeyUpdatesToClients. frame. Qed.

Lemma sendKeyUpdatesToClients_waitingSockets key o n :
  preserves waitingSockets_ (sendKeyUpdatesToClients writable key o n).
Proof. unfold sendKeyUpdatesToClients. frame. Qed.

Lemma sendKeyUpdatesToClients_keysAwaited key o n :
  preserves keysAwaited_ (sendKeyUpdatesToClients writable key o n).
Proof. unfold sendKeyUpdatesToClients. frame. Qed.

(** Once [sendKeyUpdatesToClients(key, ..)] has been entered, [key] has a
    bucket in [watchedSockets_], however the sends go. *)
Lemma sendKeyUpdatesToClients_bucket key o n st r st' :
  sendKeyUpdatesToClients writable key o n st = (r, st') →
  watchedSockets_ st'
  = <[key := bucket (watchedSockets_ st) key]> (watchedSockets_ st).
Proof.
  unfold sendKeyUpdatesToClients, bind, gets, modify. intros H.
  assert (P : preserves watchedSockets_
                (for_each (bucket (watchedSockets_ st) key)
                   (sendKeyUpdate writable key o n))).
  { apply preserves_for_each. intros. by apply sendKeyUpdate_frame. }
  by rewrite (P _ _ _ H).
Qed.

(** SET stores the value before anything can throw. *)
Lemma setHandler_tcpStore socket key data st r st' :
  setHandler writable socket key data st = (r, st') →
  tcpStore_ st' = <[key := data]> (tcpStore_ st).
Proof.
  unfold setHandler. unfold bind at 1. unfold gets. unfold bind at 1.
  unfold modify at 1. intros H.
  assert (P : preserves tcpStore_
    (wakeupWaitingClients writable key ;;;
     sendKeyUpdatesToClients writable key (default [] (tcpStore_ st !! key))
       data)).
  { apply preserves_bind; [apply wakeupWaitingClients_tcpStore|].
    intros. apply sendKeyUpdatesToClients_tcpStore. }
  by rewrite (P _ _ _ H).
Qed.

End Frames.

Lemma dispatch_Ok writable socket inc st st' :
  query writable socket inc st = (Ok tt, st') →
  dispatch writable socket inc st = (false, st').
Proof. intros H. unfold dispatch. by rewrite H. Qed.

Lemma dispatch_Throw writable socket inc st e st' :
  query writable socket inc st = (Throw e, st') →
  dispatch writable socket inc st = (true, scrub socket (closeSocket socket st')).
Proof. intros H. unfold dispatch. by rewrite H. Qed.

(** ** WAIT *)

(** C10.  A WAIT that carries no key: [checkKeys] holds of the empty list,
    so the handler writes STOP_WAITING at once (on a socket that takes it)
    and returns; and whether the write goes through or not, the wait lists,
    the remaining-counts and the store are what they were. *)
Theorem wait_without_keys (writable : Z → bool) (socket : Z) (st : daemon) :
  checkKeys [] st = true ∧
  (writable socket = true →
     waitHandler writable socket [] st
     = (Ok tt, emits [Sent socket (PWait STOP_WAITING)] st)) ∧
  (∀ r st', waitHandler writable socket [] st = (r, st') →
     waitingSockets_ st' = waitingSockets_ st ∧
     keysAwaited_ st' = keysAwaited_ st ∧
     tcpStore_ st' = tcpStore_ st ∧
     watchedSockets_ st' = watchedSockets_ st).
Proof.
  split; [reflexivity|]. split.
  - intros Hs. unfold waitHandler, bind, gets. simpl. by apply send_ok.
  - intros r st'. unfold waitHandler, bind, gets. simpl. unfold send.
    destruct (writable socket); intros [= <- <-]; done.
Qed.

Lemma wait_without_keys_witness :
  let st := Daemon {["/k" := [x2a]]} {["/a" := [4]]} {[4 := 1]} ∅ [4; 7] [] in
  (λ _ : Z, true) 7 = true ∧
  waitHandler (λ _, true) 7 [] st
  = (Ok tt, emits [Sent 7 (PWait STOP_WAITING)] st).
Proof.
  intros st. split; [reflexivity|].
  apply (wait_without_keys (λ _, true) 7 st). reflexivity.
Defined.

(** ** The bucket SET and ADD leave in the watch overlay *)

Section WatchBucket.

Variable writable : Z → bool.

Lemma setHandler_bucket socket key data st st' :
  setHandler writable socket key data st = (Ok tt, st') →
  watchedSockets_ st' !! key = Some (default [] (watchedSockets_ st !! key)).
Proof.
  unfold setHandler. intros H.
  apply bind_Ok_inv in H as (old & s1 & H1 & H).
  apply bind_Ok_inv in H as ([] & s2 & H2 & H).
  apply bind_Ok_inv in H as ([] & s3 & H3 & H).
  injection H1 as <- <-. injection H2 as <-.
  apply wakeupWaitingClients_watchedSockets in H3.
  apply sendKeyUpdatesToClients_bucket in H.
  rewrite H, lookup_insert_eq. unfold bucket. by rewrite H3.
Qed.

Lemma addHandler_bucket socket key addVal st st' :
  addHandler writable socket key addVal st = (Ok tt, st') →
  watchedSockets_ st' !! key = Some (default [] (watchedSockets_ st !! key)).
Proof.
  unfold addHandler. intros H.
  apply bind_Ok_inv in H as (found & s1 & H1 & H).
  injection H1 as <- <-.
  apply bind_Ok_inv in H as ([oldData sum] & s2 & H2 & H).
  assert (W2 : watchedSockets_ s2 = watchedSockets_ st).
  { match type of H2 with ?m _ = _ =>
      assert (P : preserves watchedSockets_ m) by frame end.
    by apply P in H2. }
  apply bind_Ok_inv in H as ([] & s3 & H3 & H). injection H3 as <-.
  apply bind_Ok_inv in H as ([] & s4 & H4 & H).
  apply (preserves_send watchedSockets_) in H4; [|done].
  apply bind_Ok_inv in H as ([] & s5 & H5 & H).
  apply wakeupWaitingClients_watchedSockets in H5.
  apply sendKeyUpdatesToClients_bucket in H.
  rewrite H, lookup_insert_eq. unfold bucket. rewrite H5, H4. simpl.
  by rewrite W2.
Qed.

End WatchBucket.

(** C9.  A SET or an ADD on [k] that the handler carries through leaves a
    bucket for [k] in [watchedSockets_]: the list that was there, and the
    empty list when there was none ([operator[]] in
    [sendKeyUpdatesToClients]).  So the keys of the watch overlay are not
    only the keys somebody watches. *)
Theorem mutation_leaves_watch_bucket (writable : Z → bool) (socket : Z)
    (k : string) (st st' : daemon) :
  (∀ v, setHandler writable socket k v st = (Ok tt, st') →
     watchedSockets_ st' !! k = Some (default [] (watchedSockets_ st !! k))) ∧
  (∀ delta, addHandler writable socket k delta st = (Ok tt, st') →
     watchedSockets_ st' !! k = Some (default [] (watchedSockets_ st !! k))).
Proof.
  split; intros x H.
  - by eapply setHandler_bucket.
  - by eapply addHandler_bucket.
Qed.

Lemma mutation_leaves_watch_bucket_witness :
  let st1 := (setHandler (λ _, true) 7 "/k" [x01] fresh).2 in
  let st2 := (addHandler (λ _, true) 7 "/n" 5 fresh).2 in
  (setHandler (λ _, true) 7 "/k" [x01] fresh = (Ok tt, st1) ∧
   watchedSockets_ fresh !! "/k" = None ∧
   watchedSockets_ st1 !! "/k" = Some []) ∧
  (addHandler (λ _, true) 7 "/n" 5 fresh = (Ok tt, st2) ∧
   watchedSockets_ fresh !! "/n" = None ∧
   watchedSockets_ st2 !! "/n" = Some []).
Proof.
  intros st1 st2. split.
  - split; [reflexivity|]. split; [reflexivity|].
    apply (proj1 (mutation_leaves_watch_bucket (λ _, true) 7 "/k" fresh st1)
             [x01]).
    reflexivity.
  - split; [reflexivity|]. split; [reflexivity|].
    apply (proj2 (mutation_leaves_watch_bucket (λ _, true) 7 "/n" fresh st2) 5).
    reflexivity.
Defined.

(** ** SET and ADD, when every send goes through *)

Section Mutations.

Variable writable : Z → bool.

Lemma woken_watchedSockets key st :
  watchedSockets_ (woken key st) = watchedSockets_ st.
Proof. unfold woken. by destruct (waitingSockets_ st !! key). Qed.

Lemma woken_tcpStore key st : tcpStore_ (woken key st) = tcpStore_ st.
Proof. unfold woken. by destruct (waitingSockets_ st !! key). Qed.

Lemma woken_trace key st :
  trace (woken key st)
  = trace st ++ (wake (waiting_on key st) (keysAwaited_ st)).2.
Proof.
  unfold woken, waiting_on, bucket.
  destruct (waitingSockets_ st !! key); simpl; [done | by rewrite app_nil_r].
Qed.

Lemma setHandler_ok socket key data st :
  all_writable writable (waiting_on key st) →
  all_writable writable (bucket (watchedSockets_ st) key) →
  setHandler writable socket key data st
  = (Ok tt,
     emits (notifications key (old_value st key) data
              (bucket (watchedSockets_ st) key))
       (set_watchedSockets (λ m, <[key := bucket (watchedSockets_ st) key]> m)
          (woken key (set_tcpStore (λ m, <[key := data]> m) st)))).
Proof.
  intros Hwait Hwatch. unfold setHandler, bind, gets, modify.
  rewrite wakeupWaitingClients_ok by done.
  rewrite sendKeyUpdatesToClients_ok; rewrite woken_watchedSockets; done.
Qed.

Lemma addHandler_ok socket key addVal total st :
  add_total st key addVal = Ok total →
  writable socket = true →
  all_writable writable (waiting_on key st) →
  all_writable writable (bucket (watchedSockets_ st) key) →
  addHandler writable socket key addVal st
  = (Ok tt,
     emits (notifications key (old_value st key)
              (list_byte_of_string (to_string total))
              (bucket (watchedSockets_ st) key))
       (set_watchedSockets (λ m, <[key := bucket (watchedSockets_ st) key]> m)
          (woken key
             (emits [Sent socket (PInt64 total)]
                (set_tcpStore
                   (λ m, <[key := list_byte_of_string (to_string total)]> m)
                   st))))).
Proof.
  intros Htot Hs Hwait Hwatch. unfold add_total in Htot.
  unfold addHandler, old_value. unfold bind at 1. unfold gets at 1.
  unfold bind at 1.
  destruct (tcpStore_ st !! key) as [stored|] eqn:Hk.
  - unfold bind at 1, lift.
    destruct (stoll (string_of_list_byte stored)) as [parsed|e]; [|done].
    injection Htot as <-. unfold ret, bind, modify.
    rewrite send_ok by done.
    rewrite wakeupWaitingClients_ok by done.
    rewrite sendKeyUpdatesToClients_ok; rewrite woken_watchedSockets; done.
  - injection Htot as <-. unfold ret, bind, modify.
    rewrite send_ok by done.
    rewrite wakeupWaitingClients_ok by done.
    rewrite sendKeyUpdatesToClients_ok; rewrite woken_watchedSockets; done.
Qed.

(** ADD throws before it stores or sends anything when [std::stoll]
    throws. *)
Lemma addHandler_throws socket key addVal e st :
  add_total st key addVal = Throw e →
  addHandler writable socket key addVal st = (Throw e, st).
Proof.
  unfold add_total, addHandler. unfold bind at 1. unfold gets at 1.
  unfold bind at 1.
  destruct (tcpStore_ st !! key) as [stored|]; [|done].
  unfold bind at 1, lift.
  destruct (stoll (string_of_list_byte stored)); [done|]. by intros [= ->].
Qed.

End Mutations.

(** ** What the wake-ups write *)

Lemma key_updates_app tr1 tr2 :
  key_updates (tr1 ++ tr2) = key_updates tr1 ++ key_updates tr2.
Proof. apply omap_app. Qed.

Lemma key_updates_wake waiting awaited :
  key_updates (wake waiting awaited).2 = [].
Proof.
  revert awaited. induction waiting as [|s l IH]; intros m; [done|].
  cbn [wake]. specialize (IH (<[s:=wrap_size (default 0 (m !! s) - 1)]> m)).
  destruct (wake l _) as [m' es]. cbn [snd] in *.
  rewrite key_updates_app, IH. by destruct (_ =? 0).
Qed.

Lemma key_updates_notifications key o n watching :
  key_updates (notifications key o n watching) = watching.
Proof.
  induction watching as [|s l IH]; [done|].
  unfold notifications in *. cbn [map concat]. rewrite key_updates_app, IH.
  done.
Qed.

(** ** The trace only grows *)

Section Extends.

Lemma extends_preserves {A} (m : M A) : preserves trace m → extends m.
Proof. intros P st r st' H. by rewrite (P _ _ _ H). Qed.

Lemma extends_bind {A B} (m : M A) (k : A → M B) :
  extends m → (∀ a, extends (k a)) → extends (bind m k).
Proof.
  intros Hm Hk st r st'. unfold bind.
  destruct (m st) as [[a|e] st1] eqn:E.
  - intros H. etrans; [eapply Hm, E | eapply Hk, H].
  - intros [= <- <-]. eapply Hm, E.
Qed.

Lemma extends_for_each {A} (l : list A) body :
  (∀ x, extends (body x)) → extends (for_each l body).
Proof.
  intros Hb. induction l as [|x l IH]; simpl.
  - apply extends_preserves, preserves_ret.
  - apply extends_bind; [apply Hb | intros _; apply IH].
Qed.

Lemma extends_send writable socket p : extends (send writable socket p).
Proof.
  intros st r st'. unfold send.
  destruct (writable socket); intros [= <- <-]; [|done].
  by apply prefix_app_r.
Qed.

Lemma extends_if {A} (b : bool) (m1 m2 : M A) :
  extends m1 → extends m2 → extends (if b then m1 else m2).
Proof. by destruct b. Qed.

End Extends.

Ltac grows_step :=
  first
    [ apply extends_send
    | apply extends_preserves; solve [frame]
    | apply extends_for_each; intros
    | apply extends_if
    | apply extends_bind; [|intros]
    | match goal with |- extends (match ?x with _ => _ end) =>
        destruct x end
    | match goal with |- extends (let '(_, _) := ?x in _) =>
        destruct x end ].

Ltac grows := repeat grows_step.

Section Grows.

Variable writable : Z → bool.

Lemma wakeupWaitingClients_extends key :
  extends (wakeupWaitingClients writable key).
Proof.
  unfold wakeupWaitingClients. grows.
  apply extends_preserves. by apply decrement_awaited_frame.
Qed.

Lemma sendKeyUpdatesToClients_extends key o n :
  extends (sendKeyUpdatesToClients writable key o n).
Proof. unfold sendKeyUpdatesToClients. grows. Qed.

Lemma await_keys_frame {X} (f : daemon → X) socket keys n :
  (∀ g st, f (set_waitingSockets g st) = f st) →
  preserves f (await_keys socket keys n).
Proof.
  intros Hg. revert n. induction keys as [|key keys IH]; intros n; simpl.
  - apply preserves_ret.
  - apply preserves_bind; [apply preserves_gets|]. intros [v|]; [apply IH|].
    apply preserves_bind; [by apply preserves_modify | intros; apply IH].
Qed.

Lemma query_extends socket inc : extends (query writable socket inc).
Proof.
  destruct inc as [[]| |]; cbn [query];
    try (apply extends_preserves; apply preserves_throw);
    [ unfold setHandler | unfold compareSetHandler | unfold getHandler
    | unfold addHandler | unfold checkHandler | unfold waitHandler
    | unfold getNumKeysHandler | unfold watchHandler | unfold deleteHandler ];
    repeat first
      [ apply wakeupWaitingClients_extends
      | apply sendKeyUpdatesToClients_extends
      | apply extends_preserves; by apply await_keys_frame
      | grows_step ].
Qed.

Lemma dispatch_extends socket inc st :
  trace st `prefix_of` trace (dispatch writable socket inc st).2.
Proof.
  unfold dispatch.
  destruct (query writable socket inc st) as [[[]|e] st'] eqn:E; cbn [snd].
  - eapply query_extends, E.
  - rewrite trace_scrub. etrans; [eapply query_extends, E|].
    by apply prefix_app_r.
Qed.

Lemma handle_all_extends reqs st :
  trace st `prefix_of` trace (handle_all writable reqs st).
Proof.
  revert st. induction reqs as [|[s inc] reqs IH]; intros st; [done|].
  cbn [handle_all]. etrans; [apply dispatch_extends | apply IH].
Qed.

End Grows.

(** ** WATCH_KEY and the notifications *)

Lemma watchHandler_ok socket key st :
  watchHandler socket key st
  = (Ok tt, set_watchedSockets (push_back key socket) st).
Proof. reflexivity. Qed.

Lemma bucket_push_back key socket m :
  bucket (push_back key socket m) key = bucket m key ++ [socket].
Proof. unfold bucket at 1, push_back. by rewrite lookup_insert_eq. Qed.

Lemma bucket_insert_same key (m : gmap string (list Z)) :
  bucket (<[key := bucket m key]> m) key = bucket m key.
Proof. unfold bucket at 1. by rewrite lookup_insert_eq. Qed.

(** C2.  Watch delivery.  WATCH_KEY(k) from a socket appends one entry for
    it to the watcher list of [k].  Let [watching] be that list in some
    state, and let every send go through.  Then a SET on [k], a COMPARE_SET
    on [k] whose expected value is the stored one, and an ADD on [k] each
    append to the trace, for every entry of [watching] in list order, one
    KEY_UPDATED notification carrying [k], the old value and the new value,
    and nothing else that bears a KEY_UPDATED tag, and they leave the list
    as it is; a COMPARE_SET that does not match and a DELETE_KEY append
    their reply only, and the DELETE_KEY drops the list.  The trace only
    grows, so notifications stay in the order of the mutations. *)
Theorem watch_delivery (writable : Z → bool) (socket : Z) (k : string)
    (st : daemon) :
  let watching := bucket (watchedSockets_ st) k in
  writable socket = true →
  all_writable writable (waiting_on k st) →
  all_writable writable watching →
  (∀ s, ∃ st', watchHandler s k st = (Ok tt, st') ∧
      bucket (watchedSockets_ st') k = watching ++ [s] ∧
      trace st' = trace st) ∧
  (∀ v, ∃ st' woke, setHandler writable socket k v st = (Ok tt, st') ∧
      trace st'
      = trace st ++ woke ++ notifications k (old_value st k) v watching ∧
      key_updates woke = [] ∧
      bucket (watchedSockets_ st') k = watching) ∧
  (∀ e d, tcpStore_ st !! k = Some e →
      ∃ st', compareSetHandler writable socket k e d st = (Ok tt, st') ∧
        trace st'
        = trace st ++ notifications k e d watching
            ++ [Sent socket (PVector d)] ∧
        bucket (watchedSockets_ st') k = watching) ∧
  (∀ delta total, add_total st k delta = Ok total →
      ∃ st' woke, addHandler writable socket k delta st = (Ok tt, st') ∧
        trace st'
        = trace st ++ [Sent socket (PInt64 total)] ++ woke
            ++ notifications k (old_value st k)
                 (list_byte_of_string (to_string total)) watching ∧
        key_updates woke = [] ∧
        bucket (watchedSockets_ st') k = watching) ∧
  (∀ e d, tcpStore_ st !! k ≠ Some e →
      ∃ st' reply, compareSetHandler writable socket k e d st = (Ok tt, st') ∧
        trace st' = trace st ++ [Sent socket (PVector reply)] ∧
        watchedSockets_ st' = watchedSockets_ st) ∧
  (∃ st' numDeleted, deleteHandler writable socket k st = (Ok tt, st') ∧
      trace st' = trace st ++ [Sent socket (PInt64 numDeleted)] ∧
      bucket (watchedSockets_ st') k = []) ∧
  (∀ reqs, trace st `prefix_of` trace (handle_all writable reqs st)).
Proof.
  intros watching Hs Hwait Hwatch.
  split; [|split; [|split; [|split; [|split; [|split]]]]].
  - intros s. eexists. split; [apply watchHandler_ok|]. split; [|done].
    cbn [watchedSockets_ set_watchedSockets]. apply bucket_push_back.
  - intros v.
    pose proof (setHandler_ok writable socket k v st Hwait Hwatch) as H.
    eexists _, (wake (waiting_on k st) (keysAwaited_ st)).2.
    split; [exact H|].
    cbn [trace emits set_watchedSockets watchedSockets_].
    rewrite woken_trace, woken_watchedSockets. cbn [trace set_tcpStore].
    split; [symmetry; apply app_assoc|]. split; [apply key_updates_wake|].
    apply bucket_insert_same.
  - intros e d He.
    pose proof (compareSetHandler_matches writable socket k e d st He Hs Hwatch)
      as H.
    eexists. split; [exact H|].
    cbn [trace emits set_watchedSockets watchedSockets_ set_tcpStore].
    split; [reflexivity|]. apply bucket_insert_same.
  - intros delta total Ht.
    pose proof (addHandler_ok writable socket k delta total st Ht Hs Hwait
                  Hwatch) as H.
    eexists _, (wake (waiting_on k st) (keysAwaited_ st)).2.
    split; [exact H|].
    cbn [trace emits set_watchedSockets watchedSockets_].
    rewrite woken_trace, woken_watchedSockets.
    cbn [trace emits set_tcpStore].
    split.
    { rewrite <- (app_assoc (trace st ++ _)). symmetry. apply app_assoc. }
    split; [apply key_updates_wake|].
    apply bucket_insert_same.
  - intros e d Hne. destruct (tcpStore_ st !! k) as [v|] eqn:Hk.
    + assert (Hv : v ≠ e) by congruence.
      pose proof (compareSetHandler_differs writable socket k e d v st Hk Hv Hs)
        as H.
      eexists _, v. split; [exact H|]. split; reflexivity.
    + pose proof (compareSetHandler_absent writable socket k e d st Hk Hs) as H.
      eexists _, e. split; [exact H|]. split; reflexivity.
  - pose proof (deleteHandler_ok writable socket k st Hs) as H.
    eexists _, _. split; [exact H|]. split; [reflexivity|].
    cbn [watchedSockets_ set_watchedSockets]. unfold bucket.
    by rewrite lookup_delete_eq.
  - intros reqs. apply handle_all_extends.
Qed.

Lemma watch_delivery_witness :
  let st := Daemon {["/k" := [x01]]} {["/k" := [4]]} {[4 := 1]}
              {["/k" := [9; 11; 9]]} [4; 7; 9; 11] [] in
  all_up 7 = true ∧
  all_writable all_up (waiting_on "/k" st) ∧
  all_writable all_up (bucket (watchedSockets_ st) "/k") ∧
  ∃ st' woke, setHandler all_up 7 "/k" [x02] st = (Ok tt, st') ∧
    trace st'
    = trace st ++ woke
        ++ notifications "/k" (old_value st "/k") [x02] [9; 11; 9] ∧
    key_updates woke = [] ∧
    bucket (watchedSockets_ st') "/k" = [9; 11; 9].
Proof.
  intros st. split; [reflexivity|]. split; [intros ? ?; reflexivity|].
  split; [intros ? ?; reflexivity|].
  apply (watch_delivery all_up 7 "/k" st);
    [reflexivity | intros ? ?; reflexivity | intros ? ?; reflexivity].
Defined.

(** Scenario S4: a watcher on socket 9, then two SETs from socket 7. *)
Example watch_then_set :
  trace (handle_all all_up
           [(9, Request (RWatchKey "/k"));
            (7, Request (RSet "/k" [x01]));
            (7, Request (RSet "/k" [x02]))] fresh)
  = notification "/k" [] [x01] 9 ++ notification "/k" [x01] [x02] 9.
Proof. reflexivity. Qed.

(** ** The order of one pass of the event loop *)

Lemma lxor_eqb_0 a b : (Z.lxor a b =? 0) = bool_decide (a = b).
Proof.
  destruct (decide (a = b)) as [->|Hne].
  - rewrite Z.lxor_nilpotent. by rewrite bool_decide_eq_true_2.
  - rewrite bool_decide_eq_false_2 by done. apply Z.eqb_neq.
    intros H. by apply Z.lxor_eq in H.
Qed.

Lemma queryFds_from_extends w todo fdIdx fds st :
  trace st `prefix_of` trace (queryFds_from w todo fdIdx fds st).2.
Proof.
  revert fdIdx fds st. induction todo as [|p todo IH]; intros i fds st; [done|].
  cbn [queryFds_from]. destruct (revents p =? 0); [apply IH|].
  pose proof (dispatch_extends (w_writable w) (fd p) (w_inbox w (fd p)) st) as H.
  destruct (dispatch _ _ _ st) as [[] st']; cbn [snd] in H.
  - etrans; [exact H|]. etrans; [|apply IH]. done.
  - etrans; [exact H | apply IH].
Qed.

Lemma queryFds_extends w fds st :
  trace st `prefix_of` trace (queryFds w fds st).2.
Proof. apply queryFds_from_extends. Qed.

(** C6, as the loop is written.  After [poll] returns, a pass looks at the
    listening socket first: any event on it other than exactly POLLIN
    aborts the loop, and POLLIN accepts one connection.  Only then does it
    look at the control pipe: exactly POLLHUP finishes the loop, with the
    connection just accepted already registered and nothing dispatched; any
    other event aborts.  Only when the pipe is silent are the ready sockets
    dispatched, after the accept. *)
Theorem run_pass_order (w : world) (storeListenSocket : Z)
    (fds : list pollfd) (st : daemon) :
  let polled := poll w (clear_revents (length (sockets_ st)) fds) in
  let ready := revents_at polled 0 in
  let fds1 := (after_accept w polled st).1 in
  let st1 := (after_accept w polled st).2 in
  let stop := revents_at fds1 1 in
  (ready ≠ 0 → ready ≠ POLLIN →
     run_pass w storeListenSocket fds st
     = (Aborted (system_error ready), polled, st)) ∧
  (ready = 0 ∨ ready = POLLIN →
     (stop = POLLHUP →
        run_pass w storeListenSocket fds st = (Finished, fds1, st1)) ∧
     (stop ≠ 0 → stop ≠ POLLHUP →
        run_pass w storeListenSocket fds st
        = (Aborted (system_error stop), fds1, st1)) ∧
     (stop = 0 →
        run_pass w storeListenSocket fds st
        = (Continue, (queryFds w fds1 st1).1, (queryFds w fds1 st1).2) ∧
        trace st1 `prefix_of` trace (queryFds w fds1 st1).2)) ∧
  (ready = POLLIN →
     st1 = set_sockets (λ l, l ++ [w_accept w]) (emit (Accepted (w_accept w)) st)
     ∧ trace st1 = trace st ++ [Accepted (w_accept w)]) ∧
  (ready = 0 → st1 = st).
Proof.
  intros polled ready fds1 st1 stop.
  assert (Hrun : run_pass w storeListenSocket fds st
    = match (if ready =? 0 then Ok (polled, st)
             else if bool_decide (ready = POLLIN) then
               Ok (addPollfd polled (w_accept w) POLLIN,
                   set_sockets (λ l, l ++ [w_accept w])
                     (emit (Accepted (w_accept w)) st))
             else Throw (system_error ready)) with
      | Throw e => (Aborted e, polled, st)
      | Ok (fds', st') =>
          if revents_at fds' 1 =? 0 then
            let '(fds'', st'') := queryFds w fds' st' in (Continue, fds'', st'')
          else if bool_decide (revents_at fds' 1 = POLLHUP) then
            (Finished, fds', st')
          else (Aborted (system_error (revents_at fds' 1)), fds', st')
      end).
  { unfold run_pass. fold polled. fold ready. rewrite !lxor_eqb_0.
    destruct (ready =? 0); [by rewrite lxor_eqb_0|].
    destruct (bool_decide (ready = POLLIN)); [by rewrite lxor_eqb_0|done]. }
  assert (Hacc : ready = 0 ∨ ready = POLLIN →
    (if ready =? 0 then Ok (polled, st)
     else if bool_decide (ready = POLLIN) then
       Ok (addPollfd polled (w_accept w) POLLIN,
           set_sockets (λ l, l ++ [w_accept w])
             (emit (Accepted (w_accept w)) st))
     else Throw (system_error ready)) = Ok (fds1, st1)).
  { unfold fds1, st1, after_accept. fold ready. intros [H|H].
    - rewrite H. done.
    - rewrite H. done. }
  split; [|split; [|split]].
  - intros H0 Hin. rewrite Hrun.
    apply Z.eqb_neq in H0. rewrite H0.
    by rewrite bool_decide_eq_false_2.
  - intros Hr. rewrite Hrun, (Hacc Hr). fold stop. split; [|split].
    + intros ->. done.
    + intros H0 Hh. apply Z.eqb_neq in H0. rewrite H0.
      by rewrite bool_decide_eq_false_2.
    + intros ->. simpl. split; [by destruct (queryFds w fds1 st1)|].
      apply queryFds_extends.
  - intros H. unfold st1, after_accept. fold ready. rewrite H. done.
  - intros H. unfold st1, after_accept. fold ready. rewrite H. done.
Qed.

Lemma run_pass_order_witness :
  let polled := poll both_ready (clear_revents 0 fds_at_start) in
  (revents_at polled 0 = 0 ∨ revents_at polled 0 = POLLIN) ∧
  revents_at (after_accept both_ready polled fresh).1 1 = POLLHUP ∧
  run_pass both_ready 3 fds_at_start fresh
  = (Finished, (after_accept both_ready polled fresh).1,
     (after_accept both_ready polled fresh).2).
Proof.
  intros polled.
  assert (Hr : revents_at polled 0 = 0 ∨ revents_at polled 0 = POLLIN)
    by (right; reflexivity).
  split; [exact Hr|]. split; [reflexivity|].
  apply (proj1 (proj1 (proj2 (run_pass_order both_ready 3 fds_at_start fresh))
                  Hr)).
  reflexivity.
Defined.

(** With a connection pending and the pipe closed in the same pass, the
    loop accepts the connection before it finishes; a loop that looked at
    the shutdown signal first would finish without accepting. *)
Lemma shutdown_is_checked_after_accept :
  (run_pass both_ready 3 fds_at_start fresh).1.1 = Finished ∧
  trace (run_pass both_ready 3 fds_at_start fresh).2 = [Accepted 8] ∧
  sockets_ (run_pass both_ready 3 fds_at_start fresh).2 = [8] ∧
  (run_pass_shutdown_first both_ready 3 fds_at_start fresh).1.1 = Finished ∧
  trace (run_pass_shutdown_first both_ready 3 fds_at_start fresh).2 = [] ∧
  run_pass both_ready 3 fds_at_start fresh
  ≠ run_pass_shutdown_first both_ready 3 fds_at_start fresh.
Proof.
  repeat (split; [reflexivity|]).
  intros H. apply (f_equal (λ r, trace r.2)) in H. discriminate H.
Qed.

(** ** Scrubbing a dead socket *)

Lemma scrub_lists_lookup fd m key :
  scrub_lists fd m !! key
  = m !! key ≫= λ l, let l' := filter (λ s, s ≠ fd) l in
                     if bool_decide (l' = []) then None else Some l'.
Proof. unfold scrub_lists. apply lookup_omap. Qed.

Lemma scrub_lists_clean fd m key l :
  scrub_lists fd m !! key = Some l → (fd ∉ l) ∧ l ≠ [].
Proof.
  rewrite scrub_lists_lookup. destruct (m !! key) as [l0|]; [|done]. simpl.
  case_bool_decide as Hnil; [done|]. intros [= <-]. split; [|done].
  rewrite list_elem_of_filter. by intros [? _].
Qed.

Lemma bucket_scrub_lists fd m key :
  bucket (scrub_lists fd m) key = filter (λ s, s ≠ fd) (bucket m key).
Proof.
  unfold bucket. rewrite scrub_lists_lookup.
  destruct (m !! key) as [l0|]; [|done]. simpl.
  case_bool_decide as Hnil; by rewrite ?Hnil.
Qed.

Lemma filter_unreferenced (fd : Z) (l : list Z) :
  fd ∉ l → filter (λ s, s ≠ fd) l = l.
Proof.
  induction l as [|x l IH]; [done|]. intros H.
  apply not_elem_of_cons in H as [Hx Hl].
  rewrite filter_cons_True by done. by rewrite IH.
Qed.

Lemma filter_app_self (fd : Z) (l : list Z) :
  fd ∉ l → filter (λ s, s ≠ fd) (l ++ [fd]) = l.
Proof.
  intros H. rewrite filter_app, filter_unreferenced by done.
  rewrite filter_cons_False by (intros ?; done). by rewrite app_nil_r.
Qed.

(** What the catch block leaves of a state, whatever the state. *)
Lemma scrub_spec fd st :
  (∀ key l, waitingSockets_ (scrub fd st) !! key = Some l → (fd ∉ l) ∧ l ≠ []) ∧
  keysAwaited_ (scrub fd st) !! fd = None ∧
  (∀ key l, watchedSockets_ (scrub fd st) !! key = Some l → (fd ∉ l) ∧ l ≠ []) ∧
  (∀ key, bucket (waitingSockets_ (scrub fd st)) key
          = filter (λ s, s ≠ fd) (bucket (waitingSockets_ st) key)) ∧
  (∀ key, bucket (watchedSockets_ (scrub fd st)) key
          = filter (λ s, s ≠ fd) (bucket (watchedSockets_ st) key)) ∧
  (∀ s, s ≠ fd → keysAwaited_ (scrub fd st) !! s = keysAwaited_ st !! s) ∧
  tcpStore_ (scrub fd st) = tcpStore_ st.
Proof.
  unfold scrub. cbn.
  split; [intros key l; apply scrub_lists_clean|].
  split; [apply lookup_delete_eq|].
  split; [intros key l; apply scrub_lists_clean|].
  split; [intros key; apply bucket_scrub_lists|].
  split; [intros key; apply bucket_scrub_lists|].
  split; [|done]. intros s Hs. by apply lookup_delete_ne.
Qed.

(** ** States no handler can tell apart *)

Lemma alike_refl a : alike a a.
Proof. by repeat split. Qed.

Lemma alike_sym a b : alike a b → alike b a.
Proof.
  intros (H1 & H2 & H3 & H4). split; [done|]. split; [done|].
  split; intros k; symmetry; [apply H3 | apply H4].
Qed.

Lemma alike_emit e a b : alike a b → alike (emit e a) (emit e b).
Proof. by intros (H1 & H2 & H3 & H4). Qed.

Lemma alike_set_tcpStore f a b :
  alike a b → alike (set_tcpStore f a) (set_tcpStore f b).
Proof. intros (H1 & H2 & H3 & H4). split; [|done]. simpl. by rewrite H1. Qed.

Lemma alike_set_keysAwaited f a b :
  alike a b → alike (set_keysAwaited f a) (set_keysAwaited f b).
Proof.
  intros (H1 & H2 & H3 & H4). split; [done|]. split; [|done].
  simpl. by rewrite H2.
Qed.

Lemma alike_set_waitingSockets g a b :
  (∀ m1 m2, same_buckets m1 m2 → same_buckets (g m1) (g m2)) →
  alike a b → alike (set_waitingSockets g a) (set_waitingSockets g b).
Proof. intros Hg (H1 & H2 & H3 & H4). repeat split; try done. by apply Hg. Qed.

Lemma alike_set_watchedSockets g a b :
  (∀ m1 m2, same_buckets m1 m2 → same_buckets (g m1) (g m2)) →
  alike a b → alike (set_watchedSockets g a) (set_watchedSockets g b).
Proof. intros Hg (H1 & H2 & H3 & H4). repeat split; try done. by apply Hg. Qed.

Lemma bucket_insert key v (m : gmap string (list Z)) k :
  bucket (<[key := v]> m) k = if decide (key = k) then v else bucket m k.
Proof. unfold bucket. rewrite lookup_insert. by case_decide. Qed.

Lemma bucket_delete key (m : gmap string (list Z)) k :
  bucket (delete key m) k = if decide (key = k) then [] else bucket m k.
Proof. unfold bucket. rewrite lookup_delete. by case_decide. Qed.

Lemma same_buckets_insert key v m1 m2 :
  same_buckets m1 m2 → same_buckets (<[key := v]> m1) (<[key := v]> m2).
Proof. intros H k. rewrite !bucket_insert. case_decide; [done | apply H]. Qed.

Lemma same_buckets_delete key m1 m2 :
  same_buckets m1 m2 → same_buckets (delete key m1) (delete key m2).
Proof. intros H k. rewrite !bucket_delete. case_decide; [done | apply H]. Qed.

Lemma same_buckets_push_back key s m1 m2 :
  same_buckets m1 m2 → same_buckets (push_back key s m1) (push_back key s m2).
Proof.
  intros H k. unfold push_back. rewrite !bucket_insert.
  case_decide; [by rewrite H | apply H].
Qed.

Lemma same_buckets_scrub_lists fd m1 m2 :
  same_buckets m1 m2 → same_buckets (scrub_lists fd m1) (scrub_lists fd m2).
Proof. intros H k. rewrite !bucket_scrub_lists. by rewrite H. Qed.

Lemma alike_scrub fd a b : alike a b → alike (scrub fd a) (scrub fd b).
Proof.
  intros H. unfold scrub. apply alike_set_keysAwaited.
  apply alike_set_watchedSockets; [apply same_buckets_scrub_lists|].
  by apply alike_set_waitingSockets; [apply same_buckets_scrub_lists|].
Qed.

Section Blind.

Lemma blind_ret {A} (x : A) : blind (ret x).
Proof. intros a b H. exists (Ok x), a, b, []. by rewrite !app_nil_r. Qed.

Lemma blind_throw {A} e : blind (@throw A e).
Proof. intros a b H. exists (Throw e), a, b, []. by rewrite !app_nil_r. Qed.

Lemma blind_lift {A} (x : result A) : blind (lift x).
Proof. intros a b H. exists x, a, b, []. by rewrite !app_nil_r. Qed.

Lemma blind_gets {A} (f : daemon → A) :
  (∀ a b, alike a b → f a = f b) → blind (gets f).
Proof.
  intros Hf a b H. exists (Ok (f a)), a, b, []. unfold gets.
  rewrite (Hf a b H), !app_nil_r. done.
Qed.

Lemma blind_modify g :
  (∀ a b, alike a b → alike (g a) (g b)) → (∀ a, trace (g a) = trace a) →
  blind (modify g).
Proof.
  intros Hg Ht a b H. exists (Ok tt), (g a), (g b), [].
  rewrite !Ht, !app_nil_r. split; [done|]. split; [done|]. auto.
Qed.

Lemma blind_bind {A B} (m : M A) (k : A → M B) :
  blind m → (∀ x, blind (k x)) → blind (bind m k).
Proof.
  intros Hm Hk a b H. unfold bind.
  destruct (Hm a b H) as (r & a1 & b1 & t1 & Ea & Eb & H1 & Ta & Tb).
  rewrite Ea, Eb. destruct r as [x|e].
  - destruct (Hk x a1 b1 H1) as (r & a2 & b2 & t2 & Ea2 & Eb2 & H2 & Ta2 & Tb2).
    exists r, a2, b2, (t1 ++ t2). rewrite Ta2, Tb2, Ta, Tb, <- !app_assoc. done.
  - by exists (Throw e), a1, b1, t1.
Qed.

Lemma blind_for_each {A} (l : list A) body :
  (∀ x, blind (body x)) → blind (for_each l body).
Proof.
  intros Hb. induction l as [|x l IH]; simpl.
  - apply blind_ret.
  - apply blind_bind; [apply Hb | intros _; apply IH].
Qed.

Lemma blind_send writable socket p : blind (send writable socket p).
Proof.
  intros a b H. unfold send. destruct (writable socket).
  - exists (Ok tt), (emit (Sent socket p) a), (emit (Sent socket p) b),
      [Sent socket p].
    split; [done|]. split; [done|]. split; [by apply alike_emit | done].
  - exists (Throw (io_error socket)), a, b, []. by rewrite !app_nil_r.
Qed.

Lemma blind_if {A} (c : bool) (m1 m2 : M A) :
  blind m1 → blind m2 → blind (if c then m1 else m2).
Proof. by destruct c. Qed.

Lemma blind_decrement_awaited socket : blind (decrement_awaited socket).
Proof.
  intros a b H. unfold decrement_awaited.
  pose proof H as (H1 & H2 & H3 & H4). rewrite H2.
  eexists _, _, _, []. split; [done|]. split; [done|].
  rewrite !app_nil_r. split; [|done]. by apply alike_set_keysAwaited.
Qed.

Variable writable : Z → bool.

(** [find] tells a missing wait list from an empty one, the loop and the
    erase that follow do not. *)
Lemma blind_wakeupWaitingClients key :
  blind (wakeupWaitingClients writable key).
Proof.
  set (body := λ socket : Z,
         n <- decrement_awaited socket ;;;
         if n =? 0 then send writable socket (PWait STOP_WAITING) else ret tt).
  assert (Hloop : ∀ l, blind (for_each l body ;;;
                               modify (set_waitingSockets (delete key)))).
  { intros l. apply blind_bind.
    - apply blind_for_each. intros s. apply blind_bind.
      + apply blind_decrement_awaited.
      + intros n. apply blind_if; [apply blind_send | apply blind_ret].
    - intros _. apply blind_modify; [|done]. intros a b.
      apply alike_set_waitingSockets, same_buckets_delete. }
  assert (Hun : ∀ st, wakeupWaitingClients writable key st
            = match waitingSockets_ st !! key with
              | Some l => (for_each l body ;;;
                           modify (set_waitingSockets (delete key))) st
              | None => (Ok tt, st)
              end).
  { intros st. unfold wakeupWaitingClients. unfold bind at 1. unfold gets.
    by destruct (waitingSockets_ st !! key). }
  intros a b H. pose proof H as (H1 & H2 & H3 & H4).
  pose proof (H3 key) as Hk. unfold bucket in Hk. rewrite !Hun.
  destruct (waitingSockets_ a !! key) as [la|] eqn:Ea;
    destruct (waitingSockets_ b !! key) as [lb|] eqn:Eb; simpl in Hk.
  - subst lb. apply (Hloop la a b H).
  - subst la. exists (Ok tt), (set_waitingSockets (delete key) a), b, [].
    rewrite !app_nil_r. split; [done|]. split; [done|]. split; [|done].
    split; [done|]. split; [done|]. split; [|done].
    intros k. simpl. rewrite bucket_delete. case_decide as Hd; [|apply H3].
    subst k. unfold bucket. by rewrite Eb.
  - subst lb. exists (Ok tt), a, (set_waitingSockets (delete key) b), [].
    rewrite !app_nil_r. split; [done|]. split; [done|]. split; [|done].
    split; [done|]. split; [done|]. split; [|done].
    intros k. simpl. rewrite bucket_delete. case_decide as Hd; [|apply H3].
    subst k. unfold bucket. by rewrite Ea.
  - exists (Ok tt), a, b, []. by rewrite !app_nil_r.
Qed.

Lemma blind_sendKeyUpdatesToClients key o n :
  blind (sendKeyUpdatesToClients writable key o n).
Proof.
  unfold sendKeyUpdatesToClients. apply blind_bind.
  - apply blind_gets. intros a b (_ & _ & _ & H). apply H.
  - intros watching. apply blind_bind.
    + apply blind_modify; [|done]. intros a b.
      apply alike_set_watchedSockets, same_buckets_insert.
    + intros _. apply blind_for_each. intros s. unfold sendKeyUpdate.
      repeat (apply blind_bind; [apply blind_send | intros _]).
      apply blind_send.
Qed.

Lemma blind_await_keys socket keys n : blind (await_keys socket keys n).
Proof.
  revert n. induction keys as [|key keys IH]; intros n; simpl.
  - apply blind_ret.
  - apply blind_bind.
    + apply blind_gets. by intros a b (-> & _).
    + intros [v|]; [apply IH|]. apply blind_bind; [|intros _; apply IH].
      apply blind_modify; [|done]. intros a b.
      apply alike_set_waitingSockets, same_buckets_push_back.
Qed.

Lemma checkKeys_alike keys a b : alike a b → checkKeys keys a = checkKeys keys b.
Proof. intros (H & _). unfold checkKeys. by rewrite H. Qed.

Lemma blind_query socket inc : blind (query writable socket inc).
Proof.
  destruct inc as [[]| |]; cbn [query]; try apply blind_throw.
  - unfold setHandler.
    apply blind_bind; [apply blind_gets; by intros a b (-> & _)|]. intros o.
    apply blind_bind;
      [apply blind_modify; [intros a b; apply alike_set_tcpStore | done]|].
    intros _. apply blind_bind; [apply blind_wakeupWaitingClients|].
    intros _. apply blind_sendKeyUpdatesToClients.
  - unfold compareSetHandler.
    apply blind_bind; [apply blind_gets; by intros a b (-> & _)|].
    intros [stored|]; [|apply blind_send].
    apply blind_if; [|apply blind_send].
    apply blind_bind;
      [apply blind_modify; [intros a b; apply alike_set_tcpStore | done]|].
    intros _. apply blind_bind; [apply blind_sendKeyUpdatesToClients|].
    intros _. apply blind_send.
  - unfold getHandler.
    apply blind_bind; [apply blind_gets; by intros a b (-> & _)|].
    intros [v|]; [apply blind_send | apply blind_throw].
  - unfold addHandler.
    apply blind_bind; [apply blind_gets; by intros a b (-> & _)|].
    intros found. apply blind_bind.
    { destruct found; [|apply blind_ret].
      apply blind_bind; [apply blind_lift | intros; apply blind_ret]. }
    intros [o total].
    apply blind_bind;
      [apply blind_modify; [intros a b; apply alike_set_tcpStore | done]|].
    intros _. apply blind_bind; [apply blind_send|].
    intros _. apply blind_bind; [apply blind_wakeupWaitingClients|].
    intros _. apply blind_sendKeyUpdatesToClients.
  - unfold checkHandler.
    apply blind_bind; [apply blind_gets, checkKeys_alike|].
    intros c. apply blind_if; apply blind_send.
  - unfold waitHandler.
    apply blind_bind; [apply blind_gets, checkKeys_alike|].
    intros c. apply blind_if; [apply blind_send|].
    apply blind_bind; [apply blind_await_keys|]. intros n.
    apply blind_modify; [intros a b; apply alike_set_keysAwaited | done].
  - unfold getNumKeysHandler.
    apply blind_bind; [apply blind_gets; by intros a b (-> & _)|].
    intros n. apply blind_send.
  - unfold watchHandler. apply blind_modify; [|done]. intros a b.
    apply alike_set_watchedSockets, same_buckets_push_back.
  - unfold deleteHandler.
    apply blind_bind; [apply blind_gets; by intros a b (-> & _)|].
    intros n. apply blind_bind;
      [apply blind_modify; [intros a b; apply alike_set_tcpStore | done]|].
    intros _. apply blind_bind; [apply blind_send|]. intros _.
    apply blind_modify; [|done]. intros a b.
    apply alike_set_watchedSockets, same_buckets_delete.
Qed.

Lemma dispatch_alike socket inc a b :
  alike a b →
  ∃ t, (dispatch writable socket inc a).1 = (dispatch writable socket inc b).1 ∧
       alike (dispatch writable socket inc a).2
             (dispatch writable socket inc b).2 ∧
       trace (dispatch writable socket inc a).2 = trace a ++ t ∧
       trace (dispatch writable socket inc b).2 = trace b ++ t.
Proof.
  intros H. unfold dispatch.
  destruct (blind_query socket inc a b H)
    as (r & a' & b' & t & Ea & Eb & H' & Ta & Tb).
  rewrite Ea, Eb. destruct r as [[]|e]; cbn [fst snd].
  - by exists t.
  - exists (t ++ [Closed socket]). split; [done|].
    split; [by apply alike_scrub, alike_emit|].
    rewrite !trace_scrub. simpl. by rewrite Ta, Tb, <- !app_assoc.
Qed.

Lemma handle_all_alike reqs a b :
  alike a b →
  ∃ t, alike (handle_all writable reqs a) (handle_all writable reqs b) ∧
       trace (handle_all writable reqs a) = trace a ++ t ∧
       trace (handle_all writable reqs b) = trace b ++ t.
Proof.
  revert a b. induction reqs as [|[s inc] reqs IH]; intros a b H.
  - exists []. by rewrite !app_nil_r.
  - cbn [handle_all].
    destruct (dispatch_alike s inc a b H) as (t1 & _ & H1 & Ta & Tb).
    destruct (IH _ _ H1) as (t2 & H2 & Ta2 & Tb2).
    exists (t1 ++ t2). rewrite Ta2, Tb2, Ta, Tb, <- !app_assoc. done.
Qed.

End Blind.

(** ** A socket that dies while it waits *)

Section DeadWaiter.

Variable writable : Z → bool.

Lemma await_keys_others socket keys n st r st' :
  await_keys socket keys n st = (r, st') →
  ∀ key, filter (λ s, s ≠ socket) (bucket (waitingSockets_ st') key)
         = filter (λ s, s ≠ socket) (bucket (waitingSockets_ st) key).
Proof.
  revert n st. induction keys as [|k keys IH]; intros n st; simpl.
  - by intros [= <- <-].
  - unfold bind at 1. unfold gets at 1.
    destruct (tcpStore_ st !! k); [apply IH|].
    unfold bind at 1. unfold modify at 1. intros H key.
    rewrite (IH _ _ H key). cbn [waitingSockets_ set_waitingSockets].
    unfold push_back. rewrite bucket_insert. case_decide as Hk; [|done].
    subst key. rewrite filter_app, filter_cons_False by (intros ?; done).
    by rewrite filter_nil, app_nil_r.
Qed.

Lemma waitHandler_others socket keys st r st' :
  waitHandler writable socket keys st = (r, st') →
  tcpStore_ st' = tcpStore_ st ∧
  watchedSockets_ st' = watchedSockets_ st ∧
  delete socket (keysAwaited_ st') = delete socket (keysAwaited_ st) ∧
  ∀ key, filter (λ s, s ≠ socket) (bucket (waitingSockets_ st') key)
         = filter (λ s, s ≠ socket) (bucket (waitingSockets_ st) key).
Proof.
  unfold waitHandler. unfold bind at 1. unfold gets at 1.
  destruct (checkKeys keys st).
  - unfold send. destruct (writable socket); intros [= <- <-]; done.
  - unfold bind at 1.
    destruct (await_keys socket keys 0 st) as [[n|e] st1] eqn:E.
    + unfold modify. intros [= <- <-].
      cbn [tcpStore_ watchedSockets_ keysAwaited_ waitingSockets_
           set_keysAwaited].
      pose proof (await_keys_frame tcpStore_ socket keys 0
                    (λ _ _, eq_refl) _ _ _ E) as ->.
      pose proof (await_keys_frame watchedSockets_ socket keys 0
                    (λ _ _, eq_refl) _ _ _ E) as ->.
      pose proof (await_keys_frame keysAwaited_ socket keys 0
                    (λ _ _, eq_refl) _ _ _ E) as ->.
      split; [done|]. split; [done|]. split; [apply delete_insert_eq|].
      apply (await_keys_others _ _ _ _ _ _ E).
    + intros [= <- <-].
      pose proof (await_keys_frame tcpStore_ socket keys 0
                    (λ _ _, eq_refl) _ _ _ E) as ->.
      pose proof (await_keys_frame watchedSockets_ socket keys 0
                    (λ _ _, eq_refl) _ _ _ E) as ->.
      pose proof (await_keys_frame keysAwaited_ socket keys 0
                    (λ _ _, eq_refl) _ _ _ E) as ->.
      split; [done|]. split; [done|]. split; [done|].
      apply (await_keys_others _ _ _ _ _ _ E).
Qed.

Lemma bucket_unreferenced socket (m : gmap string (list Z)) key :
  (∀ k l, m !! k = Some l → socket ∉ l) →
  filter (λ s, s ≠ socket) (bucket m key) = bucket m key.
Proof.
  intros H. apply filter_unreferenced. unfold bucket.
  destruct (m !! key) as [l|] eqn:E; simpl; [by eapply H | by intros ?%elem_of_nil].
Qed.

(** A socket nothing referred to sends a WAIT and then dies: the scrubbed
    state is one no handler can tell from the state before the WAIT. *)
Lemma scrub_after_wait socket keys st0 r st :
  unreferenced socket st0 →
  waitHandler writable socket keys st0 = (r, st) →
  alike (scrub socket (closeSocket socket st)) st0.
Proof.
  intros (Hw & Hk & Hv) H.
  apply waitHandler_others in H as (Hs & Hwatch & Hcount & Hlists).
  unfold scrub, closeSocket. split; [done|]. split; [|split].
  - cbn. rewrite Hcount. by apply delete_id.
  - intros key.
    cbn [waitingSockets_ set_keysAwaited set_watchedSockets
         set_waitingSockets emit].
    rewrite bucket_scrub_lists, Hlists. by apply bucket_unreferenced.
  - intros key.
    cbn [watchedSockets_ set_keysAwaited set_watchedSockets
         set_waitingSockets emit].
    rewrite bucket_scrub_lists, Hwatch. by apply bucket_unreferenced.
Qed.

End DeadWaiter.

(** C7.  Socket-death scrubbing.  When the handler of a socket throws, the
    catch block closes that socket and leaves no trace of it in the
    overlays: it is in no wait list and no watch list, it has no
    remaining-count, and no list is left empty; the entries of all other
    sockets stay as the handler left them; and the loop erases the
    descriptor from [fds] and [sockets_].  If the socket was one nothing
    referred to before it sent its WAIT, and it dies on its next read, the
    state after the scrub is one no handler can tell from the state before
    the WAIT: any later sequence of requests, the same WAIT from a new
    client among them, is answered with the same writes from both. *)
Theorem socket_death_scrubbing (writable : Z → bool) (socket : Z)
    (inc : incoming) (st st1 : daemon) (e : exn) :
  query writable socket inc st = (Throw e, st1) →
  let st' := (dispatch writable socket inc st).2 in
  (dispatch writable socket inc st).1 = true ∧
  trace st' = trace st1 ++ [Closed socket] ∧
  (∀ key l, waitingSockets_ st' !! key = Some l → (socket ∉ l) ∧ l ≠ []) ∧
  keysAwaited_ st' !! socket = None ∧
  (∀ key l, watchedSockets_ st' !! key = Some l → (socket ∉ l) ∧ l ≠ []) ∧
  (∀ key, bucket (waitingSockets_ st') key
          = filter (λ s, s ≠ socket) (bucket (waitingSockets_ st1) key)) ∧
  (∀ key, bucket (watchedSockets_ st') key
          = filter (λ s, s ≠ socket) (bucket (watchedSockets_ st1) key)) ∧
  (∀ s, s ≠ socket → keysAwaited_ st' !! s = keysAwaited_ st1 !! s) ∧
  tcpStore_ st' = tcpStore_ st1 ∧
  (∀ w p todo fdIdx fds,
     w_writable w = writable → w_inbox w socket = inc →
     fd p = socket → revents p ≠ 0 →
     queryFds_from w (p :: todo) fdIdx fds st
     = queryFds_from w todo fdIdx (delete fdIdx fds)
         (set_sockets (delete (fdIdx - CONNECT_SOCKET_OFFSET)%nat) st')) ∧
  (∀ st0 keys r0,
     unreferenced socket st0 →
     waitHandler writable socket keys st0 = (r0, st) →
     st1 = st →
     alike st' st0 ∧
     ∀ w reqs, ∃ t,
       trace (handle_all w reqs st') = trace st' ++ t ∧
       trace (handle_all w reqs st0) = trace st0 ++ t ∧
       alike (handle_all w reqs st') (handle_all w reqs st0)).
Proof.
  intros Hq st'.
  assert (Hd : dispatch writable socket inc st
               = (true, scrub socket (closeSocket socket st1)))
    by (by eapply dispatch_Throw).
  assert (Hst : st' = scrub socket (closeSocket socket st1))
    by (unfold st'; by rewrite Hd).
  destruct (scrub_spec socket (closeSocket socket st1))
    as (S1 & S2 & S3 & S4 & S5 & S6 & S7).
  rewrite Hst, Hd. cbn [fst].
  split; [done|]. split; [done|]. split; [exact S1|]. split; [exact S2|].
  split; [exact S3|]. split; [exact S4|]. split; [exact S5|].
  split; [exact S6|]. split; [exact S7|]. split.
  - intros w p todo i fds Hw Hi Hp Hr. cbn [queryFds_from].
    apply Z.eqb_neq in Hr. rewrite Hr, Hp, Hw, Hi, Hd. done.
  - intros st0 keys r0 Hun Hwait ->.
    pose proof (scrub_after_wait writable socket keys st0 r0 st Hun Hwait) as Ha.
    split; [exact Ha|]. intros w reqs.
    destruct (handle_all_alike w reqs _ _ Ha) as (t & H1 & H2 & H3).
    by exists t.
Qed.

Lemma socket_death_scrubbing_witness :
  let st0 := Daemon {["/a" := [x01]]} ∅ ∅ {["/a" := []]} [4; 7] [] in
  let st := (waitHandler all_up 7 ["/a"; "/b"] st0).2 in
  let st' := (dispatch all_up 7 RecvFailed st).2 in
  query all_up 7 RecvFailed st = (Throw (io_error 7), st) ∧
  unreferenced 7 st0 ∧
  waitHandler all_up 7 ["/a"; "/b"] st0 = (Ok tt, st) ∧
  waitingSockets_ st !! "/b" = Some [7] ∧
  keysAwaited_ st !! 7 = Some 1 ∧
  waitingSockets_ st' !! "/b" = None ∧
  keysAwaited_ st' !! 7 = None ∧
  alike st' st0.
Proof.
  intros st0 st st'.
  assert (Hq : query all_up 7 RecvFailed st = (Throw (io_error 7), st))
    by reflexivity.
  assert (Hun : unreferenced 7 st0).
  { split; [|split]; [|done|]; intros key l H; unfold st0 in H;
      cbn [waitingSockets_ watchedSockets_] in H.
    - by rewrite lookup_empty in H.
    - apply lookup_singleton_Some in H as [_ <-]. by intros ?%elem_of_nil. }
  assert (Hw : waitHandler all_up 7 ["/a"; "/b"] st0 = (Ok tt, st))
    by reflexivity.
  split; [exact Hq|]. split; [exact Hun|]. split; [exact Hw|].
  split; [reflexivity|]. split; [reflexivity|]. split; [reflexivity|].
  pose proof (socket_death_scrubbing all_up 7 RecvFailed st st (io_error 7) Hq)
    as (_ & _ & _ & Hk & _ & _ & _ & _ & _ & _ & Hlater).
  split; [exact Hk|].
  exact (proj1 (Hlater st0 ["/a"; "/b"] (Ok tt) Hun Hw eq_refl)).
Defined.

(** ** [std::stoll] reads what [std::to_string] writes *)

Lemma digit_cases d : 0 <= d <= 9 →
  d = 0 ∨ d = 1 ∨ d = 2 ∨ d = 3 ∨ d = 4 ∨ d = 5 ∨ d = 6 ∨ d = 7 ∨ d = 8 ∨ d = 9.
Proof. lia. Qed.

Lemma digit_value_digit_char d :
  0 <= d <= 9 → digit_value (digit_char d) = Some d.
Proof.
  intros H. destruct (digit_cases d H) as [->|[->|[->|[->|[->|[->|[->|[->|[->| ->]]]]]]]]];
    reflexivity.
Qed.

Lemma digit_char_plain d :
  0 <= d <= 9 →
  is_space (digit_char d) = false ∧ digit_char d ≠ "-"%char ∧
  digit_char d ≠ "+"%char.
Proof.
  intros H. destruct (digit_cases d H) as [->|[->|[->|[->|[->|[->|[->|[->|[->| ->]]]]]]]]];
    (split; [reflexivity|split; discriminate]).
Qed.

Lemma mod10_digit n : 0 <= n mod 10 <= 9.
Proof. pose proof (Z.mod_pos_bound n 10 ltac:(lia)). lia. Qed.

Lemma digits_fuel_S fuel n acc :
  digits_fuel (S fuel) n acc
  = if n / 10 =? 0 then String (digit_char (n mod 10)) acc
    else digits_fuel fuel (n / 10) (String (digit_char (n mod 10)) acc).
Proof. reflexivity. Qed.

Lemma digits_fuel_head fuel n acc :
  0 <= n →
  ∃ d rest, 0 <= d <= 9 ∧ digits_fuel (S fuel) n acc = String (digit_char d) rest.
Proof.
  revert n acc. induction fuel as [|fuel IH]; intros n acc Hn.
  - exists (n mod 10), acc. split; [apply mod10_digit|].
    simpl. by destruct (n / 10 =? 0).
  - rewrite digits_fuel_S. destruct (n / 10 =? 0) eqn:E.
    + exists (n mod 10), acc. split; [apply mod10_digit | done].
    + apply IH. apply Z.div_pos; lia.
Qed.

Lemma read_digits_digits_fuel fuel n rest a seen :
  0 <= n < 10 ^ Z.of_nat (S fuel) →
  ∃ k, 0 < k ∧ n < 10 ^ k ∧
    read_digits (digits_fuel (S fuel) n rest) a seen
    = read_digits rest (a * 10 ^ k + n) true.
Proof.
  revert n rest a seen. induction fuel as [|fuel IH]; intros n rest a seen Hn.
  - assert (n / 10 = 0) as Hq by (apply Z.div_small; lia).
    exists 1. split; [lia|]. split; [lia|].
    rewrite digits_fuel_S, Hq. cbn [Z.eqb read_digits].
    rewrite Z.mod_small by lia. rewrite digit_value_digit_char by lia.
    f_equal; lia.
  - rewrite digits_fuel_S. destruct (n / 10 =? 0) eqn:E.
    + apply Z.eqb_eq in E.
      assert (n < 10) by (apply Z.div_small_iff in E; lia).
      exists 1. split; [lia|]. split; [lia|]. cbn [read_digits].
      rewrite Z.mod_small by lia. rewrite digit_value_digit_char by lia.
      f_equal; lia.
    + apply Z.eqb_neq in E.
      assert (Hq : 0 <= n / 10 < 10 ^ Z.of_nat (S fuel)).
      { split; [apply Z.div_pos; lia|].
        apply Z.div_lt_upper_bound; [lia|].
        replace (Z.of_nat (S (S fuel))) with (Z.succ (Z.of_nat (S fuel)))
          in Hn by lia.
        rewrite Z.pow_succ_r in Hn by lia. lia. }
      destruct (IH (n / 10) (String (digit_char (n mod 10)) rest) a seen Hq)
        as (k & Hk & Hlt & Hr).
      exists (k + 1). split; [lia|]. split.
      * rewrite Z.pow_add_r by lia. change (10 ^ 1) with 10.
        pose proof (Z.div_mod n 10 ltac:(lia)).
        pose proof (Z.mod_pos_bound n 10 ltac:(lia)). lia.
      * rewrite Hr. cbn [read_digits].
        rewrite digit_value_digit_char by apply mod10_digit.
        f_equal. rewrite Z.pow_add_r by lia. change (10 ^ 1) with 10.
        pose proof (Z.div_mod n 10 ltac:(lia)). lia.
Qed.

Lemma read_digits_digits n :
  0 <= n < 10 ^ 20 → read_digits (digits n) 0 false = (n, true).
Proof.
  intros H. unfold digits.
  destruct (read_digits_digits_fuel 19 n EmptyString 0 false) as (k & _ & _ & ->).
  - exact H.
  - done.
Qed.

Lemma stoll_minus s :
  stoll (String "-" s)
  = let '(n, seen) := read_digits s 0 false in
    if seen then
      if (INT64_MIN <=? - n) && (- n <=? INT64_MAX) then Ok (- n)
      else Throw out_of_range
    else Throw invalid_argument.
Proof. reflexivity. Qed.

(** [stoll(to_string(z)) == z] for every [long long]. *)
Theorem stoll_to_string z : in_int64 z → stoll (to_string z) = Ok z.
Proof.
  unfold in_int64, INT64_MIN, INT64_MAX. intros Hz.
  unfold to_string. destruct (z <? 0) eqn:Hneg.
  - apply Z.ltb_lt in Hneg. rewrite stoll_minus.
    rewrite read_digits_digits by lia.
    replace (- - z) with z by lia.
    unfold INT64_MIN, INT64_MAX.
    replace (- 2 ^ 63 <=? z) with true by (symmetry; apply Z.leb_le; lia).
    replace (z <=? 2 ^ 63 - 1) with true by (symmetry; apply Z.leb_le; lia).
    done.
  - apply Z.ltb_ge in Hneg. unfold stoll, digits.
    destruct (digits_fuel_head 19 z EmptyString Hneg) as (d & rest & Hd & E).
    pose proof (read_digits_digits z ltac:(lia)) as Hr. unfold digits in Hr.
    rewrite E in *. destruct (digit_char_plain d Hd) as (Hsp & Hm & Hp).
    cbn [skip_spaces]. rewrite Hsp.
    assert (Hsign : match String (digit_char d) rest with
                    | String "-" r => (true, r)
                    | String "+" r => (false, r)
                    | _ => (false, String (digit_char d) rest)
                    end = (false, String (digit_char d) rest)).
    { destruct (digit_char d) as [[] [] [] [] [] [] [] []]; try done. }
    rewrite Hsign, Hr. cbn [andb].
    unfold INT64_MIN, INT64_MAX.
    replace (- 2 ^ 63 <=? z) with true by (symmetry; apply Z.leb_le; lia).
    replace (z <=? 2 ^ 63 - 1) with true by (symmetry; apply Z.leb_le; lia).
    done.
Qed.

Example to_string_examples :
  to_string 0 = "0"%string ∧ to_string 3 = "3"%string ∧
  to_string (-12) = "-12"%string ∧
  to_string INT64_MIN = "-9223372036854775808"%string.
Proof. repeat split. Qed.

Example stoll_examples :
  stoll " 12abc" = Ok 12 ∧ stoll "abc" = Throw invalid_argument ∧
  stoll "" = Throw invalid_argument ∧
  stoll "9223372036854775808" = Throw out_of_range.
Proof. repeat split. Qed.

Lemma stoll_decimal z :
  in_int64 z → stoll (string_of_list_byte (decimal z)) = Ok z.
Proof.
  intros H. unfold decimal. rewrite string_of_list_byte_of_string.
  by apply stoll_to_string.
Qed.

Lemma wrap64_id z : in_int64 z → wrap64 z = z.
Proof.
  unfold in_int64, INT64_MIN, INT64_MAX, wrap64. intros H.
  rewrite Z.mod_small by lia. lia.
Qed.

Lemma wrap64_in_int64 z : in_int64 (wrap64 z).
Proof.
  unfold in_int64, INT64_MIN, INT64_MAX, wrap64.
  pose proof (Z.mod_pos_bound (z + 2 ^ 63) (2 ^ 64) ltac:(lia)). lia.
Qed.

(** ** ADD *)

Section Add.

Variable writable : Z → bool.

Lemma add_total_absent st key addVal :
  tcpStore_ st !! key = None → add_total st key addVal = Ok addVal.
Proof. intros H. unfold add_total. by rewrite H. Qed.

Lemma add_total_parsed st key addVal stored parsed :
  tcpStore_ st !! key = Some stored →
  stoll (string_of_list_byte stored) = Ok parsed →
  add_total st key addVal = Ok (wrap64 (addVal + parsed)).
Proof. intros H P. unfold add_total. by rewrite H, P. Qed.

Lemma woken_waiting_on key st : waiting_on key (woken key st) = [].
Proof.
  unfold waiting_on, bucket, woken.
  destruct (waitingSockets_ st !! key) eqn:E.
  - cbn. by rewrite lookup_delete_eq.
  - by rewrite E.
Qed.

(** One ADD as its client sees it, when the sends go through. *)
Lemma add_step storeSocket key value total st :
  add_total st key value = Ok total →
  writable storeSocket = true →
  all_writable writable (waiting_on key st) →
  all_writable writable (bucket (watchedSockets_ st) key) →
  ∃ st', addHandler writable storeSocket key value st = (Ok tt, st') ∧
    TCPStore_addHelper_ writable storeSocket key value st
    = (Some total, st') ∧
    tcpStore_ st' !! key = Some (decimal total) ∧
    waiting_on key st' = [] ∧
    bucket (watchedSockets_ st') key = bucket (watchedSockets_ st) key.
Proof.
  intros Ht Hs Hwait Hwatch.
  pose proof (addHandler_ok writable storeSocket key value total st Ht Hs
                Hwait Hwatch) as H.
  set (st' := emits _ _) in H. exists st'.
  assert (Htr : trace st' = trace st ++
            ([Sent storeSocket (PInt64 total)]
             ++ (wake (waiting_on key st) (keysAwaited_ st)).2
             ++ notifications key (old_value st key) (decimal total)
                  (bucket (watchedSockets_ st) key))).
  { unfold st'. cbn [trace emits set_watchedSockets].
    rewrite woken_trace. cbn [trace emits set_tcpStore waiting_on keysAwaited_
                              waitingSockets_].
    unfold waiting_on. cbn [waitingSockets_ emits set_tcpStore].
    by rewrite <- !app_assoc. }
  split; [exact H|]. split; [|split; [|split]].
  - unfold TCPStore_addHelper_.
    erewrite exchange_reply; [| apply dispatch_Ok; exact H | exact Htr].
    rewrite sent_to_app, sent_to_self. done.
  - unfold st'. cbn [tcpStore_ emits set_watchedSockets].
    rewrite woken_tcpStore. cbn. apply lookup_insert_eq.
  - unfold st'. unfold waiting_on.
    cbn [waitingSockets_ emits set_watchedSockets].
    apply woken_waiting_on.
  - unfold st'. cbn [watchedSockets_ emits set_watchedSockets].
    unfold bucket at 1. by rewrite lookup_insert_eq.
Qed.

Lemma all_writable_nil : all_writable writable [].
Proof. by intros s ?%elem_of_nil. Qed.

Lemma default_last_cons (acc x : Z) l :
  default acc (last (x :: l)) = default x (last l).
Proof. rewrite last_cons. by destruct (last l). Qed.

End Add.

Lemma totals64_totals acc deltas :
  Forall in_int64 (totals acc deltas) →
  totals64 acc deltas = totals acc deltas.
Proof.
  revert acc. induction deltas as [|d deltas IH]; intros acc; [done|].
  cbn [totals totals64]. intros [H1 H2]%Forall_cons.
  replace (d + acc) with (acc + d) by lia.
  rewrite wrap64_id by done. by rewrite IH.
Qed.

Lemma last_totals acc deltas :
  default acc (last (totals acc deltas)) = acc + sum_list_Z deltas.
Proof.
  revert acc. induction deltas as [|d deltas IH]; intros acc.
  - simpl. lia.
  - cbn [totals]. rewrite default_last_cons, IH.
    unfold sum_list_Z. cbn [foldr]. lia.
Qed.

(** ** Counting wait-list entries *)

Lemma count_nil socket : count socket [] = 0.
Proof. reflexivity. Qed.

Lemma count_nonneg socket l : 0 <= count socket l.
Proof. unfold count. lia. Qed.

Lemma count_cons socket s l :
  count socket (s :: l) = (if decide (s = socket) then 1 else 0) + count socket l.
Proof.
  unfold count. rewrite filter_cons. case_decide; simpl; lia.
Qed.

Lemma count_app socket l1 l2 :
  count socket (l1 ++ l2) = count socket l1 + count socket l2.
Proof. unfold count. rewrite filter_app, length_app. lia. Qed.

Lemma count_scrubbed socket fd l :
  count socket (filter (λ s, s ≠ fd) l)
  = if decide (socket = fd) then 0 else count socket l.
Proof.
  induction l as [|x l IH]; [by case_decide|].
  rewrite filter_cons. destruct (decide (x ≠ fd)) as [Hx|Hx].
  - rewrite !count_cons, IH. repeat case_decide; congruence || lia.
  - rewrite count_cons, IH. apply dec_stable in Hx.
    repeat case_decide; congruence || lia.
Qed.

Lemma occurrences_empty socket : occurrences socket ∅ = 0.
Proof. unfold occurrences. apply map_fold_empty. Qed.

Lemma occurrences_insert_fresh socket key l m :
  m !! key = None →
  occurrences socket (<[key := l]> m) = count socket l + occurrences socket m.
Proof.
  intros H. unfold occurrences.
  rewrite map_fold_insert_L; [done | intros; lia | done].
Qed.

Lemma occurrences_delete socket key m :
  occurrences socket (delete key m)
  = occurrences socket m - count socket (bucket m key).
Proof.
  unfold bucket. destruct (m !! key) as [l|] eqn:E.
  - unfold occurrences at 2.
    rewrite (map_fold_delete_L _ _ key l m); [|intros; lia|done].
    fold (occurrences socket (delete key m)). simpl. lia.
  - rewrite delete_id by done. simpl. rewrite count_nil. lia.
Qed.

Lemma occurrences_insert socket key l m :
  occurrences socket (<[key := l]> m)
  = count socket l + occurrences socket m - count socket (bucket m key).
Proof.
  rewrite <- insert_delete_eq.
  rewrite occurrences_insert_fresh by apply lookup_delete_eq.
  rewrite occurrences_delete. lia.
Qed.

Lemma occurrences_nonneg socket m : 0 <= occurrences socket m.
Proof.
  induction m as [|key l m Hk IH] using map_ind.
  - by rewrite occurrences_empty.
  - rewrite occurrences_insert_fresh by done.
    pose proof (count_nonneg socket l). lia.
Qed.

Lemma count_bucket_le socket key m :
  count socket (bucket m key) <= occurrences socket m.
Proof.
  pose proof (occurrences_delete socket key m).
  pose proof (occurrences_nonneg socket (delete key m)). lia.
Qed.

Lemma occurrences_push_back socket key s m :
  occurrences socket (push_back key s m)
  = occurrences socket m + (if decide (s = socket) then 1 else 0).
Proof.
  unfold push_back. rewrite occurrences_insert, count_app, count_cons, count_nil.
  lia.
Qed.

Lemma occurrences_scrub_lists socket fd m :
  occurrences socket (scrub_lists fd m)
  = if decide (socket = fd) then 0 else occurrences socket m.
Proof.
  induction m as [|key l m Hk IH] using map_ind.
  - unfold scrub_lists. rewrite omap_empty, occurrences_empty. by case_decide.
  - unfold scrub_lists in *. rewrite omap_insert.
    assert (Hnone : omap (λ l0, let l' := filter (λ s, s ≠ fd) l0 in
                                if bool_decide (l' = []) then None else Some l')
                      m !! key = None)
      by (by rewrite lookup_omap, Hk).
    rewrite occurrences_insert_fresh by done. cbn zeta.
    case_bool_decide as Hnil.
    + rewrite delete_id by done. rewrite IH.
      pose proof (count_scrubbed socket fd l) as Hc. rewrite Hnil in Hc.
      rewrite count_nil in Hc. case_decide; lia.
    + rewrite occurrences_insert_fresh by done. rewrite IH, count_scrubbed.
      case_decide; lia.
Qed.

(** ** The wake-up loop on counts that cover the list *)

Lemma wrap_size_small z : 0 <= z <= INT_MAX → wrap_size z = z.
Proof.
  unfold wrap_size, INT_MAX. intros H. apply Z.mod_small. lia.
Qed.

Lemma covers_step awaited s l :
  covers awaited (s :: l) →
  wrap_size (default 0 (awaited !! s) - 1) = default 0 (awaited !! s) - 1 ∧
  0 < default 0 (awaited !! s) ∧
  covers (<[s := default 0 (awaited !! s) - 1]> awaited) l.
Proof.
  intros H. pose proof (H s) as Hs. rewrite count_cons in Hs.
  rewrite decide_True in Hs by done. pose proof (count_nonneg s l).
  split; [apply wrap_size_small; lia|]. split; [lia|].
  intros S. specialize (H S). rewrite count_cons in H.
  rewrite lookup_insert. destruct (decide (s = S)) as [<-|HS]; simpl; lia.
Qed.

Lemma wake_remaining l awaited socket :
  covers awaited l →
  default 0 ((wake l awaited).1 !! socket)
  = default 0 (awaited !! socket) - count socket l.
Proof.
  revert awaited. induction l as [|s l IH]; intros m Hc.
  - simpl. rewrite count_nil. lia.
  - destruct (covers_step m s l Hc) as (Hn & Hpos & Hc').
    cbn [wake]. rewrite Hn.
    specialize (IH _ Hc').
    destruct (wake l (<[s:=default 0 (m !! s) - 1]> m)) as [m' es].
    cbn [fst] in *. rewrite IH, count_cons, lookup_insert.
    destruct (decide (s = socket)) as [->|Hne]; simpl; lia.
Qed.

Lemma stops_app socket es1 es2 :
  stops socket (es1 ++ es2) = stops socket es1 + stops socket es2.
Proof. unfold stops. rewrite filter_app, length_app. lia. Qed.

Lemma stops_nil socket : stops socket [] = 0.
Proof. reflexivity. Qed.

Lemma stops_one socket s :
  stops socket [Sent s (PWait STOP_WAITING)]
  = if decide (s = socket) then 1 else 0.
Proof.
  unfold stops. rewrite filter_cons, filter_nil.
  case_decide as H1; case_decide as H2; try done; congruence.
Qed.

(** A socket is told to stop waiting exactly when the loop takes its count
    from above zero to zero, and then once. *)
Lemma wake_stops l awaited socket :
  covers awaited l →
  stops socket (wake l awaited).2
  = if decide (0 < default 0 (awaited !! socket) ∧
               default 0 (awaited !! socket) = count socket l)
    then 1 else 0.
Proof.
  revert awaited. induction l as [|s l IH]; intros m Hc.
  - simpl. rewrite stops_nil, count_nil. case_decide; lia.
  - destruct (covers_step m s l Hc) as (Hn & Hpos & Hc').
    pose proof (Hc socket) as Hsock.
    cbn [wake]. rewrite Hn. specialize (IH _ Hc').
    destruct (wake l (<[s:=default 0 (m !! s) - 1]> m)) as [m' es].
    cbn [snd] in *. rewrite stops_app, IH. rewrite count_cons in *.
    rewrite lookup_insert.
    destruct (decide (s = socket)) as [->|Hne].
    + simpl.
      destruct (default 0 (m !! socket) - 1 =? 0) eqn:E.
      * apply Z.eqb_eq in E. rewrite stops_one, decide_True by done.
        pose proof (count_nonneg socket l).
        repeat case_decide; lia.
      * apply Z.eqb_neq in E. rewrite stops_nil.
        repeat case_decide; lia.
    + assert (stops socket
                (if default 0 (m !! s) - 1 =? 0
                 then [Sent s (PWait STOP_WAITING)] else []) = 0) as ->.
      { destruct (_ =? 0); [|done]. rewrite stops_one. by rewrite decide_False. }
      repeat case_decide; lia.
Qed.

(** ** The wait-record invariant *)

Lemma wait_record_ext st st' :
  wait_overlay st' = wait_overlay st → wait_record st → wait_record st'.
Proof.
  unfold wait_overlay. intros [= Hw Hk] H socket. unfold remaining.
  rewrite Hw, Hk. apply H.
Qed.

Lemma wait_record_fresh : wait_record fresh.
Proof.
  intros socket. unfold remaining. cbn [fresh keysAwaited_ waitingSockets_].
  rewrite lookup_empty, occurrences_empty. unfold INT_MAX. simpl. lia.
Qed.

Lemma wait_record_covers st key :
  wait_record st → covers (keysAwaited_ st) (waiting_on key st).
Proof.
  intros H socket. destruct (H socket) as [Hr Hb]. unfold remaining in Hr.
  rewrite Hr. pose proof (count_bucket_le socket key (waitingSockets_ st)).
  unfold waiting_on. lia.
Qed.

Lemma wait_overlay_woken_store key f st :
  wait_overlay (woken key (set_tcpStore f st)) = wait_overlay (woken key st).
Proof.
  unfold woken. cbn [waitingSockets_ set_tcpStore keysAwaited_].
  by destruct (waitingSockets_ st !! key).
Qed.

Lemma wait_overlay_woken_emits key es st :
  wait_overlay (woken key (emits es st)) = wait_overlay (woken key st).
Proof.
  unfold woken. cbn [waitingSockets_ emits keysAwaited_].
  by destruct (waitingSockets_ st !! key).
Qed.

Lemma remaining_woken key st socket :
  wait_record st →
  remaining socket (woken key st)
  = remaining socket st - count socket (waiting_on key st) ∧
  occurrences socket (waitingSockets_ (woken key st))
  = occurrences socket (waitingSockets_ st) - count socket (waiting_on key st).
Proof.
  intros H. pose proof (wait_record_covers st key H) as Hc.
  unfold woken, waiting_on, bucket in *.
  destruct (waitingSockets_ st !! key) as [l|] eqn:E; simpl in *.
  - unfold remaining. cbn [keysAwaited_ waitingSockets_ emits
                           set_waitingSockets set_keysAwaited].
    rewrite wake_remaining by done. split; [done|].
    rewrite occurrences_delete. unfold bucket. by rewrite E.
  - rewrite count_nil. lia.
Qed.

Lemma wait_record_woken key st : wait_record st → wait_record (woken key st).
Proof.
  intros H socket. destruct (remaining_woken key st socket H) as [-> ->].
  destruct (H socket) as [Hr Hb].
  pose proof (count_nonneg socket (waiting_on key st)). lia.
Qed.

Lemma wait_record_scrub fd st : wait_record st → wait_record (scrub fd st).
Proof.
  intros H socket. destruct (H socket) as [Hr Hb]. unfold remaining in *.
  unfold scrub. cbn [keysAwaited_ waitingSockets_ set_keysAwaited
                     set_watchedSockets set_waitingSockets].
  rewrite occurrences_scrub_lists, lookup_delete.
  destruct (decide (fd = socket)) as [->|Hne].
  - rewrite decide_True by done. simpl. unfold INT_MAX. lia.
  - rewrite decide_False by congruence. lia.
Qed.

Lemma await_keys_spec socket keys n0 st r st1 :
  await_keys socket keys n0 st = (r, st1) →
  ∃ n, r = Ok n ∧ n0 <= n <= n0 + Z.of_nat (length keys) ∧
    keysAwaited_ st1 = keysAwaited_ st ∧
    ∀ S, occurrences S (waitingSockets_ st1)
         = occurrences S (waitingSockets_ st)
           + (if decide (socket = S) then n - n0 else 0).
Proof.
  revert n0 st. induction keys as [|key keys IH]; intros n0 st; simpl.
  - intros [= <- <-]. exists n0. split; [done|]. split; [lia|].
    split; [done|]. intros S. case_decide; lia.
  - unfold bind at 1. unfold gets at 1.
    destruct (tcpStore_ st !! key).
    + intros H. destruct (IH _ _ H) as (n & -> & Hn & Hk & Ho).
      exists n. split; [done|]. split; [lia|]. done.
    + unfold bind at 1. unfold modify at 1. intros H.
      destruct (IH _ _ H) as (n & -> & Hn & Hk & Ho).
      exists n. split; [done|]. split; [lia|]. split; [done|].
      intros S. rewrite Ho. cbn [waitingSockets_ set_waitingSockets].
      rewrite occurrences_push_back. case_decide; lia.
Qed.

Section Invariant.

Variable writable : Z → bool.

Lemma setHandler_wait_overlay socket key data st r st' :
  all_writable writable (waiting_on key st) →
  setHandler writable socket key data st = (r, st') →
  wait_overlay st' = wait_overlay (woken key st).
Proof.
  intros Hw. unfold setHandler, bind, gets, modify.
  rewrite wakeupWaitingClients_ok by done.
  intros H.
  assert (P : preserves wait_overlay
                (sendKeyUpdatesToClients writable key
                   (default [] (tcpStore_ st !! key)) data))
    by (unfold sendKeyUpdatesToClients; frame).
  rewrite (P _ _ _ H). apply wait_overlay_woken_store.
Qed.

Lemma addHandler_wait_overlay socket key addVal st r st' :
  all_writable writable (waiting_on key st) →
  addHandler writable socket key addVal st = (r, st') →
  wait_overlay st' = wait_overlay st ∨
  wait_overlay st' = wait_overlay (woken key st).
Proof.
  intros Hw H. destruct (add_total st key addVal) as [total|e] eqn:Ht.
  - revert H. unfold add_total in Ht. unfold addHandler.
    unfold bind at 1. unfold gets at 1. unfold bind at 1.
    assert (Hrest : ∀ o,
      (modify (set_tcpStore (λ m, <[key := decimal total]> m)) ;;;
       send writable socket (PInt64 total) ;;;
       wakeupWaitingClients writable key ;;;
       sendKeyUpdatesToClients writable key o (decimal total)) st = (r, st') →
      wait_overlay st' = wait_overlay st ∨
      wait_overlay st' = wait_overlay (woken key st)).
    { intros o. unfold bind at 1. unfold modify at 1. unfold bind at 1.
      unfold send. destruct (writable socket).
      - unfold bind at 1. rewrite wakeupWaitingClients_ok by done.
        intros H. right.
        assert (P : preserves wait_overlay
                      (sendKeyUpdatesToClients writable key o (decimal total)))
          by (unfold sendKeyUpdatesToClients; frame).
        rewrite (P _ _ _ H).
        rewrite emit_emits, wait_overlay_woken_emits.
        apply wait_overlay_woken_store.
      - intros [= <- <-]. by left. }
    destruct (tcpStore_ st !! key) as [stored|].
    + unfold bind at 1, lift.
      destruct (stoll (string_of_list_byte stored)) as [parsed|e]; [|done].
      injection Ht as <-. apply Hrest.
    + injection Ht as <-. apply Hrest.
  - rewrite (addHandler_throws writable socket key addVal e st Ht) in H.
    injection H as <- <-. by left.
Qed.

Lemma waitHandler_wait_record socket keys st r st' :
  occurrences socket (waitingSockets_ st) = 0 →
  Z.of_nat (length keys) <= INT_MAX →
  waitHandler writable socket keys st = (r, st') →
  wait_record st → wait_record st'.
Proof.
  intros Hfree Hlen. unfold waitHandler. unfold bind at 1. unfold gets at 1.
  destruct (checkKeys keys st).
  - unfold send. destruct (writable socket); intros [= <- <-]; done.
  - unfold bind at 1.
    destruct (await_keys socket keys 0 st) as [r1 st1] eqn:E.
    destruct (await_keys_spec _ _ _ _ _ _ E) as (n & -> & Hn & Hk & Ho).
    unfold modify. intros [= <- <-] H S. specialize (Ho S).
    destruct (H S) as [Hr Hb]. unfold remaining in *.
    cbn [keysAwaited_ waitingSockets_ set_keysAwaited].
    rewrite Ho, Hk, lookup_insert.
    destruct (decide (socket = S)) as [->|Hne]; simpl; lia.
Qed.

Lemma query_wait_record socket inc st r st' :
  orderly writable socket inc st →
  query writable socket inc st = (r, st') →
  wait_record st → wait_record st'.
Proof.
  assert (Hframe : ∀ m : M unit, preserves wait_overlay m →
            m st = (r, st') → wait_record st → wait_record st').
  { intros m P H. apply wait_record_ext. by eapply P. }
  destruct inc as [[]| |]; cbn [query orderly].
  - intros Hw H Hinv.
    eapply wait_record_ext; [by eapply setHandler_wait_overlay|].
    by apply wait_record_woken.
  - intros _. apply Hframe. unfold compareSetHandler, sendKeyUpdatesToClients.
    frame.
  - intros _. apply Hframe. unfold getHandler. frame.
  - intros Hw H Hinv.
    destruct (addHandler_wait_overlay _ _ _ _ _ _ Hw H) as [Ho|Ho].
    + by eapply wait_record_ext.
    + eapply wait_record_ext; [exact Ho|]. by apply wait_record_woken.
  - intros _. apply Hframe. unfold checkHandler. frame.
  - intros [Hfree Hlen]. by apply waitHandler_wait_record.
  - intros _. apply Hframe. unfold getNumKeysHandler. frame.
  - intros _. apply Hframe. unfold watchHandler. frame.
  - intros _. apply Hframe. unfold deleteHandler. frame.
  - intros _. apply Hframe. frame.
  - intros _. apply Hframe. frame.
Qed.

Lemma dispatch_wait_record socket inc st :
  orderly writable socket inc st →
  wait_record st → wait_record (dispatch writable socket inc st).2.
Proof.
  intros Ho H. unfold dispatch.
  destruct (query writable socket inc st) as [[[]|e] st'] eqn:E; cbn [snd].
  - by eapply query_wait_record.
  - apply wait_record_scrub.
    eapply wait_record_ext; [|by eapply query_wait_record]. done.
Qed.

End Invariant.

Lemma reachable_wait_record st : reachable st → wait_record st.
Proof.
  induction 1 as [|writable socket inc st Hr IH Ho].
  - apply wait_record_fresh.
  - by apply dispatch_wait_record.
Qed.

(** ** The STOP_WAITING of a SET or an ADD *)

Lemma wake_keeps l awaited socket :
  is_Some (awaited !! socket) → is_Some ((wake l awaited).1 !! socket).
Proof.
  revert awaited. induction l as [|s l IH]; intros m H; [done|].
  cbn [wake].
  specialize (IH (<[s:=wrap_size (default 0 (m !! s) - 1)]> m)).
  destruct (wake l _) as [m' es]. cbn [fst] in *. apply IH.
  rewrite lookup_insert. by case_decide.
Qed.

Lemma wake_entry l awaited socket :
  0 < count socket l → is_Some ((wake l awaited).1 !! socket).
Proof.
  revert awaited. induction l as [|s l IH]; intros m H.
  - rewrite count_nil in H. lia.
  - cbn [wake].
    pose proof (wake_keeps l (<[s:=wrap_size (default 0 (m !! s) - 1)]> m)
                  socket) as Hk.
    specialize (IH (<[s:=wrap_size (default 0 (m !! s) - 1)]> m)).
    destruct (wake l _) as [m' es]. cbn [fst] in *.
    rewrite count_cons in H. destruct (decide (s = socket)) as [->|Hne].
    + apply Hk. by rewrite lookup_insert_eq.
    + apply IH. lia.
Qed.

Lemma stops_notifications socket key o n watching :
  stops socket (notifications key o n watching) = 0.
Proof.
  induction watching as [|s l IH]; [done|].
  unfold notifications in *. cbn [map concat]. rewrite stops_app, IH.
  unfold stops, notification. rewrite !filter_cons, filter_nil.
  repeat case_decide; done.
Qed.

Lemma stops_reply socket s total : stops socket [Sent s (PInt64 total)] = 0.
Proof. unfold stops. rewrite filter_cons, filter_nil. by case_decide. Qed.

(** What waking the waiters of [key] means for a socket whose count it
    takes to zero. *)
Lemma woken_to_zero key st socket :
  wait_record st →
  0 < remaining socket st → remaining socket (woken key st) = 0 →
  stops socket (wake (waiting_on key st) (keysAwaited_ st)).2 = 1 ∧
  occurrences socket (waitingSockets_ (woken key st)) = 0 ∧
  keysAwaited_ (woken key st) !! socket = Some 0.
Proof.
  intros H Hpos Hzero.
  destruct (remaining_woken key st socket H) as [Hr Ho].
  destruct (H socket) as [Hinv _].
  pose proof (wait_record_covers st key H) as Hc.
  assert (Hcount : count socket (waiting_on key st) = remaining socket st) by lia.
  split; [|split].
  - rewrite wake_stops by done. fold (remaining socket st).
    rewrite decide_True; [done | lia].
  - lia.
  - unfold remaining in Hzero. revert Hzero.
    assert (is_Some (keysAwaited_ (woken key st) !! socket)) as [n Hn].
    { unfold woken, waiting_on, bucket in *.
      destruct (waitingSockets_ st !! key) as [l|]; simpl in *.
      - apply wake_entry. lia.
      - rewrite count_nil in Hcount. lia. }
    rewrite Hn. simpl. by intros ->.
Qed.

(** C3, as the handlers keep it.  In every state the daemon reaches by
    orderly requests (a socket sends WAIT only while it has no wait-list
    entry, and the sockets a SET or ADD wakes take their reply), the
    remaining-count of every socket is the number of its entries in the
    wait lists, every entry counted.  And when, in such a state, a SET or
    an ADD on a key takes the count of a socket from above zero to zero,
    exactly one STOP_WAITING is written to that socket, the socket is left
    in no wait list, and its remaining-count entry stays in the map with
    the value zero. *)
Theorem wait_record_invariant (st : daemon) :
  reachable st →
  (∀ S, remaining S st = occurrences S (waitingSockets_ st)) ∧
  ∀ writable socket key S r st',
    all_writable writable (waiting_on key st) →
    all_writable writable (bucket (watchedSockets_ st) key) →
    (∃ v, setHandler writable socket key v st = (r, st')) ∨
    (∃ delta total, writable socket = true ∧
       add_total st key delta = Ok total ∧
       addHandler writable socket key delta st = (r, st')) →
    0 < remaining S st → remaining S st' = 0 →
    (∃ es, trace st' = trace st ++ es ∧ stops S es = 1) ∧
    occurrences S (waitingSockets_ st') = 0 ∧
    keysAwaited_ st' !! S = Some 0.
Proof.
  intros Hreach. pose proof (reachable_wait_record st Hreach) as Hinv.
  split; [intros S; apply Hinv|].
  intros writable socket key S r st' Hwait Hwatch Hcase Hpos Hzero.
  assert (Hov : wait_overlay st' = wait_overlay (woken key st) ∧
            ∃ pre post, trace st'
              = trace st ++ pre
                  ++ (wake (waiting_on key st) (keysAwaited_ st)).2 ++ post ∧
              stops S pre = 0 ∧ stops S post = 0).
  { destruct Hcase as [[v H]|(delta & total & Hs & Ht & H)].
    - rewrite (setHandler_ok writable socket key v st Hwait Hwatch) in H.
      injection H as <- <-. split.
      + unfold wait_overlay.
        cbn [waitingSockets_ keysAwaited_ emits set_watchedSockets].
        apply (wait_overlay_woken_store key _ st).
      + exists [], (notifications key (old_value st key) v
                      (bucket (watchedSockets_ st) key)).
        cbn [trace emits set_watchedSockets]. rewrite woken_trace.
        split; [by rewrite <- app_assoc|].
        split; [done | apply stops_notifications].
    - rewrite (addHandler_ok writable socket key delta total st Ht Hs Hwait
                 Hwatch) in H.
      injection H as <- <-. split.
      + unfold wait_overlay.
        cbn [waitingSockets_ keysAwaited_ emits set_watchedSockets].
        change (wait_overlay
                  (woken key (emits [Sent socket (PInt64 total)]
                     (set_tcpStore (λ m, <[key := decimal total]> m) st)))
                = wait_overlay (woken key st)).
        rewrite wait_overlay_woken_emits. apply wait_overlay_woken_store.
      + exists [Sent socket (PInt64 total)],
          (notifications key (old_value st key) (decimal total)
             (bucket (watchedSockets_ st) key)).
        cbn [trace emits set_watchedSockets]. rewrite woken_trace.
        cbn [trace emits set_tcpStore]. split.
        { rewrite <- !app_assoc. reflexivity. }
        split; [apply stops_reply | apply stops_notifications]. }
  destruct Hov as (Hov & pre & post & Htr & Hpre & Hpost).
  unfold wait_overlay in Hov. injection Hov as Hw Hk.
  assert (Hz : remaining S (woken key st) = 0)
    by (unfold remaining in *; by rewrite <- Hk).
  destruct (woken_to_zero key st S Hinv Hpos Hz) as (H1 & H2 & H3).
  split; [|split].
  - eexists. split; [exact Htr|]. rewrite !stops_app. lia.
  - by rewrite Hw.
  - by rewrite Hk.
Qed.

(** Scenario S2: socket 7 waits for a key, socket 8 sets it. *)
Lemma wait_record_invariant_witness :
  let st := (dispatch all_up 7 (Request (RWait ["/a"])) fresh).2 in
  let st' := (setHandler all_up 8 "/a" [x01] st).2 in
  reachable st ∧
  all_writable all_up (waiting_on "/a" st) ∧
  all_writable all_up (bucket (watchedSockets_ st) "/a") ∧
  0 < remaining 7 st ∧ remaining 7 st' = 0 ∧
  (∃ es, trace st' = trace st ++ es ∧ stops 7 es = 1) ∧
  occurrences 7 (waitingSockets_ st') = 0 ∧
  keysAwaited_ st' !! 7 = Some 0.
Proof.
  intros st st'.
  assert (Hreach : reachable st).
  { apply (reachable_dispatch all_up 7 (Request (RWait ["/a"])) fresh
             reachable_fresh).
    split; [apply occurrences_empty | unfold INT_MAX; simpl; lia]. }
  assert (H1 : all_writable all_up (waiting_on "/a" st))
    by (intros ? ?; reflexivity).
  assert (H2 : all_writable all_up (bucket (watchedSockets_ st) "/a"))
    by (intros ? ?; reflexivity).
  assert (H3 : 0 < remaining 7 st) by (vm_compute; reflexivity).
  assert (H4 : remaining 7 st' = 0) by (vm_compute; reflexivity).
  repeat (split; [assumption|]).
  apply (proj2 (wait_record_invariant st Hreach) all_up 8 "/a" 7 (Ok tt) st'
           H1 H2); [|exact H3|exact H4].
  left. exists [x01]. reflexivity.
Defined.

(** A WAIT that names an absent key twice counts two and enters one list
    (twice); a second WAIT from a socket that still waits overwrites its
    count and adds to its lists; and the count a SET takes to zero stays in
    the map. *)
Lemma wait_record_not_as_specified :
  (let st := (dispatch all_up 7 (Request (RWait ["/a"; "/a"])) fresh).2 in
   reachable st ∧
   keysAwaited_ st !! 7 = Some 2 ∧
   waitingSockets_ st !! "/a" = Some [7; 7] ∧
   lists_with 7 (waitingSockets_ st) = 1 ∧
   ¬ wait_record_as_specified st) ∧
  (let st := handle_all all_up [(7, Request (RWait ["/a"]));
                                (7, Request (RWait ["/b"]))] fresh in
   keysAwaited_ st !! 7 = Some 1 ∧
   lists_with 7 (waitingSockets_ st) = 2 ∧
   occurrences 7 (waitingSockets_ st) = 2 ∧
   ¬ wait_record_as_specified st) ∧
  (let st := handle_all all_up [(7, Request (RWait ["/a"]));
                                (8, Request (RSet "/a" [x01]))] fresh in
   sent_to 7 (trace st) = [PWait STOP_WAITING] ∧
   waitingSockets_ st = ∅ ∧
   keysAwaited_ st !! 7 = Some 0).
Proof.
  split; [|split].
  - intros st.
    assert (Hk : keysAwaited_ st !! 7 = Some 2) by reflexivity.
    assert (Hl : lists_with 7 (waitingSockets_ st) = 1) by reflexivity.
    split.
    { apply (reachable_dispatch all_up 7 (Request (RWait ["/a"; "/a"])) fresh
               reachable_fresh).
      split; [apply occurrences_empty | unfold INT_MAX; simpl; lia]. }
    split; [exact Hk|]. split; [reflexivity|]. split; [exact Hl|].
    intros H. specialize (H 7 2 Hk ltac:(lia)). rewrite Hl in H. discriminate.
  - intros st.
    assert (Hk : keysAwaited_ st !! 7 = Some 1) by reflexivity.
    assert (Hl : lists_with 7 (waitingSockets_ st) = 2) by reflexivity.
    split; [exact Hk|]. split; [exact Hl|]. split; [reflexivity|].
    intros H. specialize (H 7 1 Hk ltac:(lia)). rewrite Hl in H. discriminate.
  - intros st. split; [reflexivity|]. split; reflexivity.
Qed.

(** ** Scenarios *)

Example opcode_values :
  map QueryType_code
    [SET; COMPARE_SET; GET; ADD; CHECK; WAIT; GETNUMKEYS; WATCH_KEY; DELETE_KEY]
  = [0; 1; 2; 3; 4; 5; 6; 7; 8].
Proof. reflexivity. Qed.

(** Scenario S5: a compare-set that misses returns the stored value, leaves
    it, and no watcher hears of it. *)
Example compare_set_miss :
  let st := handle_all all_up [(9, Request (RWatchKey "/k"))]
              (TCPStore_set all_up 7 "k" [x01] fresh) in
  let '(reply, st') := TCPStore_compareSet all_up 7 "k" [x09] [x02] st in
  reply = Some [x01] ∧ tcpStore_ st' !! "/k" = Some [x01] ∧
  key_updates (trace st') = [].
Proof. repeat split. Qed.

(** The read flow of [TCPStore::get]: a WAIT, then a GET. *)
Example wait_then_get :
  exchange all_up 7 (RGet "/k")
    (exchange all_up 7 (RWait ["/k"])
       (TCPStore_set all_up 7 "k" [xab] fresh)).2
  = ([PVector [xab]],
     Daemon {["/k" := [xab]]} ∅ ∅ {["/k" := []]} []
       [Sent 7 (PWait STOP_WAITING); Sent 7 (PVector [xab])]).
Proof. reflexivity. Qed.

(** A run of the loop: a client connects, sets a key, and the pipe is
    closed. *)
Example a_run :
  let connect := World all_up (λ _, RecvFailed)
                   (λ fd, if fd =? 3 then POLLIN else 0) 8 in
  let request := World all_up (λ _, Request (RSet "/k" [x01]))
                   (λ fd, if fd =? 8 then POLLIN else 0) 0 in
  let stop := World all_up (λ _, RecvFailed)
                (λ fd, if fd =? 5 then POLLHUP else 0) 0 in
  run [connect; request; stop] 3 5 fresh
  = (Finished,
     [Pollfd 3 POLLIN 0; Pollfd 5 POLLHUP POLLHUP; Pollfd 8 POLLIN 0],
     Daemon {["/k" := [x01]]} ∅ ∅ {["/k" := []]} [8] [Accepted 8]).
Proof. reflexivity. Qed.

(** A client that hangs up: its socket is readable, the read fails, and the
    loop forgets the socket. *)
Example a_hangup :
  let hangup := World all_up (λ _, RecvFailed)
                  (λ fd, if fd =? 8 then POLLIN else 0) 0 in
  queryFds hangup
    [Pollfd 3 POLLIN 0; Pollfd 5 POLLHUP 0; Pollfd 8 POLLIN POLLIN;
     Pollfd 9 POLLIN 0]
    (Daemon ∅ {["/a" := [8; 9]]} {[8 := 1; 9 := 1]} {["/w" := [8]]} [8; 9] [])
  = ([Pollfd 3 POLLIN 0; Pollfd 5 POLLHUP 0; Pollfd 9 POLLIN 0],
     Daemon ∅ {["/a" := [9]]} {[9 := 1]} ∅ [9] [Closed 8]).
Proof. reflexivity. Qed.

(** A waiter whose peer is gone, woken by the SET of another client: the
    send to it throws out of the SET, so it is the setting client that is
    closed and scrubbed; the waiter keeps its list entry next to a count of
    zero.  This is why [orderly] asks that the woken sockets take their
    reply. *)
Example wake_up_of_a_dead_waiter :
  let st := handle_all all_up [(7, Request (RWait ["/a"]))] fresh in
  let st' := (dispatch (λ s, negb (s =? 7)) 8 (Request (RSet "/a" [x01])) st).2 in
  trace st' = [Closed 8] ∧
  waitingSockets_ st' !! "/a" = Some [7] ∧
  keysAwaited_ st' !! 7 = Some 0 ∧
  tcpStore_ st' !! "/a" = Some [x01].
Proof. repeat split. Qed.

(** * Further properties of the handlers and the client *)

(** ** WAIT: at once, or not yet *)

Lemma checkKeys_spec keys st :
  checkKeys keys st = true ↔ ∀ key, key ∈ keys → is_Some (tcpStore_ st !! key).
Proof.
  unfold checkKeys. rewrite forallb_forall. split.
  - intros H key Hk. apply list_elem_of_In in Hk.
    specialize (H key Hk). by apply bool_decide_eq_true in H.
  - intros H key Hk. apply bool_decide_eq_true, H. by apply list_elem_of_In.
Qed.

Lemma waitHandler_ready writable socket keys st :
  checkKeys keys st = true → writable socket = true →
  waitHandler writable socket keys st
  = (Ok tt, emits [Sent socket (PWait STOP_WAITING)] st).
Proof.
  intros Hc Hs. unfold waitHandler, bind, gets. rewrite Hc. by apply send_ok.
Qed.




(** ** SET then GET *)

Lemma getHandler_present writable socket key data st :
  tcpStore_ st !! key = Some data → writable socket = true →
  getHandler writable socket key st
  = (Ok tt, emits [Sent socket (PVector data)] st).
Proof.
  intros Hk Hs. unfold getHandler, bind, gets. rewrite Hk. by apply send_ok.
Qed.

(** ** CHECK *)




(** ** GETNUMKEYS and the number of keys *)

Lemma getNumKeysHandler_ok writable socket st :
  writable socket = true →
  getNumKeysHandler writable socket st
  = (Ok tt, emits [Sent socket (PInt64 (Z.of_nat (size (tcpStore_ st))))] st).
Proof. intros Hs. unfold getNumKeysHandler, bind, gets. by apply send_ok. Qed.

Lemma compareSetHandler_dom writable socket key e d st r st' :
  compareSetHandler writable socket key e d st = (r, st') →
  dom (tcpStore_ st') = dom (tcpStore_ st).
Proof.
  unfold compareSetHandler. unfold bind at 1. unfold gets at 1.
  destruct (tcpStore_ st !! key) as [stored|] eqn:Hk.
  - case_bool_decide as Hm.
    + unfold bind at 1. unfold modify at 1. intros H.
      assert (P : preserves tcpStore_
                (sendKeyUpdatesToClients writable key e d ;;;
                 send writable socket (PVector d))).
      { apply preserves_bind; [apply sendKeyUpdatesToClients_tcpStore|].
        intros. by apply preserves_send. }
      rewrite (P _ _ _ H). cbn. rewrite dom_insert_L.
      assert (Hin : key ∈ dom (tcpStore_ st)) by (apply elem_of_dom; eauto).
      apply subseteq_union_1_L. by apply singleton_subseteq_l.
    + intros H. by rewrite (preserves_send tcpStore_ writable socket _
                              (λ _ _, eq_refl) _ _ _ H).
  - intros H. by rewrite (preserves_send tcpStore_ writable socket _
                            (λ _ _, eq_refl) _ _ _ H).
Qed.

(** ** A request writes at most its own key *)

Lemma preserves_compose {A X Y} (f : daemon → X) (g : X → Y) (m : M A) :
  preserves f m → preserves (λ st, g (f st)) m.
Proof. intros P st r st' H. by rewrite (P _ _ _ H). Qed.

Section Locality.

Variable writable : Z → bool.

Lemma query_reads_only socket r :
  written_key r = None →
  preserves tcpStore_ (query writable socket (Request r)).
Proof.
  destruct r; try done; intros _; cbn [query].
  - unfold getHandler. frame.
  - unfold checkHandler. frame.
  - unfold waitHandler.
    apply preserves_bind; [apply preserves_gets|]. intros c.
    apply preserves_if; [by apply preserves_send|].
    apply preserves_bind; [by apply await_keys_frame|]. intros n.
    by apply preserves_modify.
  - unfold getNumKeysHandler. frame.
  - unfold watchHandler. frame.
Qed.

Lemma query_writes_its_key socket r key k' :
  written_key r = Some key → key ≠ k' →
  preserves (λ st, tcpStore_ st !! k') (query writable socket (Request r)).
Proof.
  intros Hr Hne.
  assert (Hins : ∀ v, preserves (λ st, tcpStore_ st !! k')
                        (modify (set_tcpStore (λ m, <[key := v]> m)))).
  { intros v st r0 st' [= <- <-]. cbn. by rewrite lookup_insert_ne. }
  assert (Hwake : preserves (λ st, tcpStore_ st !! k')
                    (wakeupWaitingClients writable key))
    by apply (preserves_compose tcpStore_ (λ m, m !! k')),
             wakeupWaitingClients_tcpStore.
  assert (Hsend : ∀ o n, preserves (λ st, tcpStore_ st !! k')
                    (sendKeyUpdatesToClients writable key o n))
    by (intros; apply (preserves_compose tcpStore_ (λ m, m !! k')),
                      sendKeyUpdatesToClients_tcpStore).
  destruct r; try done; injection Hr as ->; cbn [query].
  - unfold setHandler.
    apply preserves_bind; [apply preserves_gets|]. intros o.
    apply preserves_bind; [apply Hins|]. intros _.
    apply preserves_bind; [apply Hwake | intros _; apply Hsend].
  - unfold compareSetHandler.
    apply preserves_bind; [apply preserves_gets|]. intros [stored|];
      [|by apply preserves_send].
    apply preserves_if; [|by apply preserves_send].
    apply preserves_bind; [apply Hins|]. intros _.
    apply preserves_bind; [apply Hsend | intros _; by apply preserves_send].
  - unfold addHandler.
    apply preserves_bind; [apply preserves_gets|]. intros found.
    apply preserves_bind.
    { destruct found; [|apply preserves_ret].
      apply preserves_bind; [apply preserves_lift | intros; apply preserves_ret]. }
    intros [o total].
    apply preserves_bind; [apply Hins|]. intros _.
    apply preserves_bind; [by apply preserves_send|]. intros _.
    apply preserves_bind; [apply Hwake | intros _; apply Hsend].
  - unfold deleteHandler.
    apply preserves_bind; [apply preserves_gets|]. intros n.
    apply preserves_bind.
    { intros st r0 st' [= <- <-]. cbn. by rewrite lookup_delete_ne. }
    intros _. apply preserves_bind; [by apply preserves_send|]. intros _.
    by apply preserves_modify.
Qed.

End Locality.

Lemma dispatch_store_locality writable socket inc k' st :
  (∀ r, inc = Request r → written_key r ≠ Some k') →
  tcpStore_ (dispatch writable socket inc st).2 !! k' = tcpStore_ st !! k'.
Proof.
  intros Hk.
  assert (Hq : ∀ r st', query writable socket inc st = (r, st') →
                 tcpStore_ st' !! k' = tcpStore_ st !! k').
  { destruct inc as [r| |].
    - destruct (written_key r) as [key|] eqn:Hw.
      + intros r0 st' H.
        apply (query_writes_its_key writable socket r key k' Hw) in H; [done|].
        intros ->. by apply (Hk r).
      + intros r0 st' H.
        by rewrite (query_reads_only writable socket r Hw _ _ _ H).
    - by intros r0 st' [= <- <-].
    - by intros r0 st' [= <- <-]. }
  unfold dispatch.
  destruct (query writable socket inc st) as [[[]|e] st'] eqn:E; cbn [snd].
  - by eapply Hq.
  - rewrite tcpStore_scrub. cbn [tcpStore_ closeSocket emit]. by eapply Hq.
Qed.

(** X5.  Whatever arrives on a socket, and however its handling ends, the store
    changes at most under the key the request is about: a GET, CHECK,
    WAIT, GETNUMKEYS or WATCH_KEY, a request that cannot be read, and the
    scrub of a socket leave the whole store as it is, and a SET,
    COMPARE_SET, ADD or DELETE_KEY leaves every other key as it is. *)
Theorem store_changes_only_at_the_key (writable : Z → bool) (socket : Z)
    (inc : incoming) (st : daemon) :
  (∀ k', (∀ r, inc = Request r → written_key r ≠ Some k') →
     tcpStore_ (dispatch writable socket inc st).2 !! k'
     = tcpStore_ st !! k') ∧
  ((∀ r, inc = Request r → written_key r = None) →
     tcpStore_ (dispatch writable socket inc st).2 = tcpStore_ st).
Proof.
  split.
  - intros k'. apply dispatch_store_locality.
  - intros Hr. apply map_eq. intros k'. apply dispatch_store_locality.
    intros r ->. by rewrite (Hr r).
Qed.

Lemma store_changes_only_at_the_key_witness :
  let st := Daemon {["/a" := [x01]]} ∅ ∅ ∅ [7] [] in
  (∀ r, Request (RSet "/b" [x02]) = Request r → written_key r ≠ Some "/a") ∧
  tcpStore_ (dispatch all_up 7 (Request (RSet "/b" [x02])) st).2 !! "/a"
  = Some [x01] ∧
  (∀ r, Request (RGet "/missing") = Request r → written_key r = None) ∧
  tcpStore_ (dispatch all_up 7 (Request (RGet "/missing")) st).2 = tcpStore_ st.
Proof.
  intros st.
  assert (H : ∀ r, Request (RSet "/b" [x02]) = Request r →
                   written_key r ≠ Some "/a")
    by (intros r [= <-]; discriminate).
  assert (H' : ∀ r, Request (RGet "/missing") = Request r →
                    written_key r = None)
    by (intros r [= <-]; reflexivity).
  split; [exact H|].
  split;
    [exact (proj1 (store_changes_only_at_the_key all_up 7
                     (Request (RSet "/b" [x02])) st) "/a" H)|].
  split; [exact H'|].
  exact (proj2 (store_changes_only_at_the_key all_up 7
                  (Request (RGet "/missing")) st) H').
Defined.

(** ** The rendezvous key *)

Lemma prefixed_key_is_not_initKey key : regularPrefix_ +:+ key ≠ initKey_.
Proof. discriminate. Qed.

(** X6.  No call of the client API on a user key reads or writes the rendezvous
    counter: every user key goes out with the prefix ["/"], and ["init/"]
    does not begin with it.  So [set], [compareSet], [add] and [deleteKey]
    leave the value under ["init/"] as it is, whatever the key; and the ADD
    on ["init/"] of [waitForWorkers] leaves every user key as it is. *)
Theorem user_keys_never_touch_initKey (writable : Z → bool)
    (storeSocket : Z) (key : string) (st : daemon) :
  (∀ data, tcpStore_ (TCPStore_set writable storeSocket key data st)
             !! initKey_ = tcpStore_ st !! initKey_) ∧
  (∀ e d, tcpStore_ (TCPStore_compareSet writable storeSocket key e d st).2
            !! initKey_ = tcpStore_ st !! initKey_) ∧
  (∀ value, tcpStore_ (TCPStore_add writable storeSocket key value st).2
              !! initKey_ = tcpStore_ st !! initKey_) ∧
  tcpStore_ (TCPStore_deleteKey writable storeSocket key st).2 !! initKey_
  = tcpStore_ st !! initKey_ ∧
  (∀ value, tcpStore_ (TCPStore_addHelper_ writable storeSocket initKey_
                         value st).2 !! (regularPrefix_ +:+ key)
            = tcpStore_ st !! (regularPrefix_ +:+ key)).
Proof.
  assert (Hex : ∀ r k', written_key r ≠ Some k' →
            tcpStore_ (exchange writable storeSocket r st).2 !! k'
            = tcpStore_ st !! k').
  { intros r k' H. unfold exchange. cbn [snd].
    apply dispatch_store_locality. by intros r' [= <-]. }
  pose proof (prefixed_key_is_not_initKey key) as Hne.
  split; [|split; [|split; [|split]]].
  - intros data. unfold TCPStore_set. apply Hex. cbn. congruence.
  - intros e d. unfold TCPStore_compareSet.
    destruct (exchange _ _ _ st) as [reply st'] eqn:E.
    change st' with (reply, st').2. rewrite <- E. apply Hex. cbn. congruence.
  - intros value. unfold TCPStore_add, TCPStore_addHelper_.
    destruct (exchange _ _ _ st) as [reply st'] eqn:E.
    change st' with (reply, st').2. rewrite <- E. apply Hex. cbn. congruence.
  - unfold TCPStore_deleteKey.
    destruct (exchange _ _ _ st) as [reply st'] eqn:E.
    change st' with (reply, st').2. rewrite <- E. apply Hex. cbn. congruence.
  - intros value. unfold TCPStore_addHelper_.
    destruct (exchange _ _ _ st) as [reply st'] eqn:E.
    change st' with (reply, st').2. rewrite <- E. apply Hex. cbn. congruence.
Qed.

(** ** [fds] and [sockets_] stay parallel *)

Section Sockets.

Variable writable : Z → bool.

Lemma query_sockets socket inc : preserves sockets_ (query writable socket inc).
Proof.
  destruct inc as [[]| |]; cbn [query]; try apply preserves_throw.
  - unfold setHandler, wakeupWaitingClients, sendKeyUpdatesToClients. frame.
    by apply decrement_awaited_frame.
  - unfold compareSetHandler, sendKeyUpdatesToClients. frame.
  - unfold getHandler. frame.
  - unfold addHandler, wakeupWaitingClients, sendKeyUpdatesToClients. frame.
    by apply decrement_awaited_frame.
  - unfold checkHandler. frame.
  - unfold waitHandler.
    apply preserves_bind; [apply preserves_gets|]. intros c.
    apply preserves_if; [by apply preserves_send|].
    apply preserves_bind; [by apply await_keys_frame|]. intros n.
    by apply preserves_modify.
  - unfold getNumKeysHandler. frame.
  - unfold watchHandler. frame.
  - unfold deleteHandler. frame.
Qed.

Lemma dispatch_sockets socket inc st :
  sockets_ (dispatch writable socket inc st).2 = sockets_ st.
Proof.
  unfold dispatch.
  destruct (query writable socket inc st) as [[[]|e] st'] eqn:E; cbn [snd];
    cbn [sockets_ scrub closeSocket emit set_keysAwaited set_watchedSockets
         set_waitingSockets];
    apply (query_sockets _ _ _ _ _ E).
Qed.

End Sockets.

Lemma queryFds_from_in_sync w todo pre st :
  (CONNECT_SOCKET_OFFSET <= length pre)%nat →
  map fd (drop CONNECT_SOCKET_OFFSET (pre ++ todo)) = sockets_ st →
  in_sync (queryFds_from w todo (length pre) (pre ++ todo) st).1
          (queryFds_from w todo (length pre) (pre ++ todo) st).2.
Proof.
  revert pre st. induction todo as [|p todo IH]; intros pre st Hlen Hs.
  - cbn [queryFds_from fst snd]. split; [|done]. rewrite length_app. lia.
  - cbn [queryFds_from].
    assert (Hnext : ∀ st', sockets_ st' = sockets_ st →
      in_sync (queryFds_from w todo (S (length pre)) (pre ++ p :: todo) st').1
              (queryFds_from w todo (S (length pre)) (pre ++ p :: todo) st').2).
    { intros st' Hst'.
      replace (pre ++ p :: todo) with ((pre ++ [p]) ++ todo)
        by (by rewrite <- app_assoc).
      replace (S (length pre)) with (length (pre ++ [p]))
        by (rewrite length_app; simpl; lia).
      apply IH; [rewrite length_app; lia|].
      rewrite <- app_assoc. by rewrite Hst'. }
    destruct (revents p =? 0); [by apply Hnext|].
    pose proof (dispatch_sockets (w_writable w) (fd p) (w_inbox w (fd p)) st)
      as Hd.
    destruct (dispatch _ _ _ st) as [[] st']; cbn [snd] in Hd;
      [|by apply Hnext].
    rewrite delete_middle. apply IH; [done|].
    cbn [sockets_ set_sockets]. rewrite Hd, <- Hs.
    rewrite !drop_app_le by done. rewrite !fmap_app. cbn [fmap list_fmap].
    replace (length pre - CONNECT_SOCKET_OFFSET)%nat
      with (length (fd <$> drop CONNECT_SOCKET_OFFSET pre))
      by (rewrite length_fmap, length_drop; lia).
    by rewrite delete_middle.
Qed.

Lemma queryFds_in_sync w fds st :
  in_sync fds st → in_sync (queryFds w fds st).1 (queryFds w fds st).2.
Proof.
  intros [Hlen Hs]. unfold queryFds.
  assert (Hl : length (take CONNECT_SOCKET_OFFSET fds) = CONNECT_SOCKET_OFFSET)
    by (rewrite length_take; lia).
  pose proof (queryFds_from_in_sync w (drop CONNECT_SOCKET_OFFSET fds)
                (take CONNECT_SOCKET_OFFSET fds) st) as H.
  rewrite Hl, take_drop in H. apply H; [lia | exact Hs].
Qed.

Lemma poll_fd w fds : map fd (poll w fds) = map fd fds.
Proof. unfold poll. rewrite map_map. done. Qed.

Lemma clear_revents_fd n fds : map fd (clear_revents n fds) = map fd fds.
Proof.
  unfold clear_revents. revert n.
  assert (H : ∀ (g : nat → nat) n,
            map fd (imap (λ i p, if bool_decide (g i < n)%nat
                                 then Pollfd (fd p) (events p) 0 else p) fds)
            = map fd fds).
  { induction fds as [|p fds IH]; intros g n; [done|].
    cbn [imap map]. f_equal; [by case_bool_decide|].
    apply (IH (g ∘ S) n). }
  intros n. apply (H id n).
Qed.

Lemma in_sync_fds fds fds' st :
  map fd fds' = map fd fds → in_sync fds st → in_sync fds' st.
Proof.
  intros Hfd [Hlen Hs]. split.
  - rewrite <- (length_map fd fds'), Hfd, length_map. done.
  - rewrite <- Hs, <- !skipn_map. by rewrite Hfd.
Qed.

Lemma run_pass_in_sync w storeListenSocket fds st :
  in_sync fds st →
  in_sync (run_pass w storeListenSocket fds st).1.2
          (run_pass w storeListenSocket fds st).2.
Proof.
  intros Hsync. unfold run_pass.
  set (polled := poll w (clear_revents (length (sockets_ st)) fds)).
  assert (Hp : in_sync polled st).
  { eapply in_sync_fds; [|exact Hsync]. unfold polled.
    by rewrite poll_fd, clear_revents_fd. }
  assert (Ha : in_sync (addPollfd polled (w_accept w) POLLIN)
                 (set_sockets (λ l, l ++ [w_accept w])
                    (emit (Accepted (w_accept w)) st))).
  { destruct Hp as [Hlen Hs]. unfold addPollfd. split.
    - rewrite length_app. lia.
    - cbn [sockets_ set_sockets emit]. rewrite drop_app_le by done.
      rewrite map_app, Hs. done. }
  assert (Hrest : ∀ fds1 st1, in_sync fds1 st1 →
    in_sync
      (if revents_at fds1 1 =? 0
       then let '(fds2, st2) := queryFds w fds1 st1 in (Continue, fds2, st2)
       else if Z.lxor (revents_at fds1 1) POLLHUP =? 0
            then (Finished, fds1, st1)
            else (Aborted (system_error (revents_at fds1 1)), fds1, st1)).1.2
      (if revents_at fds1 1 =? 0
       then let '(fds2, st2) := queryFds w fds1 st1 in (Continue, fds2, st2)
       else if Z.lxor (revents_at fds1 1) POLLHUP =? 0
            then (Finished, fds1, st1)
            else (Aborted (system_error (revents_at fds1 1)), fds1, st1)).2).
  { intros fds1 st1 H1. destruct (revents_at fds1 1 =? 0).
    - pose proof (queryFds_in_sync w fds1 st1 H1) as Hq.
      by destruct (queryFds w fds1 st1).
    - by destruct (Z.lxor (revents_at fds1 1) POLLHUP =? 0). }
  destruct (revents_at polled 0 =? 0); [by apply Hrest|].
  destruct (Z.lxor (revents_at polled 0) POLLIN =? 0); [by apply Hrest|done].
Qed.

Lemma run_loop_in_sync ws storeListenSocket fds st :
  in_sync fds st →
  in_sync (run_loop ws storeListenSocket fds st).1.2
          (run_loop ws storeListenSocket fds st).2.
Proof.
  revert fds st. induction ws as [|w ws IH]; intros fds st H; [done|].
  cbn [run_loop].
  pose proof (run_pass_in_sync w storeListenSocket fds st H) as Hp.
  destruct (run_pass w storeListenSocket fds st) as [[[] fds'] st'];
    cbn [fst snd] in *; [by apply IH | done | done].
Qed.

(** X7.  The loop erases a dead socket from [fds] by its index and from
    [sockets_] by that index less [CONNECT_SOCKET_OFFSET].  That is the
    same socket every time: if the descriptors after the first two are the
    accepted sockets, in order, before a pass of the loop, they are so
    after it, whether the pass goes on, finishes or aborts, and whichever
    connections it accepted or dropped; and so they are for as long as
    [run] runs, from a daemon that starts with no accepted socket. *)
Theorem fds_and_sockets_stay_parallel (w : world) (ws : list world)
    (storeListenSocket controlPipeFd : Z) (fds : list pollfd) (st : daemon) :
  (in_sync fds st →
   in_sync (queryFds w fds st).1 (queryFds w fds st).2 ∧
   in_sync (run_pass w storeListenSocket fds st).1.2
           (run_pass w storeListenSocket fds st).2) ∧
  (sockets_ st = [] →
   in_sync (run ws storeListenSocket controlPipeFd st).1.2
           (run ws storeListenSocket controlPipeFd st).2).
Proof.
  split.
  - intros Hsync. split; [by apply queryFds_in_sync|].
    by apply run_pass_in_sync.
  - intros Hs. unfold run. apply run_loop_in_sync.
    split; [unfold addPollfd, CONNECT_SOCKET_OFFSET; simpl; lia
           | by rewrite Hs].
Qed.

Lemma fds_and_sockets_stay_parallel_witness :
  let hangup := World all_up (λ _, RecvFailed)
                  (λ fd, if fd =? 8 then POLLIN else 0) 0 in
  let fds := [Pollfd 3 POLLIN 0; Pollfd 5 POLLHUP 0; Pollfd 8 POLLIN POLLIN;
              Pollfd 9 POLLIN 0] in
  let st := Daemon ∅ ∅ ∅ ∅ [8; 9] [] in
  in_sync fds st ∧
  sockets_ (queryFds hangup fds st).2 = [9] ∧
  in_sync (queryFds hangup fds st).1 (queryFds hangup fds st).2 ∧
  sockets_ fresh = [] ∧
  in_sync (run [hangup; hangup] 3 5 fresh).1.2 (run [hangup; hangup] 3 5 fresh).2.
Proof.
  intros hangup fds st.
  assert (H : in_sync fds st)
    by (split; [unfold CONNECT_SOCKET_OFFSET; simpl; lia | reflexivity]).
  split; [exact H|]. split; [reflexivity|].
  split;
    [exact (proj1 (proj1 (fds_and_sockets_stay_parallel hangup [] 3 5 fds st)
                     H))|].
  split; [reflexivity|].
  exact (proj2 (fds_and_sockets_stay_parallel hangup [hangup; hangup] 3 5 fds
                  fresh) eq_refl).
Defined.


(** ** Who waits, waits for a missing key *)

Lemma waitingSockets_woken key st :
  waitingSockets_ (woken key st) = delete key (waitingSockets_ st).
Proof.
  unfold woken. destruct (waitingSockets_ st !! key) eqn:E; [done|].
  by rewrite delete_id.
Qed.

Lemma await_keys_lists socket keys n st r st' :
  await_keys socket keys n st = (r, st') →
  ∀ key, bucket (waitingSockets_ st') key
         = bucket (waitingSockets_ st) key
           ++ (if tcpStore_ st !! key is Some _ then []
               else replicate (length (filter (λ k, k = key) keys)) socket).
Proof.
  revert n st. induction keys as [|k keys IH]; intros n st; simpl.
  - intros [= <- <-] key. destruct (tcpStore_ st !! key); by rewrite app_nil_r.
  - unfold bind at 1. unfold gets at 1.
    destruct (tcpStore_ st !! k) as [v|] eqn:Hk.
    + intros H key. rewrite (IH _ _ H key). rewrite filter_cons.
      destruct (decide (k = key)) as [->|Hne]; [by rewrite Hk | done].
    + unfold bind at 1. unfold modify at 1. intros H key.
      rewrite (IH _ _ H key). cbn [tcpStore_ waitingSockets_ set_waitingSockets].
      unfold push_back. rewrite bucket_insert, filter_cons.
      destruct (decide (k = key)) as [->|Hne].
      * rewrite Hk. simpl. by rewrite <- app_assoc.
      * done.
Qed.

Lemma bucket_lookup (m : gmap string (list Z)) key l :
  m !! key = Some l → bucket m key = l.
Proof. intros H. unfold bucket. by rewrite H. Qed.

Lemma waits_for_missing_keys_ext st st' :
  (∀ key, is_Some (waitingSockets_ st' !! key) →
          waitingSockets_ st' !! key = waitingSockets_ st !! key ∧
          (tcpStore_ st !! key = None → tcpStore_ st' !! key = None)) →
  waits_for_missing_keys st → waits_for_missing_keys st'.
Proof.
  intros H Hinv key l Hl.
  destruct (H key (mk_is_Some _ _ Hl)) as [Hw Hs].
  rewrite Hw in Hl. destruct (Hinv key l Hl) as [Hk Hne]. auto.
Qed.

Lemma waits_for_missing_keys_scrub fd st :
  waits_for_missing_keys st → waits_for_missing_keys (scrub fd st).
Proof.
  intros Hinv key l Hl.
  cbn [waitingSockets_ tcpStore_ scrub set_keysAwaited set_watchedSockets
       set_waitingSockets] in *.
  destruct (scrub_lists_clean fd _ key l Hl) as [_ Hne].
  rewrite scrub_lists_lookup in Hl.
  destruct (waitingSockets_ st !! key) as [l0|] eqn:E; [|done].
  split; [by eapply Hinv | done].
Qed.

Lemma await_keys_lookup socket keys n st r st' :
  await_keys socket keys n st = (r, st') →
  ∀ key, waitingSockets_ st' !! key
         = match tcpStore_ st !! key,
                 length (filter (λ k, k = key) keys) with
           | None, S c =>
               Some (bucket (waitingSockets_ st) key ++ replicate (S c) socket)
           | _, _ => waitingSockets_ st !! key
           end.
Proof.
  revert n st. induction keys as [|k keys IH]; intros n st; simpl.
  - intros [= <- <-] key. by destruct (tcpStore_ st !! key).
  - unfold bind at 1. unfold gets at 1.
    destruct (tcpStore_ st !! k) as [v|] eqn:Hk.
    + intros H key. rewrite (IH _ _ H key), filter_cons.
      destruct (decide (k = key)) as [->|Hne]; [by rewrite Hk | done].
    + unfold bind at 1. unfold modify at 1. intros H key.
      rewrite (IH _ _ H key), filter_cons.
      cbn [tcpStore_ waitingSockets_ set_waitingSockets].
      destruct (decide (k = key)) as [->|Hne].
      * rewrite Hk. cbn [length]. rewrite bucket_push_back.
        destruct (length (filter (λ k, k = key) keys)) as [|c].
        -- unfold push_back. by rewrite lookup_insert_eq.
        -- by rewrite <- app_assoc.
      * unfold push_back. rewrite bucket_insert, decide_False by done.
        by rewrite lookup_insert_ne.
Qed.

Section MissingKeys.

Variable writable : Z → bool.

Lemma waitHandler_missing_keys socket keys st r st' :
  waitHandler writable socket keys st = (r, st') →
  waits_for_missing_keys st → waits_for_missing_keys st'.
Proof.
  unfold waitHandler. unfold bind at 1. unfold gets at 1.
  destruct (checkKeys keys st).
  - unfold send. destruct (writable socket); intros [= <- <-]; done.
  - unfold bind at 1.
    destruct (await_keys socket keys 0 st) as [r1 st1] eqn:E.
    destruct (await_keys_spec _ _ _ _ _ _ E) as (n & -> & _).
    unfold modify. intros [= <- <-] Hinv key l.
    cbn [waitingSockets_ tcpStore_ set_keysAwaited].
    rewrite (await_keys_lookup _ _ _ _ _ _ E key).
    rewrite (await_keys_frame tcpStore_ socket keys 0 (λ _ _, eq_refl) _ _ _ E).
    destruct (tcpStore_ st !! key) as [v|] eqn:Hk.
    { intros Hl. destruct (Hinv key l Hl) as [Hn _]. congruence. }
    destruct (length (filter (λ k, k = key) keys)) as [|c].
    { intros Hl. destruct (Hinv key l Hl) as [_ Hne]. done. }
    intros [= <-]. split; [done|].
    intros [_ Hnil]%app_eq_nil. discriminate.
Qed.

End MissingKeys.

Section MissingKeysInvariant.

Variable writable : Z → bool.

Lemma addHandler_carried socket key addVal total st r st' :
  add_total st key addVal = Ok total →
  writable socket = true →
  all_writable writable (waiting_on key st) →
  addHandler writable socket key addVal st = (r, st') →
  wait_overlay st' = wait_overlay (woken key st) ∧
  tcpStore_ st' = <[key := decimal total]> (tcpStore_ st).
Proof.
  intros Ht Hs Hw. unfold add_total in Ht. unfold addHandler.
  unfold bind at 1. unfold gets at 1. unfold bind at 1.
  assert (Hrest : ∀ o,
    (modify (set_tcpStore (λ m, <[key := decimal total]> m)) ;;;
     send writable socket (PInt64 total) ;;;
     wakeupWaitingClients writable key ;;;
     sendKeyUpdatesToClients writable key o (decimal total)) st = (r, st') →
    wait_overlay st' = wait_overlay (woken key st) ∧
    tcpStore_ st' = <[key := decimal total]> (tcpStore_ st)).
  { intros o. unfold bind at 1. unfold modify at 1. unfold bind at 1.
    rewrite send_ok by done. unfold bind at 1.
    rewrite wakeupWaitingClients_ok by done. intros H.
    assert (P : preserves wait_overlay
                  (sendKeyUpdatesToClients writable key o (decimal total)))
      by (unfold sendKeyUpdatesToClients; frame).
    rewrite (P _ _ _ H).
    rewrite (sendKeyUpdatesToClients_tcpStore writable key o _ _ _ _ H).
    rewrite wait_overlay_woken_emits, woken_tcpStore.
    split; [apply wait_overlay_woken_store | done]. }
  destruct (tcpStore_ st !! key) as [stored|].
  - unfold bind at 1, lift.
    destruct (stoll (string_of_list_byte stored)) as [parsed|e]; [|done].
    injection Ht as <-. apply Hrest.
  - injection Ht as <-. apply Hrest.
Qed.

Lemma query_reads_leave_waits socket r :
  written_key r = None → (∀ keys, r ≠ RWait keys) →
  preserves wait_overlay (query writable socket (Request r)).
Proof.
  intros Hr Hnw. destruct r; try discriminate Hr; cbn [query].
  - unfold getHandler. frame.
  - unfold checkHandler. frame.
  - by exfalso; eapply Hnw.
  - unfold getNumKeysHandler. frame.
  - unfold watchHandler. frame.
Qed.

Lemma query_missing_keys socket inc st r st' :
  orderly writable socket inc st →
  (∀ key delta, inc = Request (RAdd key delta) → writable socket = true) →
  query writable socket inc st = (r, st') →
  waits_for_missing_keys st → waits_for_missing_keys st'.
Proof.
  intros Ho Hadd H Hinv.
  assert (Hreads : (∀ r0, inc = Request r0 → written_key r0 = None) →
            (∀ keys, inc ≠ Request (RWait keys)) →
            waits_for_missing_keys st').
  { intros Hr Hnw. apply (waits_for_missing_keys_ext st); [|done].
    assert (Hw : waitingSockets_ st' = waitingSockets_ st).
    { destruct inc as [r0| |]; [|by injection H as <- <-..].
      revert H. apply (preserves_compose wait_overlay fst).
      apply query_reads_leave_waits; [by apply Hr|].
      intros keys ->. by eapply Hnw. }
    assert (Hs : tcpStore_ st' = tcpStore_ st).
    { destruct inc as [r0| |]; [|by injection H as <- <-..].
      by apply (query_reads_only writable socket r0 (Hr r0 eq_refl) _ _ _ H). }
    intros key _. by rewrite Hw, Hs. }
  destruct inc as [[key data|key e d|key|key delta|keys|keys| |key|key]| |];
    try (apply Hreads; [by intros r0 [= <-] | by intros keys' [=]]);
    cbn [query orderly] in *.
  - (* SET *)
    pose proof (setHandler_tcpStore writable _ _ _ _ _ _ H) as Hs.
    pose proof (setHandler_wait_overlay writable _ _ _ _ _ _ Ho H) as Hw.
    apply (f_equal fst) in Hw. cbn [fst wait_overlay] in Hw.
    rewrite waitingSockets_woken in Hw.
    intros k l. rewrite Hw, Hs, lookup_delete.
    case_decide as Hk; [done|]. rewrite lookup_insert_ne by done. apply Hinv.
  - (* COMPARE_SET *)
    apply (waits_for_missing_keys_ext st); [|done]. intros k _.
    assert (Hw : waitingSockets_ st' = waitingSockets_ st).
    { revert H. apply (preserves_compose wait_overlay fst).
      unfold compareSetHandler, sendKeyUpdatesToClients. frame. }
    split; [by rewrite Hw|]. intros Hnone.
    destruct (decide (key = k)) as [->|Hne].
    + revert H. unfold compareSetHandler. unfold bind at 1. unfold gets at 1.
      rewrite Hnone. intros H.
      by rewrite (preserves_send tcpStore_ writable socket _ (λ _ _, eq_refl)
                    _ _ _ H).
    + rewrite <- Hnone.
      by apply (query_writes_its_key writable socket (RCompareSet key e d)
                  key k eq_refl Hne _ _ _ H).
  - (* ADD *)
    destruct (add_total st key delta) as [total|x] eqn:Ht.
    + destruct (addHandler_carried socket key delta total st r st' Ht
                  (Hadd _ _ eq_refl) Ho H) as [Hw Hs].
      apply (f_equal fst) in Hw. cbn [fst wait_overlay] in Hw.
      rewrite waitingSockets_woken in Hw.
      intros k l. rewrite Hw, Hs, lookup_delete.
      case_decide as Hk; [done|]. rewrite lookup_insert_ne by done. apply Hinv.
    + rewrite (addHandler_throws writable socket key delta x st Ht) in H.
      by injection H as <- <-.
  - (* WAIT *)
    by eapply waitHandler_missing_keys.
  - (* DELETE_KEY *)
    apply (waits_for_missing_keys_ext st); [|done]. intros k _.
    assert (Hw : waitingSockets_ st' = waitingSockets_ st).
    { revert H. apply (preserves_compose wait_overlay fst).
      unfold deleteHandler. frame. }
    split; [by rewrite Hw|]. intros Hnone.
    destruct (decide (key = k)) as [->|Hne].
    + revert H. unfold deleteHandler. unfold bind at 1. unfold gets at 1.
      unfold bind at 1. unfold modify at 1. intros H.
      assert (P : preserves tcpStore_
                (send writable socket
                   (PInt64 match tcpStore_ st !! k with
                           | Some _ => 1 | None => 0 end) ;;;
                 modify (set_watchedSockets (delete k)))) by frame.
      rewrite (P _ _ _ H). cbn. apply lookup_delete_eq.
    + rewrite <- Hnone.
      by apply (query_writes_its_key writable socket (RDeleteKey key)
                  key k eq_refl Hne _ _ _ H).
Qed.

End MissingKeysInvariant.

Lemma count_pos_elem socket l : 0 < count socket l → socket ∈ l.
Proof.
  induction l as [|s l IH]; [rewrite count_nil; lia|].
  rewrite count_cons. destruct (decide (s = socket)) as [->|Hne].
  - intros _. apply elem_of_cons. by left.
  - intros H. apply elem_of_cons. right. apply IH. lia.
Qed.

Lemma count_zero_not_elem socket l : count socket l = 0 ↔ socket ∉ l.
Proof.
  split.
  - induction l as [|s l IH]; [intros _; apply not_elem_of_nil|].
    rewrite count_cons. pose proof (count_nonneg socket l) as Hge.
    destruct (decide (s = socket)) as [->|Hne]; [lia|].
    intros Hz. apply not_elem_of_cons. split; [done | apply IH; lia].
  - intros Hnot. pose proof (count_nonneg socket l) as Hge.
    destruct (decide (0 < count socket l)) as [Hp|Hp]; [|lia].
    by apply count_pos_elem in Hp.
Qed.

Lemma occurrences_zero socket m :
  occurrences socket m = 0 ↔ ∀ key l, m !! key = Some l → socket ∉ l.
Proof.
  induction m as [|k l0 m Hk IH] using map_ind.
  - rewrite occurrences_empty. split; [|done].
    intros _ key l. by rewrite lookup_empty.
  - rewrite occurrences_insert_fresh by done.
    pose proof (count_nonneg socket l0) as Hc.
    pose proof (occurrences_nonneg socket m) as Ho. split.
    + intros Hsum key l. rewrite lookup_insert. case_decide as Hd.
      * intros [= <-]. apply count_zero_not_elem. lia.
      * apply IH. lia.
    + intros Hall.
      assert (H1 : count socket l0 = 0).
      { apply count_zero_not_elem, (Hall k). by rewrite lookup_insert_eq. }
      assert (H2 : occurrences socket m = 0).
      { apply IH. intros key l Hl. apply (Hall key).
        rewrite lookup_insert_ne; [done|]. intros ->. congruence. }
      lia.
Qed.

Lemma occurrences_pos_elem socket m :
  0 < occurrences socket m → ∃ key l, m !! key = Some l ∧ socket ∈ l.
Proof.
  intros H. destruct (decide (∃ key l, m !! key = Some l ∧ socket ∈ l));
    [done|].
  exfalso. assert (occurrences socket m = 0); [|lia].
  apply occurrences_zero. intros key l Hl Hin. naive_solver.
Qed.

(** X8.  A daemon that starts up has nobody waiting, and every orderly request
    (an ADD being one whose client takes its reply) keeps it so that every
    key with a wait list is absent from the store and no wait list is
    empty.  Together with the wait-record invariant this means that a
    socket is kept waiting only for a reason: if its remaining-count is
    above zero, it stands in the wait list of a key that is not in the
    store. *)
Theorem nobody_waits_for_a_present_key (writable : Z → bool) (socket : Z)
    (inc : incoming) (st : daemon) :
  waits_for_missing_keys fresh ∧
  (orderly writable socket inc st →
   (∀ key delta, inc = Request (RAdd key delta) → writable socket = true) →
   waits_for_missing_keys st →
   waits_for_missing_keys (dispatch writable socket inc st).2) ∧
  (waits_for_missing_keys st → wait_record st →
   ∀ S, 0 < remaining S st →
     ∃ key l, waitingSockets_ st !! key = Some l ∧ S ∈ l ∧
              tcpStore_ st !! key = None).
Proof.
  split; [|split].
  - intros key l H. cbn in H. by rewrite lookup_empty in H.
  - intros Ho Hadd Hinv. unfold dispatch.
    destruct (query writable socket inc st) as [[[]|e] st'] eqn:E; cbn [snd].
    + by eapply query_missing_keys.
    + apply waits_for_missing_keys_scrub.
      assert (Hq : waits_for_missing_keys st') by (by eapply query_missing_keys).
      exact Hq.
  - intros Hinv Hrec S Hpos. destruct (Hrec S) as [Hr _].
    rewrite Hr in Hpos. apply occurrences_pos_elem in Hpos as (key & l & Hl & Hin).
    exists key, l. split; [done|]. split; [done|]. by eapply Hinv.
Qed.

Lemma nobody_waits_for_a_present_key_witness :
  let st0 := Daemon {["/a" := [x01]]} ∅ ∅ ∅ [7] [] in
  let st := (dispatch all_up 7 (Request (RWait ["/a"; "/b"])) st0).2 in
  orderly all_up 7 (Request (RWait ["/a"; "/b"])) st0 ∧
  waits_for_missing_keys st0 ∧
  waits_for_missing_keys st ∧ wait_record st ∧ 0 < remaining 7 st ∧
  ∃ key l, waitingSockets_ st !! key = Some l ∧ 7 ∈ l ∧
           tcpStore_ st !! key = None.
Proof.
  intros st0 st.
  assert (Ho : orderly all_up 7 (Request (RWait ["/a"; "/b"])) st0).
  { split; [apply occurrences_empty | unfold INT_MAX; simpl; lia]. }
  assert (H0 : waits_for_missing_keys st0).
  { intros key l H. cbn in H. by rewrite lookup_empty in H. }
  assert (H1 : waits_for_missing_keys st).
  { exact (proj1 (proj2 (nobody_waits_for_a_present_key all_up 7
                           (Request (RWait ["/a"; "/b"])) st0))
             Ho (λ _ _ _, eq_refl) H0). }
  assert (H2 : wait_record st).
  { apply dispatch_wait_record; [exact Ho|].
    intros S. unfold remaining. cbn. rewrite lookup_empty, occurrences_empty.
    unfold INT_MAX. simpl. lia. }
  assert (H3 : 0 < remaining 7 st) by (vm_compute; reflexivity).
  split; [exact Ho|]. split; [exact H0|].
  split; [exact H1|]. split; [exact H2|]. split; [exact H3|].
  exact (proj2 (proj2 (nobody_waits_for_a_present_key all_up 7 RecvFailed st))
           H1 H2 7 H3).
Defined.

(** ** The listener *)

Lemma sent_to_wake socket waiting awaited :
  socket ∉ waiting → sent_to socket (wake waiting awaited).2 = [].
Proof.
  revert awaited. induction waiting as [|s l IH]; intros m Hnot; [done|].
  apply not_elem_of_cons in Hnot as [Hne Hnot].
  cbn [wake]. specialize (IH (<[s:=wrap_size (default 0 (m !! s) - 1)]> m) Hnot).
  destruct (wake l _) as [m' es]. cbn [snd] in *.
  rewrite sent_to_app, IH, app_nil_r.
  destruct (_ =? 0); [|done].
  unfold sent_to. cbn. by rewrite bool_decide_eq_false_2 by congruence.
Qed.

Lemma sent_to_notifications socket key o n watching :
  sent_to socket (notifications key o n watching)
  = concat (replicate (registrations socket watching)
              [PWatch KEY_UPDATED; PString key; PVector o; PVector n]).
Proof.
  unfold registrations.
  induction watching as [|s l IH]; [done|].
  unfold notifications in *. cbn [map concat]. rewrite sent_to_app, IH.
  rewrite filter_cons. destruct (decide (s = socket)) as [->|Hne].
  - unfold sent_to, notification. cbn.
    by rewrite !bool_decide_eq_true_2 by done.
  - unfold sent_to, notification. cbn.
    by rewrite !bool_decide_eq_false_2 by done.
Qed.

Lemma ListenThread_run_frames control listenSocket table key o n callback c :
  table !! key = Some callback →
  ListenThread_run (replicate c 0 ++ control) listenSocket table
    (concat (replicate c [PWatch KEY_UPDATED; PString key; PVector o; PVector n]))
  = (replicate c (Call callback (string_of_list_byte o) (string_of_list_byte n))
       ++ (ListenThread_run control listenSocket table []).1,
     (ListenThread_run control listenSocket table []).2).
Proof.
  intros Ht. induction c as [|c IH].
  - cbn [replicate concat app]. by destruct (ListenThread_run _ _ _ _).
  - cbn [replicate concat app ListenThread_run callbackHandler Z.eqb].
    rewrite Ht, IH. done.
Qed.

Lemma registrations_app socket l1 l2 :
  registrations socket (l1 ++ l2)
  = (registrations socket l1 + registrations socket l2)%nat.
Proof. unfold registrations. by rewrite filter_app, length_app. Qed.

Lemma watchKey_state writable listenSocket key callback table st :
  TCPStore_watchKey writable listenSocket key callback table st
  = (<[regularPrefix_ +:+ key := callback]> table,
     set_watchedSockets (push_back (regularPrefix_ +:+ key) listenSocket) st).
Proof. reflexivity. Qed.

(** X9.  Watching end to end.  [watchKey(key, callback)] on a listener, then a
    [set(key, data)] from any client whose wake-ups and notifications go
    through.  Let the listener thread read what the daemon wrote on the
    listen socket in between, pass after pass with no event on its control
    pipe, and let the pipe then be closed.  The thread makes one call per
    registration of the listen socket for the key, the earlier ones
    included, and every one of them calls the callback given last (it
    replaced the earlier ones in the table), with the value the key had
    before as a string (empty if it had none) and the new value as a
    string; then it stops without an exception.  A listen socket that is
    also waiting for the key is excluded: its STOP_WAITING would stand in
    the stream. *)
Theorem watchKey_then_set_calls_back (writable : Z → bool)
    (listenSocket storeSocket : Z) (key : string) (callback : nat)
    (table : gmap string nat) (data : list byte) (st : daemon) :
  let regKey := regularPrefix_ +:+ key in
  let watching := bucket (watchedSockets_ st) regKey in
  let ws := TCPStore_watchKey writable listenSocket key callback table st in
  let st2 := TCPStore_set writable storeSocket key data ws.2 in
  all_writable writable (waiting_on regKey st) →
  all_writable writable watching →
  writable listenSocket = true →
  listenSocket ∉ waiting_on regKey st →
  ListenThread_run
    (replicate (S (registrations listenSocket watching)) 0 ++ [POLLHUP])
    listenSocket ws.1 (heard listenSocket ws.2 st2)
  = (replicate (S (registrations listenSocket watching))
       (Call callback (string_of_list_byte (old_value st regKey))
          (string_of_list_byte data)),
     Stopped).
Proof.
  intros regKey watching ws st2 Hwait Hwatch HL Hnot.
  unfold st2, ws. rewrite watchKey_state. cbn [fst snd]. fold regKey.
  set (st1 := set_watchedSockets (push_back regKey listenSocket) st).
  assert (Hw1 : bucket (watchedSockets_ st1) regKey = watching ++ [listenSocket]).
  { unfold st1. cbn [watchedSockets_ set_watchedSockets].
    apply bucket_push_back. }
  assert (Hset := setHandler_ok writable storeSocket regKey data st1).
  rewrite Hw1 in Hset.
  assert (Hq : setHandler writable storeSocket regKey data st1
    = (Ok tt,
       emits (notifications regKey (old_value st1 regKey) data
                (watching ++ [listenSocket]))
         (set_watchedSockets (λ m, <[regKey := watching ++ [listenSocket]]> m)
            (woken regKey (set_tcpStore (λ m, <[regKey := data]> m) st1))))).
  { apply Hset; [exact Hwait|].
    intros s Hs. apply elem_of_app in Hs as [Hs|Hs]; [by apply Hwatch|].
    apply list_elem_of_singleton in Hs. by subst. }
  unfold TCPStore_set, exchange, dispatch. fold regKey. cbn [query].
  rewrite Hq. cbn [snd]. unfold heard.
  cbn [trace emits set_watchedSockets]. rewrite woken_trace.
  cbn [trace set_tcpStore keysAwaited_].
  rewrite !sent_to_app, <- app_assoc, drop_app_length.
  rewrite sent_to_wake by exact Hnot. cbn [app].
  rewrite sent_to_notifications, registrations_app.
  replace (registrations listenSocket [listenSocket]) with 1%nat
    by (unfold registrations; cbn; by rewrite decide_True).
  replace (registrations listenSocket watching + 1)%nat
    with (S (registrations listenSocket watching)) by lia.
  rewrite (ListenThread_run_frames _ _ _ _ _ _ callback)
    by (by rewrite lookup_insert_eq).
  cbn. by rewrite app_nil_r.
Qed.

Lemma watchKey_then_set_calls_back_witness :
  let st := Daemon {["/k" := [x01]]} ∅ ∅ {["/k" := [5; 9]]} [5; 9; 3] [] in
  let ws := TCPStore_watchKey all_up 5 "k" 2%nat {["/k" := 1%nat]} st in
  ListenThread_run [0; 0; POLLHUP] 5 ws.1
    (heard 5 ws.2 (TCPStore_set all_up 3 "k" [x02] ws.2))
  = ([Call 2 (string_of_list_byte [x01]) (string_of_list_byte [x02]);
      Call 2 (string_of_list_byte [x01]) (string_of_list_byte [x02])], Stopped).
Proof.
  intros st ws.
  apply (watchKey_then_set_calls_back all_up 5 3 "k" 2%nat {["/k" := 1%nat]}
           [x02] st).
  - intros s _. reflexivity.
  - intros s _. reflexivity.
  - reflexivity.
  - vm_compute. apply not_elem_of_nil.
Defined.

(** ** A WAIT and the SETs that answer it *)

Lemma lookup_foldl_delete (m : gmap string (list Z)) ks key :
  foldl (λ m k, delete k m) m ks !! key
  = if decide (key ∈ ks) then None else m !! key.
Proof.
  revert m. induction ks as [|k ks IH]; intros m; cbn [foldl].
  - rewrite decide_False; [done | apply not_elem_of_nil].
  - rewrite IH. destruct (decide (key ∈ ks)) as [Hin|Hnot].
    + rewrite decide_True; [done | by apply elem_of_cons; right].
    + destruct (decide (key = k)) as [->|Hne].
      * rewrite decide_True by (apply elem_of_cons; by left).
        apply lookup_delete_eq.
      * rewrite decide_False.
        { by rewrite lookup_delete_ne. }
        intros Hin. apply elem_of_cons in Hin as [?|?]; done.
Qed.

Lemma remaining_nonneg socket st : wait_record st → 0 <= remaining socket st.
Proof.
  intros H. destruct (H socket) as [-> _]. apply occurrences_nonneg.
Qed.

(** One SET when every send goes through, as a waiting socket sees it. *)
Lemma set_step S s k v st :
  wait_record st →
  let st' := (dispatch all_up s (Request (RSet k v)) st).2 in
  wait_record st' ∧
  waitingSockets_ st' = delete k (waitingSockets_ st) ∧
  remaining S st' = remaining S st - count S (waiting_on k st) ∧
  ∃ es, trace st' = trace st ++ es ∧
    stops S es = if decide (0 < remaining S st ∧
                            remaining S st = count S (waiting_on k st))
                 then 1 else 0.
Proof.
  intros Hrec st'.
  assert (Ho : orderly all_up s (Request (RSet k v)) st) by (by intros ? ?).
  assert (Hq := setHandler_ok all_up s k v st (λ _ _, eq_refl) (λ _ _, eq_refl)).
  assert (Hst : st' = emits (notifications k (old_value st k) v
                               (bucket (watchedSockets_ st) k))
       (set_watchedSockets (λ m, <[k := bucket (watchedSockets_ st) k]> m)
          (woken k (set_tcpStore (λ m, <[k := v]> m) st)))).
  { unfold st', dispatch. cbn [query]. by rewrite Hq. }
  split; [unfold st'; by apply dispatch_wait_record|].
  assert (Hov : wait_overlay st' = wait_overlay (woken k st)).
  { rewrite Hst. unfold wait_overlay.
    cbn [waitingSockets_ keysAwaited_ emits set_watchedSockets].
    apply (wait_overlay_woken_store k _ st). }
  injection Hov as Hws Hka.
  split; [by rewrite Hws, waitingSockets_woken|].
  split.
  { unfold remaining at 1. rewrite Hka.
    apply (remaining_woken k st S Hrec). }
  eexists. split.
  { rewrite Hst. cbn [trace emits set_watchedSockets]. rewrite woken_trace.
    cbn [trace set_tcpStore keysAwaited_]. symmetry. apply app_assoc. }
  rewrite stops_app, stops_notifications, Z.add_0_r.
  change (waiting_on k (set_tcpStore (λ m, <[k := v]> m) st))
    with (waiting_on k st).
  apply wake_stops. by apply wait_record_covers.
Qed.

(** A run of SETs when every send goes through, as a waiting socket sees
    it. *)
Lemma sets_run S sets st :
  wait_record st →
  let st' := handle_all all_up (set_requests sets) st in
  wait_record st' ∧
  waitingSockets_ st'
  = foldl (λ m k, delete k m) (waitingSockets_ st) (set_keys sets) ∧
  remaining S st' <= remaining S st ∧
  ∃ es, trace st' = trace st ++ es ∧
    stops S es = if decide (0 < remaining S st ∧ remaining S st' = 0)
                 then 1 else 0.
Proof.
  revert st. induction sets as [|[[s k] v] sets IH]; intros st Hrec.
  - cbn. split; [done|]. split; [done|]. split; [lia|].
    exists []. split; [by rewrite app_nil_r|].
    rewrite stops_nil. case_decide; [lia | done].
  - cbn [set_requests map handle_all set_keys foldl].
    destruct (set_step S s k v st Hrec) as (Hrec1 & Hws1 & Hr1 & es1 & Ht1 & Hs1).
    set (st1 := (dispatch all_up s (Request (RSet k v)) st).2) in *.
    destruct (IH st1 Hrec1) as (Hrec2 & Hws2 & Hr2 & es2 & Ht2 & Hs2).
    fold (set_requests sets) (set_keys sets).
    set (st2 := handle_all all_up (set_requests sets) st1) in *.
    pose proof (remaining_nonneg S st2 Hrec2) as Hn2.
    pose proof (count_nonneg S (waiting_on k st)) as Hc.
    split; [done|]. split; [by rewrite Hws2, Hws1|]. split; [lia|].
    exists (es1 ++ es2). split; [by rewrite Ht2, Ht1, app_assoc|].
    rewrite stops_app, Hs1, Hs2.
    repeat case_decide; lia.
Qed.

(** Where a WAIT that finds a key missing leaves the wait lists. *)
Lemma waitHandler_lists writable socket keys st :
  checkKeys keys st = false →
  ∃ st', waitHandler writable socket keys st = (Ok tt, st') ∧
    trace st' = trace st ∧
    ∀ key, waitingSockets_ st' !! key
           = match tcpStore_ st !! key,
                   length (filter (λ k, k = key) keys) with
             | None, S c =>
                 Some (bucket (waitingSockets_ st) key
                         ++ replicate (S c) socket)
             | _, _ => waitingSockets_ st !! key
             end.
Proof.
  intros Hc. unfold waitHandler. unfold bind at 1. unfold gets at 1.
  rewrite Hc. unfold bind.
  destruct (await_keys socket keys 0 st) as [r st1] eqn:E.
  destruct (await_keys_spec _ _ _ _ _ _ E) as (n & -> & _).
  eexists. split; [reflexivity|]. unfold modify.
  cbn [trace waitingSockets_ set_keysAwaited].
  split; [apply (await_keys_frame trace socket keys 0 (λ _ _, eq_refl) _ _ _ E)|].
  apply (await_keys_lookup _ _ _ _ _ _ E).
Qed.

Lemma filter_eq_length_pos (key : string) keys :
  key ∈ keys → ∃ c, length (filter (λ k, k = key) keys) = S c.
Proof.
  intros Hin.
  assert (Hf : key ∈ filter (λ k, k = key) keys)
    by (by apply list_elem_of_filter).
  destruct (filter (λ k, k = key) keys) as [|x l]; [|by eexists].
  by apply not_elem_of_nil in Hf.
Qed.

Lemma filter_eq_length_elem (key : string) keys c :
  length (filter (λ k, k = key) keys) = S c → key ∈ keys.
Proof.
  intros Hl. destruct (filter (λ k, k = key) keys) as [|x l] eqn:E; [done|].
  assert (Hx : x ∈ filter (λ k, k = key) keys) by (rewrite E; by left).
  apply list_elem_of_filter in Hx as [-> Hx]. done.
Qed.

Lemma checkKeys_missing keys st :
  checkKeys keys st = false → ∃ key, key ∈ keys ∧ tcpStore_ st !! key = None.
Proof.
  unfold checkKeys. induction keys as [|k keys IH]; [done|].
  cbn [forallb]. destruct (tcpStore_ st !! k) as [v|] eqn:Hk.
  - rewrite bool_decide_eq_true_2 by done. cbn [andb].
    intros (key & Hin & Hnone)%IH. exists key. split; [by right | done].
  - intros _. exists k. split; [by left | done].
Qed.

(** X10.  A WAIT and the SETs after it, when every send goes through.  A socket
    with no entry in a wait list sends WAIT for some keys, and then SETs
    come in, from any sockets and on any keys.  Over all of this the daemon
    writes at most one STOP_WAITING on the socket, and it writes one exactly
    when every key of the WAIT that was missing from the store when the WAIT
    came has been written by one of the SETs: at once if no key is missing,
    by the SET that writes the last missing key otherwise, and never while
    a key of the WAIT is still missing. *)
Theorem wait_is_answered_once (waiter : Z) (keys : list string)
    (sets : list (Z * string * list byte)) (st : daemon) :
  wait_record st →
  occurrences waiter (waitingSockets_ st) = 0 →
  Z.of_nat (length keys) <= INT_MAX →
  let st1 := (dispatch all_up waiter (Request (RWait keys)) st).2 in
  let st2 := handle_all all_up (set_requests sets) st1 in
  ∃ es, trace st2 = trace st ++ es ∧
    (stops waiter es = 0 ∨ stops waiter es = 1) ∧
    (stops waiter es = 1 ↔
     ∀ key, key ∈ keys → tcpStore_ st !! key = None → key ∈ set_keys sets).
Proof.
  intros Hrec Hfree Hlen st1 st2.
  assert (Ho : orderly all_up waiter (Request (RWait keys)) st) by done.
  assert (Hrec1 : wait_record st1) by (by apply dispatch_wait_record).
  destruct (sets_run waiter sets st1 Hrec1) as (Hrec2 & Hws2 & Hr2 & es2 & Ht2 & Hs2).
  fold st2 in Hrec2, Hws2, Hr2, Ht2, Hs2.
  destruct (checkKeys keys st) eqn:Hc.
  - (* every key is there: answered at once *)
    assert (Hst1 : st1 = emits [Sent waiter (PWait STOP_WAITING)] st).
    { unfold st1, dispatch. cbn [query].
      by rewrite (waitHandler_ready all_up waiter keys st Hc eq_refl). }
    assert (Hr1 : remaining waiter st1 = 0).
    { rewrite Hst1. unfold remaining. cbn [keysAwaited_ emits].
      destruct (Hrec waiter) as [Hr _]. unfold remaining in Hr. by rewrite Hr. }
    exists ([Sent waiter (PWait STOP_WAITING)] ++ es2).
    assert (Hstops : stops waiter ([Sent waiter (PWait STOP_WAITING)] ++ es2) = 1).
    { rewrite stops_app, stops_one, decide_True by done. rewrite Hs2.
      rewrite decide_False; lia. }
    split.
    { rewrite Ht2, Hst1. cbn [trace emits]. symmetry. apply app_assoc. }
    split; [by right|]. split; [|done].
    intros _ key Hin Hnone.
    apply (proj1 (checkKeys_spec keys st) Hc) in Hin as [v Hv]. congruence.
  - (* a key is missing: answered by the SETs *)
    destruct (waitHandler_lists all_up waiter keys st Hc) as (st' & Hq & Ht1 & Hl1).
    assert (Hst1 : st1 = st').
    { unfold st1, dispatch. cbn [query]. by rewrite Hq. }
    rewrite <- Hst1 in Ht1, Hl1. clear Hq Hst1 st'.
    assert (Hmine : ∀ key l, waitingSockets_ st1 !! key = Some l →
              waiter ∈ l ↔ key ∈ keys ∧ tcpStore_ st !! key = None).
    { intros key l. rewrite Hl1.
      assert (Hold : ∀ l0, waitingSockets_ st !! key = Some l0 → waiter ∉ l0).
      { intros l0. by apply (proj1 (occurrences_zero waiter _) Hfree). }
      destruct (tcpStore_ st !! key) as [v|] eqn:Hk.
      { intros Hl. split; [by intros ?%(Hold l) | by intros [_ ?]]. }
      destruct (length (filter (λ k, k = key) keys)) as [|c] eqn:Hf.
      { intros Hl. split; [by intros ?%(Hold l)|].
        intros [Hin _]. apply filter_eq_length_pos in Hin as [c Hcc].
        congruence. }
      intros [= <-]. split.
      - intros _. split; [by eapply filter_eq_length_elem | done].
      - intros _. apply elem_of_app. right. by left. }
    assert (Hpos : 0 < remaining waiter st1).
    { assert (Hex : ∃ key, key ∈ keys ∧ tcpStore_ st !! key = None).
      { by apply checkKeys_missing. }
      destruct Hex as (key & Hin & Hnone).
      destruct (Hrec1 waiter) as [-> _].
      pose proof (occurrences_nonneg waiter (waitingSockets_ st1)) as Hge.
      destruct (decide (occurrences waiter (waitingSockets_ st1) = 0)) as [Hz|?];
        [|lia].
      exfalso. pose proof (Hl1 key) as Hl. rewrite Hnone in Hl.
      destruct (filter_eq_length_pos key keys Hin) as [c Hcc].
      rewrite Hcc in Hl.
      apply (proj1 (occurrences_zero waiter _) Hz key _ Hl).
      apply elem_of_app. right. by left. }
    assert (Hzero : remaining waiter st2 = 0 ↔
              ∀ key, key ∈ keys → tcpStore_ st !! key = None →
                     key ∈ set_keys sets).
    { destruct (Hrec2 waiter) as [-> _]. rewrite occurrences_zero, Hws2. split.
      - intros H key Hin Hnone.
        destruct (decide (key ∈ set_keys sets)) as [?|Hnot]; [done|].
        exfalso. pose proof (Hl1 key) as Hl. rewrite Hnone in Hl.
        destruct (filter_eq_length_pos key keys Hin) as [c Hcc].
        rewrite Hcc in Hl.
        apply (H key (bucket (waitingSockets_ st) key ++ replicate (S c) waiter)).
        + by rewrite lookup_foldl_delete, decide_False.
        + apply elem_of_app. right. by left.
      - intros H key l. rewrite lookup_foldl_delete.
        destruct (decide (key ∈ set_keys sets)) as [Hin|Hnot]; [done|].
        intros Hl HS. apply (Hmine key l Hl) in HS as [Hin Hnone].
        by apply Hnot, H. }
    exists es2. split; [by rewrite Ht2, Ht1|].
    rewrite Hs2, <- Hzero. case_decide as Hd.
    + destruct Hd as [_ Hz]. split; [by right|]. by split.
    + split; [by left|]. split; [lia|]. intros Hz. lia.
Qed.

Lemma wait_is_answered_once_witness :
  let st := Daemon {["/a" := [x01]]} ∅ ∅ ∅ [7; 3] [] in
  let st1 := (dispatch all_up 7 (Request (RWait ["/a"; "/b"])) st).2 in
  let st2 := handle_all all_up (set_requests [(3, "/b", [x02])]) st1 in
  wait_record st ∧ occurrences 7 (waitingSockets_ st) = 0 ∧
  ∃ es, trace st2 = trace st ++ es ∧
    (stops 7 es = 0 ∨ stops 7 es = 1) ∧
    (stops 7 es = 1 ↔
     ∀ key, key ∈ ["/a"; "/b"] → tcpStore_ st !! key = None →
            key ∈ set_keys [(3, "/b", [x02])]).
Proof.
  intros st st1 st2.
  assert (H1 : wait_record st).
  { intros S. unfold remaining. cbn. rewrite lookup_empty, occurrences_empty.
    unfold INT_MAX. simpl. lia. }
  assert (H2 : occurrences 7 (waitingSockets_ st) = 0) by apply occurrences_empty.
  split; [exact H1|]. split; [exact H2|].
  apply (wait_is_answered_once 7 ["/a"; "/b"] [(3, "/b", [x02])] st H1 H2).
  unfold INT_MAX. simpl. lia.
Defined.

(** ** Whom a request writes to *)

Section Confined.

Context {I : daemon → Prop} {P : effect → Prop}.

Lemma confined_ret {A} (a : A) : confined I P (ret a).
Proof.
  intros st r st' HI [= <- <-]. split; [done|].
  exists []. split; [by rewrite app_nil_r | constructor].
Qed.

Lemma confined_throw {A} e : confined I P (throw (A:=A) e).
Proof.
  intros st r st' HI [= <- <-]. split; [done|].
  exists []. split; [by rewrite app_nil_r | constructor].
Qed.

Lemma confined_lift {A} (x : result A) : confined I P (lift x).
Proof.
  intros st r st' HI [= <- <-]. split; [done|].
  exists []. split; [by rewrite app_nil_r | constructor].
Qed.

Lemma confined_modify f :
  (∀ st, I st → I (f st)) → (∀ st, trace (f st) = trace st) →
  confined I P (modify f).
Proof.
  intros Hf Ht st r st' HI [= <- <-]. split; [by apply Hf|].
  exists []. split; [by rewrite app_nil_r, Ht | constructor].
Qed.

Lemma confined_bind {A B} (m : M A) (k : A → M B) :
  confined I P m → (∀ a, confined I P (k a)) → confined I P (bind m k).
Proof.
  intros Hm Hk st r st' HI. unfold bind.
  destruct (m st) as [[a|e] st1] eqn:E.
  - intros H2. destruct (Hm _ _ _ HI E) as (HI1 & es1 & Ht1 & HP1).
    destruct (Hk a _ _ _ HI1 H2) as (HI2 & es2 & Ht2 & HP2).
    split; [done|]. exists (es1 ++ es2).
    split; [by rewrite Ht2, Ht1, app_assoc | by apply Forall_app].
  - intros [= <- <-]. by apply (Hm _ _ _ HI E).
Qed.

Lemma confined_gets_bind {A B} (Q : A → Prop) (f : daemon → A) (k : A → M B) :
  (∀ st, I st → Q (f st)) → (∀ v, Q v → confined I P (k v)) →
  confined I P (bind (gets f) k).
Proof.
  intros HQ Hk st r st' HI. unfold bind, gets.
  by apply (Hk (f st) (HQ st HI) st r st' HI).
Qed.

Lemma confined_for_each {A} (l : list A) body :
  (∀ x, x ∈ l → confined I P (body x)) → confined I P (for_each l body).
Proof.
  induction l as [|x l IH]; intros H; cbn [for_each].
  - apply confined_ret.
  - apply confined_bind; [apply H; by left|].
    intros _. apply IH. intros y Hy. apply H. by right.
Qed.

Hypothesis I_emit : ∀ e st, I st → I (emit e st).

Lemma confined_send writable socket p :
  P (Sent socket p) → confined I P (send writable socket p).
Proof.
  intros HP st r st' HI. unfold send.
  destruct (writable socket); intros [= <- <-].
  - split; [by apply I_emit|]. exists [Sent socket p].
    split; [done | by repeat constructor].
  - split; [done|]. exists []. split; [by rewrite app_nil_r | constructor].
Qed.

End Confined.

Section WritesOfKeyedRequests.

Variable writable : Z → bool.
Variables (socket : Z) (key : string) (W V : list Z).

Local Abbreviation I := (listed key W V).
Local Abbreviation P := (written socket (W ++ V)).

Lemma listed_emit e st : I st → I (emit e st).
Proof. done. Qed.

Lemma to_requester p : confined I P (send writable socket p).
Proof. apply confined_send; [apply listed_emit | by left]. Qed.

Lemma wakeupWaitingClients_confined :
  confined I P (wakeupWaitingClients writable key).
Proof.
  unfold wakeupWaitingClients.
  apply (confined_gets_bind
           (λ v, ∀ waiting, v = Some waiting → ∀ s, s ∈ waiting → s ∈ W)).
  { intros st [HW _] waiting Hl s Hs. apply HW.
    unfold waiting_on, bucket. by rewrite Hl. }
  intros [waiting|] HQ; [|apply confined_ret].
  apply confined_bind.
  - apply confined_for_each. intros s Hs. apply confined_bind.
    + intros st r st' HI [= <- <-]. split; [done|].
      exists []. split; [by rewrite app_nil_r | constructor].
    + intros n. destruct (n =? 0); [|apply confined_ret].
      apply confined_send; [apply listed_emit|].
      right. apply elem_of_app. left. by apply (HQ waiting).
  - intros _. apply confined_modify; [|done].
    intros st [HW HV]. split; [|done].
    intros s. unfold waiting_on. cbn [waitingSockets_ set_waitingSockets].
    rewrite bucket_delete, decide_True by done. by intros ?%not_elem_of_nil.
Qed.

Lemma sendKeyUpdatesToClients_confined o n :
  confined I P (sendKeyUpdatesToClients writable key o n).
Proof.
  unfold sendKeyUpdatesToClients.
  apply (confined_gets_bind (λ v, ∀ s, s ∈ v → s ∈ V)).
  { by intros st [_ HV]. }
  intros watching HQ. apply confined_bind.
  - apply confined_modify; [|done].
    intros st [HW HV]. split; [done|].
    intros s. cbn [watchedSockets_ set_watchedSockets].
    rewrite bucket_insert, decide_True by done. apply HQ.
  - intros _. apply confined_for_each. intros s Hs.
    assert (HP : ∀ p, P (Sent s p)).
    { intros p. right. apply elem_of_app. right. by apply HQ. }
    unfold sendKeyUpdate.
    repeat (apply confined_bind; [|intros _]);
      (apply confined_send; [apply listed_emit | apply HP]).
Qed.

Lemma store_confined f : confined I P (modify (set_tcpStore f)).
Proof. by apply confined_modify. Qed.

Lemma setHandler_confined data :
  confined I P (setHandler writable socket key data).
Proof.
  unfold setHandler.
  apply (confined_gets_bind (λ _, True)); [done|]. intros o _.
  apply confined_bind; [apply store_confined|]. intros _.
  apply confined_bind; [apply wakeupWaitingClients_confined|]. intros _.
  apply sendKeyUpdatesToClients_confined.
Qed.

Lemma compareSetHandler_confined currentValue newValue :
  confined I P (compareSetHandler writable socket key currentValue newValue).
Proof.
  unfold compareSetHandler.
  apply (confined_gets_bind (λ _, True)); [done|]. intros [stored|] _;
    [|apply to_requester].
  destruct (bool_decide (stored = currentValue)); [|apply to_requester].
  apply confined_bind; [apply store_confined|]. intros _.
  apply confined_bind; [apply sendKeyUpdatesToClients_confined|]. intros _.
  apply to_requester.
Qed.

Lemma addHandler_confined addVal :
  confined I P (addHandler writable socket key addVal).
Proof.
  unfold addHandler.
  apply (confined_gets_bind (λ _, True)); [done|]. intros found _.
  apply confined_bind.
  { destruct found as [stored|]; [|apply confined_ret].
    apply confined_bind; [apply confined_lift | intros; apply confined_ret]. }
  intros [o total].
  apply confined_bind; [apply store_confined|]. intros _.
  apply confined_bind; [apply to_requester|]. intros _.
  apply confined_bind; [apply wakeupWaitingClients_confined|]. intros _.
  apply sendKeyUpdatesToClients_confined.
Qed.

Lemma deleteHandler_confined :
  confined I P (deleteHandler writable socket key).
Proof.
  unfold deleteHandler.
  apply (confined_gets_bind (λ _, True)); [done|]. intros n _.
  apply confined_bind; [apply store_confined|]. intros _.
  apply confined_bind; [apply to_requester|]. intros _.
  apply confined_modify; [|done].
  intros st [HW HV]. split; [done|].
  intros s. cbn [watchedSockets_ set_watchedSockets].
  rewrite bucket_delete, decide_True by done. by intros ?%not_elem_of_nil.
Qed.

End WritesOfKeyedRequests.

Section WritesOfTheOtherRequests.

Variable writable : Z → bool.
Variable socket : Z.

Local Abbreviation I := (λ _ : daemon, True).
Local Abbreviation P := (written socket []).

Lemma reply_confined p : confined I P (send writable socket p).
Proof. apply confined_send; [done | by left]. Qed.

Lemma getHandler_confined key : confined I P (getHandler writable socket key).
Proof.
  unfold getHandler.
  apply (confined_gets_bind (λ _, True)); [done|].
  intros [data|] _; [apply reply_confined | apply confined_throw].
Qed.

Lemma getNumKeysHandler_confined :
  confined I P (getNumKeysHandler writable socket).
Proof.
  unfold getNumKeysHandler.
  apply (confined_gets_bind (λ _, True)); [done|].
  intros n _. apply reply_confined.
Qed.

Lemma checkHandler_confined keys :
  confined I P (checkHandler writable socket keys).
Proof.
  unfold checkHandler.
  apply (confined_gets_bind (λ _, True)); [done|].
  intros [] _; apply reply_confined.
Qed.

Lemma await_keys_confined keys n : confined I P (await_keys socket keys n).
Proof.
  revert n. induction keys as [|k keys IH]; intros n; cbn [await_keys].
  - apply confined_ret.
  - apply (confined_gets_bind (λ _, True)); [done|].
    intros [v|] _; [apply IH|].
    apply confined_bind; [by apply confined_modify | intros _; apply IH].
Qed.

Lemma waitHandler_confined keys :
  confined I P (waitHandler writable socket keys).
Proof.
  unfold waitHandler.
  apply (confined_gets_bind (λ _, True)); [done|].
  intros [] _; [apply reply_confined|].
  apply confined_bind; [apply await_keys_confined|].
  intros n. by apply confined_modify.
Qed.

Lemma watchHandler_confined key : confined I P (watchHandler socket key).
Proof. unfold watchHandler. by apply confined_modify. Qed.

End WritesOfTheOtherRequests.

Lemma query_confined writable socket inc st r st' :
  query writable socket inc st = (r, st') →
  ∃ es, trace st' = trace st ++ es ∧
        Forall (written socket (concerned inc st)) es.
Proof.
  intros H.
  assert (Hkeyed : ∀ key (m : M unit),
            confined (listed key (waiting_on key st)
                        (bucket (watchedSockets_ st) key))
              (written socket
                 (waiting_on key st ++ bucket (watchedSockets_ st) key)) m →
            m st = (r, st') →
            ∃ es, trace st' = trace st ++ es ∧
              Forall (written socket
                 (waiting_on key st ++ bucket (watchedSockets_ st) key)) es).
  { intros key m Hm Hrun. by apply (Hm st r st'). }
  assert (Hplain : ∀ m : M unit,
            confined (λ _, True) (written socket []) m →
            m st = (r, st') →
            ∃ es, trace st' = trace st ++ es ∧
                  Forall (written socket []) es).
  { intros m Hm Hrun. by apply (Hm st r st'). }
  destruct inc as [[]| |]; cbn [query concerned written_key] in *.
  - by eapply Hkeyed; [apply setHandler_confined|].
  - by eapply Hkeyed; [apply compareSetHandler_confined|].
  - by eapply Hplain; [apply getHandler_confined|].
  - by eapply Hkeyed; [apply addHandler_confined|].
  - by eapply Hplain; [apply checkHandler_confined|].
  - by eapply Hplain; [apply waitHandler_confined|].
  - by eapply Hplain; [apply getNumKeysHandler_confined|].
  - by eapply Hplain; [apply watchHandler_confined|].
  - by eapply Hkeyed; [apply deleteHandler_confined|].
  - by eapply Hplain; [apply confined_throw|].
  - by eapply Hplain; [apply confined_throw|].
Qed.

Lemma written_addressed socket others es :
  Forall (written socket others) es → Forall (addressed socket others) es.
Proof.
  intros H. eapply List.Forall_impl; [|exact H]. by intros [| |].
Qed.

(** X11.  Whom the daemon writes to.  Whatever a socket sends and whichever sends
    fail, handling it appends to the trace only bytes for that socket, bytes
    for sockets that, when the request came, were waiting for the key it
    writes or watching it (none for a request that writes no key), and the
    closing of that socket; no other socket is written to or closed, and
    nothing is accepted. *)
Theorem replies_stay_with_those_concerned (writable : Z → bool) (socket : Z)
    (inc : incoming) (st : daemon) :
  ∃ es, trace (dispatch writable socket inc st).2 = trace st ++ es ∧
        Forall (addressed socket (concerned inc st)) es.
Proof.
  unfold dispatch.
  destruct (query writable socket inc st) as [[[]|e] st'] eqn:E; cbn [snd];
    destruct (query_confined _ _ _ _ _ _ E) as (es & Ht & HP).
  - exists es. split; [done | by apply written_addressed].
  - exists (es ++ [Closed socket]). split.
    + cbn [trace scrub closeSocket emit set_keysAwaited set_watchedSockets
           set_waitingSockets]. by rewrite Ht, app_assoc.
    + apply Forall_app. split; [by apply written_addressed|].
      by repeat constructor.
Qed.

(** ** Waiting for the workers *)

Lemma stoi_decimal z :
  INT_MIN <= z <= INT_MAX → stoi (string_of_list_byte (decimal z)) = Ok z.
Proof.
  unfold INT_MIN, INT_MAX. intros Hz. unfold stoi.
  rewrite stoll_decimal by (unfold in_int64, INT64_MIN, INT64_MAX; lia).
  unfold INT_MIN, INT_MAX.
  replace (- 2 ^ 31 <=? z) with true by (symmetry; apply Z.leb_le; lia).
  replace (z <=? 2 ^ 31 - 1) with true by (symmetry; apply Z.leb_le; lia).
  done.
Qed.

Lemma getHelper_present writable storeSocket key data st :
  tcpStore_ st !! key = Some data → writable storeSocket = true →
  TCPStore_getHelper_ writable storeSocket key st
  = (Some data,
     emits [Sent storeSocket (PVector data)]
       (emits [Sent storeSocket (PWait STOP_WAITING)] st)).
Proof.
  intros Hk Hs.
  assert (Hc : checkKeys [key] st = true).
  { apply checkKeys_spec. intros k' ->%list_elem_of_singleton. by rewrite Hk. }
  unfold TCPStore_getHelper_, TCPStore_waitHelper_.
  pose proof (waitHandler_ready writable storeSocket [key] st Hc Hs) as H.
  erewrite exchange_reply; [|apply dispatch_Ok; exact H|reflexivity].
  rewrite sent_to_self.
  set (st2 := emits _ st).
  assert (Hk2 : tcpStore_ st2 !! key = Some data) by exact Hk.
  pose proof (getHandler_present writable storeSocket key data st2 Hk2 Hs) as Hg.
  erewrite exchange_reply; [|apply dispatch_Ok; exact Hg|reflexivity].
  by rewrite sent_to_self.
Qed.

Lemma add_one storeSocket key c st :
  0 <= c → c + 1 <= INT_MAX →
  (c = 0 ∧ tcpStore_ st !! key = None) ∨
  tcpStore_ st !! key = Some (decimal c) →
  ∃ st', addHandler all_up storeSocket key 1 st = (Ok tt, st') ∧
    TCPStore_addHelper_ all_up storeSocket key 1 st = (Some (c + 1), st') ∧
    tcpStore_ st' !! key = Some (decimal (c + 1)).
Proof.
  unfold INT_MAX. intros H0 Hmax Hcase.
  assert (Ht : add_total st key 1 = Ok (c + 1)).
  { destruct Hcase as [[-> Hk]|Hk].
    - by rewrite (add_total_absent st key 1 Hk).
    - rewrite (add_total_parsed st key 1 _ c Hk).
      + rewrite wrap64_id; [f_equal; lia|].
        unfold in_int64, INT64_MIN, INT64_MAX. lia.
      + apply stoll_decimal. unfold in_int64, INT64_MIN, INT64_MAX. lia. }
  destruct (add_step all_up storeSocket key 1 _ st Ht eq_refl
              (λ _ _, eq_refl) (λ _ _, eq_refl)) as (st' & H1 & H2 & H3 & _).
  by exists st'.
Qed.

Lemma arrivals_counted workers c st :
  0 <= c → c + Z.of_nat (length workers) <= INT_MAX →
  tcpStore_ st !! initKey_ = Some (decimal c) →
  tcpStore_ (handle_all all_up (arrivals workers) st) !! initKey_
  = Some (decimal (c + Z.of_nat (length workers))).
Proof.
  revert c st. induction workers as [|w workers IH]; intros c st H0 Hmax Hk.
  - cbn. by rewrite Z.add_0_r.
  - cbn [arrivals map handle_all length] in *.
    destruct (add_one w initKey_ c st H0 ltac:(lia) (or_intror Hk))
      as (st' & Hq & _ & Hk').
    rewrite (dispatch_Ok all_up w (Request (RAdd initKey_ 1)) st st' Hq).
    cbn [snd].
    fold (arrivals workers). rewrite (IH (c + 1) st') by (done || lia).
    do 2 f_equal. lia.
Qed.

Lemma waitForWorkers_loop_counts storeSocket numWorkers arriving c st :
  0 <= c → c + Z.of_nat (length (concat arriving)) <= INT_MAX →
  tcpStore_ st !! initKey_ = Some (decimal c) →
  (waitForWorkers_loop all_up storeSocket (Some numWorkers)
     (before_timeout arriving) st).1
  = if enough numWorkers c arriving then AllThere else StillWaiting.
Proof.
  revert c st. induction arriving as [|workers arriving IH];
    intros c st H0 Hmax Hk; [done|].
  cbn [concat] in Hmax. rewrite length_app in Hmax.
  cbn [before_timeout map waitForWorkers_loop enough].
  rewrite (getHelper_present all_up storeSocket initKey_ _ st Hk eq_refl).
  rewrite stoi_decimal by (unfold INT_MIN; lia).
  change (default (-1) (Some numWorkers)) with numWorkers.
  destruct (numWorkers <=? c); [done|]. cbn [orb].
  fold (before_timeout arriving).
  apply IH; [lia | lia |].
  apply arrivals_counted; [done | lia | done].
Qed.

(** X12.  Waiting for the workers, when every send goes through and the workers
    are few enough for an [int].  Let [c] workers have added their one to
    [initKey_] (the key is absent while none has).  A client that is no
    server adds its one and returns.  The server adds its one and then,
    pass by pass, reads the count back: it ends the loop at the first pass
    at which the count has reached [numWorkers], the count being [c + 1]
    and the workers whose ADD the daemon handled during the sleeps before
    that pass; while the count is below [numWorkers] and the timeout has
    not passed it stays in the loop, and no pass throws or goes without a
    reply. *)
Theorem waitForWorkers_counts_the_workers (storeSocket numWorkers c : Z)
    (arriving : list (list Z)) (st : daemon) :
  0 <= c →
  c + 1 + Z.of_nat (length (concat arriving)) <= INT_MAX →
  (c = 0 ∧ tcpStore_ st !! initKey_ = None) ∨
  tcpStore_ st !! initKey_ = Some (decimal c) →
  (TCPStore_waitForWorkers all_up storeSocket true (Some numWorkers)
     (before_timeout arriving) st).1
  = Some (if enough numWorkers (c + 1) arriving then AllThere
          else StillWaiting) ∧
  ∃ st', TCPStore_waitForWorkers all_up storeSocket false (Some numWorkers)
           (before_timeout arriving) st = (None, st') ∧
         tcpStore_ st' !! initKey_ = Some (decimal (c + 1)).
Proof.
  intros H0 Hmax Hcase.
  destruct (add_one storeSocket initKey_ c st H0 ltac:(lia) Hcase)
    as (st' & _ & Hadd & Hk).
  unfold TCPStore_waitForWorkers. rewrite Hadd. split.
  - pose proof (waitForWorkers_loop_counts storeSocket numWorkers arriving
                  (c + 1) st' ltac:(lia) ltac:(lia) Hk) as Hloop.
    destruct (waitForWorkers_loop all_up storeSocket (Some numWorkers)
                (before_timeout arriving) st') as [w st2].
    cbn [fst] in *. by rewrite Hloop.
  - by exists st'.
Qed.

Lemma waitForWorkers_counts_the_workers_witness :
  (TCPStore_waitForWorkers all_up 4 true (Some 3)
     (before_timeout [[]; [5]; [6]; []]) fresh).1 = Some AllThere ∧
  (TCPStore_waitForWorkers all_up 4 true (Some 3)
     (before_timeout [[]; [5]]) fresh).1 = Some StillWaiting.
Proof.
  split.
  - apply (waitForWorkers_counts_the_workers 4 3 0 [[]; [5]; [6]; []] fresh).
    + lia.
    + unfold INT_MAX. simpl. lia.
    + left. split; [reflexivity | apply lookup_empty].
  - apply (waitForWorkers_counts_the_workers 4 3 0 [[]; [5]] fresh).
    + lia.
    + unfold INT_MAX. simpl. lia.
    + left. split; [reflexivity | apply lookup_empty].
Defined.

(** ** Racing [compareSet] calls *)

Section Race.

Variable writable : Z → bool.



Lemma sent_to_others socket key o n watching :
  socket ∉ watching → sent_to socket (notifications key o n watching) = [].
Proof.
  intros Hnot. rewrite sent_to_notifications.
  replace (registrations socket watching) with 0%nat; [done|].
  unfold registrations. symmetry. apply length_zero_iff_nil.
  induction watching as [|s l IH]; [done|].
  apply not_elem_of_cons in Hnot as [Hne Hnot].
  rewrite filter_cons, decide_False by congruence. by apply IH.
Qed.




End Race.



(** ** Connections are closed once *)

Lemma accepted_app s t1 t2 :
  accepted s (t1 ++ t2) = accepted s t1 + accepted s t2.
Proof. unfold accepted. rewrite filter_app, length_app. lia. Qed.

Lemma closed_app s t1 t2 : closed s (t1 ++ t2) = closed s t1 + closed s t2.
Proof. unfold closed. rewrite filter_app, length_app. lia. Qed.

Lemma written_no_connection socket others es s :
  Forall (written socket others) es → accepted s es = 0 ∧ closed s es = 0.
Proof.
  induction es as [|e es IH]; [done|].
  intros [He Hes]%List.Forall_cons_iff. destruct (IH Hes) as [Ha Hc].
  destruct e as [s' p| |]; [|done|done].
  unfold accepted, closed in *. rewrite !filter_cons.
  rewrite !decide_False by discriminate. done.
Qed.

Lemma closed_one s socket :
  closed s [Closed socket] = if decide (socket = s) then 1 else 0.
Proof.
  unfold closed. rewrite filter_cons, filter_nil.
  case_decide as H1; case_decide as H2; try done; congruence.
Qed.

Lemma accepted_one s socket :
  accepted s [Accepted socket] = if decide (socket = s) then 1 else 0.
Proof.
  unfold accepted. rewrite filter_cons, filter_nil.
  case_decide as H1; case_decide as H2; try done; congruence.
Qed.

(** What handling one request does to the connections. *)
Lemma dispatch_connections writable socket inc st s :
  accepted s (trace (dispatch writable socket inc st).2) = accepted s (trace st) ∧
  closed s (trace (dispatch writable socket inc st).2)
  = closed s (trace st)
    + (if (dispatch writable socket inc st).1
       then if decide (socket = s) then 1 else 0 else 0).
Proof.
  unfold dispatch.
  destruct (query writable socket inc st) as [[[]|e] st'] eqn:E;
    cbn [fst snd];
    destruct (query_confined _ _ _ _ _ _ E) as (es & Ht & HP);
    destruct (written_no_connection _ _ _ s HP) as [Ha Hc].
  - rewrite Ht, accepted_app, closed_app. lia.
  - cbn [trace scrub closeSocket emit set_keysAwaited set_watchedSockets
         set_waitingSockets].
    rewrite Ht, !accepted_app, !closed_app, closed_one.
    change (accepted s [Closed socket]) with 0. lia.
Qed.

Lemma erase_socket pre p todo (l : list Z) s :
  (CONNECT_SOCKET_OFFSET <= length pre)%nat →
  map fd (drop CONNECT_SOCKET_OFFSET (pre ++ p :: todo)) = l →
  delete (length pre - CONNECT_SOCKET_OFFSET)%nat l
  = map fd (drop CONNECT_SOCKET_OFFSET (pre ++ todo)) ∧
  count s (delete (length pre - CONNECT_SOCKET_OFFSET)%nat l)
  = count s l - (if decide (fd p = s) then 1 else 0).
Proof.
  intros Hlen <-.
  rewrite !drop_app_le by done. rewrite !map_app. cbn [map].
  replace (length pre - CONNECT_SOCKET_OFFSET)%nat
    with (length (map fd (drop CONNECT_SOCKET_OFFSET pre)))
    by (rewrite length_map, length_drop; lia).
  rewrite delete_middle. split; [done|].
  rewrite !count_app, count_cons. lia.
Qed.

Lemma queryFds_from_balanced w todo pre st :
  (CONNECT_SOCKET_OFFSET <= length pre)%nat →
  map fd (drop CONNECT_SOCKET_OFFSET (pre ++ todo)) = sockets_ st →
  balanced st →
  balanced (queryFds_from w todo (length pre) (pre ++ todo) st).2.
Proof.
  revert pre st. induction todo as [|p todo IH]; intros pre st Hlen Hs Hb;
    [done|].
  cbn [queryFds_from].
  assert (Hnext : ∀ st', sockets_ st' = sockets_ st → balanced st' →
    balanced (queryFds_from w todo (S (length pre)) (pre ++ p :: todo) st').2).
  { intros st' Hst' Hb'.
    replace (pre ++ p :: todo) with ((pre ++ [p]) ++ todo)
      by (by rewrite <- app_assoc).
    replace (S (length pre)) with (length (pre ++ [p]))
      by (rewrite length_app; simpl; lia).
    apply IH; [rewrite length_app; lia | | done].
    rewrite <- app_assoc. by rewrite Hst'. }
  destruct (revents p =? 0); [by apply Hnext|].
  pose proof (dispatch_sockets (w_writable w) (fd p) (w_inbox w (fd p)) st)
    as Hd.
  pose proof (dispatch_connections (w_writable w) (fd p) (w_inbox w (fd p)) st)
    as Hc.
  destruct (dispatch _ _ _ st) as [[] st']; cbn [fst snd] in Hd, Hc.
  - rewrite delete_middle. rewrite <- Hd in Hs.
    apply IH; [done| |].
    + cbn [sockets_ set_sockets].
      symmetry. apply (erase_socket pre p todo (sockets_ st') 0 Hlen Hs).
    + intros s. cbn [sockets_ set_sockets trace].
      destruct (Hc s) as [-> ->].
      rewrite (proj2 (erase_socket pre p todo (sockets_ st') s Hlen Hs)).
      rewrite Hd. specialize (Hb s). lia.
  - apply Hnext; [done|]. intros s. destruct (Hc s) as [-> ->].
    rewrite Hd. specialize (Hb s). lia.
Qed.

Lemma queryFds_balanced w fds st :
  in_sync fds st → balanced st → balanced (queryFds w fds st).2.
Proof.
  intros [Hlen Hs] Hb. unfold queryFds.
  assert (Hl : length (take CONNECT_SOCKET_OFFSET fds) = CONNECT_SOCKET_OFFSET)
    by (rewrite length_take; lia).
  pose proof (queryFds_from_balanced w (drop CONNECT_SOCKET_OFFSET fds)
                (take CONNECT_SOCKET_OFFSET fds) st) as H.
  rewrite Hl, take_drop in H. apply H; [lia | exact Hs | exact Hb].
Qed.

Lemma run_pass_balanced w storeListenSocket fds st :
  in_sync fds st → balanced st →
  balanced (run_pass w storeListenSocket fds st).2.
Proof.
  intros Hsync Hb. unfold run_pass.
  set (polled := poll w (clear_revents (length (sockets_ st)) fds)).
  assert (Hp : in_sync polled st).
  { eapply in_sync_fds; [|exact Hsync]. unfold polled.
    by rewrite poll_fd, clear_revents_fd. }
  assert (Ha : in_sync (addPollfd polled (w_accept w) POLLIN)
                 (set_sockets (λ l, l ++ [w_accept w])
                    (emit (Accepted (w_accept w)) st))).
  { destruct Hp as [Hlen Hs]. unfold addPollfd. split.
    - rewrite length_app. lia.
    - cbn [sockets_ set_sockets emit]. rewrite drop_app_le by done.
      rewrite map_app, Hs. done. }
  assert (Hba : balanced (set_sockets (λ l, l ++ [w_accept w])
                            (emit (Accepted (w_accept w)) st))).
  { intros s. cbn [sockets_ set_sockets emit trace].
    rewrite accepted_app, closed_app, count_app, accepted_one.
    change (closed s [Accepted (w_accept w)]) with 0.
    rewrite count_cons, count_nil. specialize (Hb s). lia. }
  assert (Hrest : ∀ fds1 st1, in_sync fds1 st1 → balanced st1 →
    balanced
      (if revents_at fds1 1 =? 0
       then let '(fds2, st2) := queryFds w fds1 st1 in (Continue, fds2, st2)
       else if Z.lxor (revents_at fds1 1) POLLHUP =? 0
            then (Finished, fds1, st1)
            else (Aborted (system_error (revents_at fds1 1)), fds1, st1)).2).
  { intros fds1 st1 H1 Hb1. destruct (revents_at fds1 1 =? 0).
    - pose proof (queryFds_balanced w fds1 st1 H1 Hb1) as Hq.
      by destruct (queryFds w fds1 st1).
    - by destruct (Z.lxor (revents_at fds1 1) POLLHUP =? 0). }
  destruct (revents_at polled 0 =? 0); [by apply Hrest|].
  destruct (Z.lxor (revents_at polled 0) POLLIN =? 0); [by apply Hrest|done].
Qed.

Lemma run_loop_balanced ws storeListenSocket fds st :
  in_sync fds st → balanced st →
  balanced (run_loop ws storeListenSocket fds st).2.
Proof.
  revert fds st. induction ws as [|w ws IH]; intros fds st H Hb; [done|].
  cbn [run_loop].
  pose proof (run_pass_in_sync w storeListenSocket fds st H) as Hp.
  pose proof (run_pass_balanced w storeListenSocket fds st H Hb) as Hpb.
  destruct (run_pass w storeListenSocket fds st) as [[[] fds'] st'];
    cbn [fst snd] in *; [by apply IH | done | done].
Qed.

Lemma closes_connections (l : list Z) s :
  accepted s (map Closed (filter (λ socket, socket ≠ -1) l)) = 0 ∧
  closed s (map Closed (filter (λ socket, socket ≠ -1) l))
  = if decide (s = -1) then 0 else count s l.
Proof.
  induction l as [|x l [IHa IHc]].
  - rewrite count_nil. split; [done | by case_decide].
  - rewrite filter_cons, count_cons.
    destruct (decide (x ≠ -1)) as [Hx|Hx].
    + cbn [map].
      change (Closed x :: map Closed (filter (λ socket, socket ≠ -1) l))
        with ([Closed x] ++ map Closed (filter (λ socket, socket ≠ -1) l)).
      rewrite accepted_app, closed_app, closed_one, IHa, IHc.
      change (accepted s [Closed x]) with 0.
      split; [lia|].
      destruct (decide (s = -1)) as [Hs|Hs];
        destruct (decide (x = s)) as [Hxs|Hxs]; simpl; lia.
    + rewrite IHa, IHc. split; [done|].
      destruct (decide (s = -1)) as [Hs|Hs];
        destruct (decide (x = s)) as [Hxs|Hxs]; simpl; lia.
Qed.

Lemma closeSockets_connections st s :
  accepted s (trace (closeSockets st)) = accepted s (trace st) ∧
  closed s (trace (closeSockets st))
  = closed s (trace st) + (if decide (s = -1) then 0 else count s (sockets_ st)).
Proof.
  unfold closeSockets. cbn [trace emits]. rewrite accepted_app, closed_app.
  destruct (closes_connections (sockets_ st) s) as [-> ->]. split; lia.
Qed.

(** X14.  Every connection is closed once.  While the daemon runs, from a start
    with no connection, the connections it has accepted and not closed are
    exactly the entries of [sockets_], counted with their multiplicity: it
    closes a connection only when the handler of its socket throws, erases
    that very entry, and closes nothing it does not hold.  So when
    [~BackgroundThread] has closed the sockets that are left, every
    descriptor has been closed as often as it was accepted, however the
    loop ended: no connection is closed twice and none is left open. *)
Theorem every_connection_is_closed_once (ws : list world)
    (storeListenSocket controlPipeFd : Z) (st : daemon) :
  sockets_ st = [] → balanced st →
  let st' := (run ws storeListenSocket controlPipeFd st).2 in
  balanced st' ∧
  ∀ s, s ≠ -1 →
    closed s (trace (closeSockets st')) = accepted s (trace (closeSockets st')).
Proof.
  intros Hs Hb st'.
  assert (Hb' : balanced st').
  { unfold st', run. apply run_loop_balanced; [|done].
    split; [unfold addPollfd, CONNECT_SOCKET_OFFSET; simpl; lia
           | by rewrite Hs]. }
  split; [done|]. intros s Hne.
  destruct (closeSockets_connections st' s) as [-> ->].
  rewrite decide_False by done. specialize (Hb' s). lia.
Qed.

Lemma every_connection_is_closed_once_witness :
  let arrival fd := World all_up (λ _, RecvFailed)
                      (λ fd, if fd =? 3 then POLLIN else 0) fd in
  let hangup := World all_up (λ _, RecvFailed)
                  (λ fd, if fd =? 8 then POLLIN else 0) 0 in
  let st' := (run [arrival 8; arrival 9; hangup] 3 5 fresh).2 in
  sockets_ fresh = [] ∧ balanced fresh ∧
  sockets_ st' = [9] ∧
  accepted 8 (trace st') = 1 ∧ closed 8 (trace st') = 1 ∧
  accepted 9 (trace st') = 1 ∧ closed 9 (trace st') = 0 ∧
  closed 9 (trace (closeSockets st')) = accepted 9 (trace (closeSockets st')).
Proof.
  intros arrival hangup st'.
  assert (Hb : balanced fresh) by (intros s; reflexivity).
  split; [reflexivity|]. split; [exact Hb|].
  split; [reflexivity|].
  split; [reflexivity|]. split; [reflexivity|].
  split; [reflexivity|]. split; [reflexivity|].
  apply (proj2 (every_connection_is_closed_once [arrival 8; arrival 9; hangup]
                  3 5 fresh eq_refl Hb) 9).
  discriminate.
Defined.

(** * Calls on a connection *)

(** ** What a call leaves on the connections *)

Lemma written_keeps_hung_up socket s others es gone :
  Forall (written s others) es →
  foldl (λ gone e,
           match e with
           | Closed s => if bool_decide (s = socket) then true else gone
           | Accepted s => if bool_decide (s = socket) then false else gone
           | Sent _ _ => gone
           end) gone es = gone.
Proof.
  induction es as [|e es IH]; [done|].
  intros [He Hes]%List.Forall_cons_iff.
  destruct e as [s' p| |]; [|done|done]. cbn [foldl]. by apply IH.
Qed.

(** No handler closes or accepts a connection. *)
Lemma query_hung_up writable socket inc st r st' s :
  query writable socket inc st = (r, st') → hung_up s st' = hung_up s st.
Proof.
  intros H. destruct (query_confined _ _ _ _ _ _ H) as (es & Ht & HP).
  unfold hung_up. rewrite Ht, foldl_app.
  by eapply written_keeps_hung_up.
Qed.

Lemma request_on_ok writable socket r n st' :
  hung_up socket (daemon_of n) = false →
  query writable socket (Request r) (daemon_of n) = (Ok tt, st') →
  request_on writable socket r n = Net st' (taken n).
Proof.
  intros Hup Hq. unfold request_on. rewrite Hup.
  by rewrite (dispatch_Ok writable socket (Request r) _ st' Hq).
Qed.

(** A request that is carried through and leaves nothing to read. *)
Lemma cast_ok writable socket r n st' es :
  in_order socket n →
  query writable socket (Request r) (daemon_of n) = (Ok tt, st') →
  trace st' = trace (daemon_of n) ++ es →
  sent_to socket es = [] →
  request_on writable socket r n = Net st' (taken n) ∧
  in_order socket (Net st' (taken n)).
Proof.
  intros [Hup Htk] Hq Ht Hes. split; [by apply request_on_ok|].
  split; cbn [daemon_of taken].
  - by rewrite (query_hung_up _ _ _ _ _ _ socket Hq).
  - by rewrite Ht, sent_to_app, Hes, app_nil_r.
Qed.

(** A request that is carried through and answered with one packet, and
    the read of the answer. *)
Lemma call_ok writable socket r n st' es p :
  in_order socket n →
  query writable socket (Request r) (daemon_of n) = (Ok tt, st') →
  trace st' = trace (daemon_of n) ++ es →
  sent_to socket es = [p] →
  ∃ n', recv socket (request_on writable socket r n) = (Some p, n') ∧
        daemon_of n' = st' ∧ in_order socket n' ∧
        ∀ s, s ≠ socket → taken n' s = taken n s.
Proof.
  intros [Hup Htk] Hq Ht Hes.
  rewrite (request_on_ok writable socket r n st' Hup Hq).
  unfold recv. cbn [daemon_of taken].
  assert (Hl : sent_to socket (trace st') !! taken n socket = Some p).
  { rewrite Ht, sent_to_app, Hes, Htk.
    by rewrite lookup_app_r, Nat.sub_diag by lia. }
  rewrite Hl. eexists. split; [reflexivity|]. cbn [daemon_of taken].
  split; [done|]. split.
  - split; cbn [daemon_of taken].
    + by rewrite (query_hung_up _ _ _ _ _ _ socket Hq).
    + rewrite bool_decide_eq_true_2 by done.
      rewrite Ht, sent_to_app, Hes, length_app, Htk. simpl. lia.
  - intros s Hs. by rewrite bool_decide_eq_false_2.
Qed.

(** The first packet of the answer, whatever follows it. *)
Lemma call_first writable socket r n st' es p rest :
  in_order socket n →
  query writable socket (Request r) (daemon_of n) = (Ok tt, st') →
  trace st' = trace (daemon_of n) ++ es →
  sent_to socket es = p :: rest →
  (recv socket (request_on writable socket r n)).1 = Some p.
Proof.
  intros [Hup Htk] Hq Ht Hes.
  rewrite (request_on_ok writable socket r n st' Hup Hq).
  unfold recv. cbn [daemon_of taken].
  assert (Hl : sent_to socket (trace st') !! taken n socket = Some p).
  { rewrite Ht, sent_to_app, Hes, Htk.
    by rewrite lookup_app_r, Nat.sub_diag by lia. }
  by rewrite Hl.
Qed.

(** The connection of a client that neither called nor was written to. *)
Lemma in_order_kept s n n' es :
  in_order s n →
  trace (daemon_of n') = trace (daemon_of n) ++ es →
  sent_to s es = [] →
  hung_up s (daemon_of n') = hung_up s (daemon_of n) →
  taken n' s = taken n s →
  in_order s n'.
Proof.
  intros [Hup Htk] Ht Hes Hh Hsame. split; [by rewrite Hh|].
  by rewrite Hsame, Htk, Ht, sent_to_app, Hes, app_nil_r.
Qed.

Lemma in_order_drained socket st :
  hung_up socket st = false → in_order socket (drained st).
Proof. by intros H. Qed.

(** On a connection in order a call reads what [exchange] gives. *)
Lemma exchange_in_order writable socket r n :
  in_order socket n →
  (recv socket (request_on writable socket r n)).1
  = head (exchange writable socket r (daemon_of n)).1 ∧
  daemon_of (recv socket (request_on writable socket r n)).2
  = (exchange writable socket r (daemon_of n)).2.
Proof.
  intros [Hup Htk]. unfold request_on, exchange. rewrite Hup.
  cbn [fst snd]. unfold recv. cbn [daemon_of taken]. rewrite Htk.
  set (st' := (dispatch writable socket (Request r) (daemon_of n)).2).
  set (c := length (sent_to socket (trace (daemon_of n)))).
  assert (Hl : sent_to socket (trace st') !! c
               = head (drop c (sent_to socket (trace st')))).
  { rewrite head_lookup, lookup_drop. f_equal. lia. }
  rewrite Hl.
  destruct (drop c (sent_to socket (trace st'))) as [|p l]; by cbn.
Qed.

(** ** The calls, on a connection in order *)

Section Calls.

Variable writable : Z → bool.

Lemma setHandler_writes socket key data st :
  all_writable writable (waiting_on key st) →
  all_writable writable (bucket (watchedSockets_ st) key) →
  ∃ st', setHandler writable socket key data st = (Ok tt, st') ∧
    trace st'
    = trace st ++ (wake (waiting_on key st) (keysAwaited_ st)).2
        ++ notifications key (old_value st key) data
             (bucket (watchedSockets_ st) key) ∧
    tcpStore_ st' = <[key := data]> (tcpStore_ st) ∧
    bucket (watchedSockets_ st') key = bucket (watchedSockets_ st) key.
Proof.
  intros Hwait Hwatch.
  pose proof (setHandler_ok writable socket key data st Hwait Hwatch) as H.
  eexists. split; [exact H|].
  cbn [trace tcpStore_ emits set_watchedSockets watchedSockets_].
  rewrite woken_trace, woken_tcpStore. cbn [trace tcpStore_ set_tcpStore].
  split; [symmetry; apply app_assoc|]. split; [done|].
  unfold bucket at 1. by rewrite lookup_insert_eq.
Qed.

Lemma addHandler_writes socket key value total st :
  add_total st key value = Ok total →
  writable socket = true →
  all_writable writable (waiting_on key st) →
  all_writable writable (bucket (watchedSockets_ st) key) →
  ∃ st', addHandler writable socket key value st = (Ok tt, st') ∧
    trace st'
    = trace st ++ [Sent socket (PInt64 total)]
        ++ (wake (waiting_on key st) (keysAwaited_ st)).2
        ++ notifications key (old_value st key) (decimal total)
             (bucket (watchedSockets_ st) key) ∧
    tcpStore_ st' !! key = Some (decimal total) ∧
    waiting_on key st' = [] ∧
    bucket (watchedSockets_ st') key = bucket (watchedSockets_ st) key.
Proof.
  intros Ht Hs Hwait Hwatch.
  pose proof (addHandler_ok writable socket key value total st Ht Hs
                Hwait Hwatch) as H.
  set (st' := emits _ _) in H. exists st'.
  split; [exact H|]. split; [|split; [|split]].
  - unfold st'. cbn [trace emits set_watchedSockets].
    rewrite woken_trace. cbn [trace emits set_tcpStore waiting_on keysAwaited_
                              waitingSockets_].
    unfold waiting_on. cbn [waitingSockets_ emits set_tcpStore].
    by rewrite <- !app_assoc.
  - unfold st'. cbn [tcpStore_ emits set_watchedSockets].
    rewrite woken_tcpStore. cbn. apply lookup_insert_eq.
  - unfold st'. unfold waiting_on.
    cbn [waitingSockets_ emits set_watchedSockets].
    apply woken_waiting_on.
  - unfold st'. cbn [watchedSockets_ emits set_watchedSockets].
    unfold bucket at 1. by rewrite lookup_insert_eq.
Qed.

Lemma set_in_order socket key data n :
  in_order socket n →
  all_writable writable (waiting_on (regularPrefix_ +:+ key) (daemon_of n)) →
  all_writable writable
    (bucket (watchedSockets_ (daemon_of n)) (regularPrefix_ +:+ key)) →
  socket ∉ waiting_on (regularPrefix_ +:+ key) (daemon_of n) →
  socket ∉ bucket (watchedSockets_ (daemon_of n)) (regularPrefix_ +:+ key) →
  in_order socket (Client.set writable socket key data n) ∧
  tcpStore_ (daemon_of (Client.set writable socket key data n))
  = <[regularPrefix_ +:+ key := data]> (tcpStore_ (daemon_of n)) ∧
  bucket (watchedSockets_ (daemon_of (Client.set writable socket key data n)))
    (regularPrefix_ +:+ key)
  = bucket (watchedSockets_ (daemon_of n)) (regularPrefix_ +:+ key).
Proof.
  intros Hin Hwait Hwatch Hnw Hnv.
  destruct (setHandler_writes socket (regularPrefix_ +:+ key) data
              (daemon_of n) Hwait Hwatch) as (st' & Hq & Ht & Hstore & Hb).
  destruct (cast_ok writable socket (RSet (regularPrefix_ +:+ key) data) n st'
              _ Hin Hq Ht) as [Hreq Hin'].
  { by rewrite sent_to_app, sent_to_wake, sent_to_others. }
  unfold Client.set. rewrite Hreq. by cbn [daemon_of].
Qed.

Lemma deleteKey_in_order socket key n :
  writable socket = true → in_order socket n →
  ∃ n', Client.deleteKey writable socket key n
        = (Some (bool_decide
                   (is_Some (tcpStore_ (daemon_of n)
                               !! (regularPrefix_ +:+ key)))), n') ∧
    in_order socket n' ∧
    tcpStore_ (daemon_of n')
    = delete (regularPrefix_ +:+ key) (tcpStore_ (daemon_of n)).
Proof.
  intros Hs Hin.
  pose proof (deleteHandler_ok writable socket (regularPrefix_ +:+ key)
                (daemon_of n) Hs) as Hq.
  destruct (call_ok writable socket (RDeleteKey (regularPrefix_ +:+ key)) n _
              _ _ Hin Hq eq_refl (sent_to_self _ _))
    as (n' & Hr & Hd & Hin' & _).
  exists n'. unfold Client.deleteKey. rewrite Hr.
  split; [|split; [done | by rewrite Hd]].
  destruct (tcpStore_ (daemon_of n) !! _); cbn [Z.eqb Pos.eqb].
  - by rewrite bool_decide_eq_true_2.
  - by rewrite bool_decide_eq_false_2 by (by intros [? [=]]).
Qed.

Lemma getNumKeys_in_order socket n :
  writable socket = true → in_order socket n →
  ∃ n', Client.getNumKeys writable socket n
        = (Some (Z.of_nat (size (tcpStore_ (daemon_of n)))), n') ∧
    in_order socket n' ∧
    tcpStore_ (daemon_of n') = tcpStore_ (daemon_of n).
Proof.
  intros Hs Hin.
  pose proof (getNumKeysHandler_ok writable socket (daemon_of n) Hs) as Hq.
  destruct (call_ok writable socket RGetNumKeys n _ _ _ Hin Hq eq_refl
              (sent_to_self _ _)) as (n' & Hr & Hd & Hin' & _).
  exists n'. unfold Client.getNumKeys. rewrite Hr.
  split; [done|]. split; [done | by rewrite Hd].
Qed.

Lemma getHelper_in_order socket key data n :
  writable socket = true → in_order socket n →
  tcpStore_ (daemon_of n) !! key = Some data →
  ∃ n', Client.getHelper_ writable socket key n = (Some data, n') ∧
    in_order socket n' ∧
    tcpStore_ (daemon_of n') = tcpStore_ (daemon_of n).
Proof.
  intros Hs Hin Hk.
  assert (Hc : checkKeys [key] (daemon_of n) = true).
  { apply checkKeys_spec. intros k' ->%list_elem_of_singleton. by rewrite Hk. }
  pose proof (waitHandler_ready writable socket [key] (daemon_of n) Hc Hs)
    as Hw.
  destruct (call_ok writable socket (RWait [key]) n _ _ _ Hin Hw eq_refl
              (sent_to_self _ _)) as (n1 & Hr1 & Hd1 & Hin1 & _).
  assert (Hk1 : tcpStore_ (daemon_of n1) !! key = Some data)
    by (by rewrite Hd1).
  pose proof (getHandler_present writable socket key data (daemon_of n1) Hk1
                Hs) as Hg.
  destruct (call_ok writable socket (RGet key) n1 _ _ _ Hin1 Hg eq_refl
              (sent_to_self _ _)) as (n2 & Hr2 & Hd2 & Hin2 & _).
  exists n2. unfold Client.getHelper_, Client.waitHelper_.
  rewrite Hr1, Hr2. split; [done|]. split; [done|]. by rewrite Hd2, Hd1.
Qed.

Lemma compareSet_in_order socket key e d n :
  writable socket = true → in_order socket n →
  all_writable writable
    (bucket (watchedSockets_ (daemon_of n)) (regularPrefix_ +:+ key)) →
  socket ∉ bucket (watchedSockets_ (daemon_of n)) (regularPrefix_ +:+ key) →
  ∃ v n', Client.compareSet writable socket key e d n = (Some v, n') ∧
    in_order socket n' ∧
    dom (tcpStore_ (daemon_of n')) = dom (tcpStore_ (daemon_of n)).
Proof.
  intros Hs Hin Hwatch Hnv.
  set (k := regularPrefix_ +:+ key) in *. set (st := daemon_of n) in *.
  assert (Hcall : ∀ st' es v,
            compareSetHandler writable socket k e d st = (Ok tt, st') →
            trace st' = trace st ++ es → sent_to socket es = [PVector v] →
            ∃ v n', Client.compareSet writable socket key e d n = (Some v, n') ∧
              in_order socket n' ∧
              dom (tcpStore_ (daemon_of n')) = dom (tcpStore_ st)).
  { intros st' es v Hq Ht Hes.
    destruct (call_ok writable socket (RCompareSet k e d) n st' es _ Hin Hq Ht
                Hes) as (n' & Hr & Hd & Hin' & _).
    exists v, n'. unfold Client.compareSet. fold k. rewrite Hr.
    split; [done|]. split; [done|]. rewrite Hd.
    by apply (compareSetHandler_dom writable socket k e d st _ _ Hq). }
  destruct (tcpStore_ st !! k) as [v|] eqn:Hk.
  - destruct (decide (v = e)) as [->|Hv].
    + eapply Hcall.
      * by apply compareSetHandler_matches.
      * reflexivity.
      * rewrite sent_to_app, sent_to_others by done. apply sent_to_self.
    + eapply Hcall.
      * by eapply compareSetHandler_differs.
      * reflexivity.
      * apply sent_to_self.
  - eapply Hcall.
    + by apply compareSetHandler_absent.
    + reflexivity.
    + apply sent_to_self.
Qed.

Lemma addHelper_in_order socket key value total n :
  add_total (daemon_of n) key value = Ok total →
  writable socket = true → in_order socket n →
  all_writable writable (waiting_on key (daemon_of n)) →
  all_writable writable (bucket (watchedSockets_ (daemon_of n)) key) →
  socket ∉ waiting_on key (daemon_of n) →
  socket ∉ bucket (watchedSockets_ (daemon_of n)) key →
  ∃ n', Client.addHelper_ writable socket key value n = (Some total, n') ∧
    in_order socket n' ∧
    tcpStore_ (daemon_of n') !! key = Some (decimal total) ∧
    waiting_on key (daemon_of n') = [] ∧
    bucket (watchedSockets_ (daemon_of n')) key
    = bucket (watchedSockets_ (daemon_of n)) key ∧
    ∀ s, s ≠ socket → in_order s n →
         s ∉ waiting_on key (daemon_of n) →
         s ∉ bucket (watchedSockets_ (daemon_of n)) key →
         in_order s n'.
Proof.
  intros Ht Hs Hin Hwait Hwatch Hnw Hnv.
  destruct (addHandler_writes socket key value total (daemon_of n) Ht Hs
              Hwait Hwatch) as (st' & Hq & Htr & Hk & Hw' & Hb).
  destruct (call_ok writable socket (RAdd key value) n st' _ (PInt64 total)
              Hin Hq Htr) as (n' & Hr & Hd & Hin' & Hothers).
  { rewrite !sent_to_app, sent_to_self, sent_to_wake, sent_to_others by done.
    done. }
  exists n'. unfold Client.addHelper_. rewrite Hr, Hd.
  split; [done|]. split; [done|]. split; [done|]. split; [done|].
  split; [done|]. intros s Hne Hin_s Hsw Hsv.
  eapply in_order_kept; [exact Hin_s | by rewrite Hd | |
                         | by apply Hothers].
  - rewrite !sent_to_app, sent_to_wake, sent_to_others by done.
    unfold sent_to. cbn. by rewrite bool_decide_eq_false_2 by congruence.
  - rewrite Hd.
    by apply (query_hung_up writable socket (Request (RAdd key value)) _ _ _
                s Hq).
Qed.

End Calls.

Lemma recv_daemon socket n : daemon_of (recv socket n).2 = daemon_of n.
Proof.
  unfold recv.
  by destruct (sent_to socket (trace (daemon_of n)) !! taken n socket).
Qed.

Lemma hung_up_closed socket st :
  hung_up socket (scrub socket (closeSocket socket st)) = true.
Proof.
  unfold hung_up.
  cbn [trace scrub closeSocket emit set_keysAwaited set_watchedSockets
       set_waitingSockets].
  rewrite foldl_app. cbn [foldl]. by rewrite bool_decide_eq_true_2.
Qed.

(** ** GET on a missing key *)

(** C8.  GET(k) with [k] absent from the store throws out of the handler
    ([unordered_map::at]) before anything is written.  The try/catch of the
    dispatch loop then closes the socket, and the only new entry of the
    trace is the close: no reply is sent.  It scrubs the socket: afterwards
    the socket stands in no wait list and no watch list and has no
    remaining-count, no list is left empty, the entries of the other
    sockets and the store are as they were, and the loop erases the
    descriptor from [fds] and [sockets_]; the daemon handles no further
    request on that connection.  GET(k) with [k] present writes the stored
    value on the socket and returns normally (the socket taking the
    reply). *)
Theorem get_missing_key_fails (writable : Z → bool) (socket : Z) (k : string)
    (st : daemon) :
  (tcpStore_ st !! k = None →
     let st' := (dispatch writable socket (Request (RGet k)) st).2 in
     getHandler writable socket k st = (Throw out_of_range, st) ∧
     dispatch writable socket (Request (RGet k)) st
     = (true, scrub socket (closeSocket socket st)) ∧
     trace st' = trace st ++ [Closed socket] ∧
     unreferenced socket st' ∧
     (∀ key l, waitingSockets_ st' !! key = Some l → l ≠ []) ∧
     (∀ key l, watchedSockets_ st' !! key = Some l → l ≠ []) ∧
     (∀ key, bucket (waitingSockets_ st') key
             = filter (λ s, s ≠ socket) (bucket (waitingSockets_ st) key)) ∧
     (∀ key, bucket (watchedSockets_ st') key
             = filter (λ s, s ≠ socket) (bucket (watchedSockets_ st) key)) ∧
     (∀ s, s ≠ socket → keysAwaited_ st' !! s = keysAwaited_ st !! s) ∧
     tcpStore_ st' = tcpStore_ st ∧
     (∀ w p todo fdIdx fds,
        w_writable w = writable → w_inbox w socket = Request (RGet k) →
        fd p = socket → revents p ≠ 0 →
        queryFds_from w (p :: todo) fdIdx fds st
        = queryFds_from w todo fdIdx (delete fdIdx fds)
            (set_sockets (delete (fdIdx - CONNECT_SOCKET_OFFSET)%nat) st')) ∧
     hung_up socket st' = true ∧
     (∀ w r taken, request_on w socket r (Net st' taken) = Net st' taken)) ∧
  (∀ v, tcpStore_ st !! k = Some v → writable socket = true →
     getHandler writable socket k st
     = (Ok tt, emits [Sent socket (PVector v)] st) ∧
     dispatch writable socket (Request (RGet k)) st
     = (false, emits [Sent socket (PVector v)] st)).
Proof.
  split.
  - intros Hk st'.
    assert (H : getHandler writable socket k st = (Throw out_of_range, st)).
    { unfold getHandler, bind, gets. by rewrite Hk. }
    assert (Hd : dispatch writable socket (Request (RGet k)) st
                 = (true, scrub socket (closeSocket socket st)))
      by (by eapply dispatch_Throw).
    assert (Hst : st' = scrub socket (closeSocket socket st))
      by (unfold st'; by rewrite Hd).
    destruct (scrub_spec socket (closeSocket socket st))
      as (S1 & S2 & S3 & S4 & S5 & S6 & S7).
    pose proof (hung_up_closed socket st) as Hup.
    rewrite Hst.
    split; [done|]. split; [done|]. split; [done|].
    split.
    { split; [|split]; [|exact S2|]; intros key l Hl;
        [by destruct (S1 key l Hl) | by destruct (S3 key l Hl)]. }
    split; [intros key l Hl; by destruct (S1 key l Hl)|].
    split; [intros key l Hl; by destruct (S3 key l Hl)|].
    split; [exact S4|]. split; [exact S5|]. split; [exact S6|].
    split; [exact S7|]. split; [|split; [exact Hup|]].
    + intros w p todo i fds Hw Hi Hp Hr. cbn [queryFds_from].
      apply Z.eqb_neq in Hr. rewrite Hr, Hp, Hw, Hi, Hd. done.
    + intros w r taken. unfold request_on. cbn [daemon_of]. by rewrite Hup.
  - intros v Hk Hs.
    assert (H : getHandler writable socket k st
                = (Ok tt, emits [Sent socket (PVector v)] st)).
    { unfold getHandler, bind, gets. rewrite Hk. by apply send_ok. }
    split; [done|]. by apply dispatch_Ok.
Qed.

Lemma get_missing_key_fails_witness :
  let st := Daemon {["/k" := [x2a]]} {["/a" := [7; 9]; "/b" := [7]]}
              {[7 := 2; 9 := 1]} {["/w" := [7]; "/k" := [9; 7]]}
              [7; 9] [] in
  let st' := (dispatch (λ _, true) 7 (Request (RGet "/missing")) st).2 in
  (tcpStore_ st !! "/missing" = None ∧
   trace st' = [Closed 7] ∧
   waitingSockets_ st' = {["/a" := [9]]} ∧
   keysAwaited_ st' = {[9 := 1]} ∧
   watchedSockets_ st' = {["/k" := [9]]} ∧
   unreferenced 7 st' ∧ hung_up 7 st' = true) ∧
  (tcpStore_ st !! "/k" = Some [x2a] ∧ (λ _ : Z, true) 7 = true ∧
   getHandler (λ _, true) 7 "/k" st
   = (Ok tt, emits [Sent 7 (PVector [x2a])] st) ∧
   dispatch (λ _, true) 7 (Request (RGet "/k")) st
   = (false, emits [Sent 7 (PVector [x2a])] st)).
Proof.
  intros st st'.
  assert (Hk : tcpStore_ st !! "/missing" = None) by reflexivity.
  pose proof (proj1 (get_missing_key_fails (λ _, true) 7 "/missing" st) Hk)
    as (_ & _ & Ht & Hun & _ & _ & _ & _ & _ & _ & _ & Hup & _).
  split.
  - split; [exact Hk|]. split; [exact Ht|].
    split; [by vm_compute|]. split; [by vm_compute|]. split; [by vm_compute|].
    split; [exact Hun | exact Hup].
  - split; [reflexivity|]. split; [reflexivity|].
    apply (get_missing_key_fails (λ _, true) 7 "/k" st); reflexivity.
Defined.

(** ** DELETE_KEY, and [deleteKey] after [set] *)

(** C5.  DELETE_KEY(k), on a socket that takes the reply, erases [k] from
    the store, replies 1 when [k] was present and 0 when it was not, erases
    the watcher list of [k], and leaves both maps of the wait overlay as
    they were.  Hence, for a client on a connection in order (the daemon
    serves it, the client has read what was written on it, and it is not
    registered as a waiter or a watcher of the key, as a [wait] that timed
    out would leave it), after a [set(key, v)] whose wake-ups and
    notifications go through the first [deleteKey(key)] returns true and
    the second returns false. *)
Theorem deleteKey_semantics (writable : Z → bool) (socket : Z) (k : string)
    (st : daemon) :
  writable socket = true →
  (∃ st', deleteHandler writable socket k st = (Ok tt, st') ∧
     tcpStore_ st' = delete k (tcpStore_ st) ∧
     trace st' = trace st ++
       [Sent socket (PInt64 (if bool_decide (is_Some (tcpStore_ st !! k))
                             then 1 else 0))] ∧
     watchedSockets_ st' = delete k (watchedSockets_ st) ∧
     waitingSockets_ st' = waitingSockets_ st ∧
     keysAwaited_ st' = keysAwaited_ st) ∧
  (∀ key v taken,
     in_order socket (Net st taken) →
     all_writable writable (waiting_on (regularPrefix_ +:+ key) st) →
     all_writable writable
       (bucket (watchedSockets_ st) (regularPrefix_ +:+ key)) →
     socket ∉ waiting_on (regularPrefix_ +:+ key) st →
     socket ∉ bucket (watchedSockets_ st) (regularPrefix_ +:+ key) →
     ∃ n2 n3,
       Client.deleteKey writable socket key
         (Client.set writable socket key v (Net st taken)) = (Some true, n2) ∧
       Client.deleteKey writable socket key n2 = (Some false, n3)).
Proof.
  intros Hs. split.
  - eexists. split; [by apply deleteHandler_ok|]. simpl.
    repeat split. by destruct (tcpStore_ st !! k).
  - intros key v taken Hin Hwait Hwatch Hnw Hnv.
    destruct (set_in_order writable socket key v (Net st taken) Hin Hwait
                Hwatch Hnw Hnv) as (Hin1 & Hstore1 & _).
    destruct (deleteKey_in_order writable socket key _ Hs Hin1)
      as (n2 & H2 & Hin2 & Hstore2).
    destruct (deleteKey_in_order writable socket key n2 Hs Hin2)
      as (n3 & H3 & _).
    exists n2, n3. rewrite H2, H3. split; do 2 f_equal.
    + rewrite Hstore1, lookup_insert_eq. by rewrite bool_decide_eq_true_2.
    + rewrite Hstore2, lookup_delete_eq.
      rewrite bool_decide_eq_false_2; [done | by intros [? [=]]].
Qed.

Lemma deleteKey_semantics_witness :
  let st := Daemon {["/k" := [x00]]} {["/k" := [4]]} {[4 := 1]}
              {["/k" := [9]]} [4; 7; 9] [] in
  (λ _ : Z, true) 7 = true ∧
  (∃ st', deleteHandler (λ _, true) 7 "/k" st = (Ok tt, st') ∧
     tcpStore_ st' = delete "/k" (tcpStore_ st) ∧
     trace st' = trace st ++
       [Sent 7 (PInt64 (if bool_decide (is_Some (tcpStore_ st !! "/k"))
                        then 1 else 0))] ∧
     watchedSockets_ st' = delete "/k" (watchedSockets_ st) ∧
     waitingSockets_ st' = waitingSockets_ st ∧
     keysAwaited_ st' = keysAwaited_ st) ∧
  in_order 7 (drained st) ∧
  all_writable (λ _, true) (waiting_on (regularPrefix_ +:+ "k") st) ∧
  all_writable (λ _, true)
    (bucket (watchedSockets_ st) (regularPrefix_ +:+ "k")) ∧
  (7 ∉ waiting_on (regularPrefix_ +:+ "k") st) ∧
  (7 ∉ bucket (watchedSockets_ st) (regularPrefix_ +:+ "k")) ∧
  ∃ n2 n3,
    Client.deleteKey (λ _, true) 7 "k"
      (Client.set (λ _, true) 7 "k" [x01] (drained st)) = (Some true, n2) ∧
    Client.deleteKey (λ _, true) 7 "k" n2 = (Some false, n3).
Proof.
  intros st.
  destruct (deleteKey_semantics (λ _, true) 7 "/k" st eq_refl) as [H1 H2].
  assert (Hin : in_order 7 (drained st)) by (by split).
  assert (Hwait : all_writable (λ _, true)
                    (waiting_on (regularPrefix_ +:+ "k") st))
    by (intros ? ?; reflexivity).
  assert (Hwatch : all_writable (λ _, true)
                     (bucket (watchedSockets_ st) (regularPrefix_ +:+ "k")))
    by (intros ? ?; reflexivity).
  assert (Hnw : 7 ∉ waiting_on (regularPrefix_ +:+ "k") st).
  { vm_compute. intros [H|H]%elem_of_cons; [discriminate H|].
    by apply elem_of_nil in H. }
  assert (Hnv : 7 ∉ bucket (watchedSockets_ st) (regularPrefix_ +:+ "k")).
  { vm_compute. intros [H|H]%elem_of_cons; [discriminate H|].
    by apply elem_of_nil in H. }
  split; [reflexivity|]. split; [exact H1|]. split; [exact Hin|].
  split; [exact Hwait|]. split; [exact Hwatch|]. split; [exact Hnw|].
  split; [exact Hnv|].
  exact (H2 "k" [x01] _ Hin Hwait Hwatch Hnw Hnv).
Defined.

(** A connection out of order.  A [wait] on socket 7 that times out leaves
    the socket in the wait list of the key; the [set] on the same socket
    then writes it a STOP_WAITING that no call reads, and the read of
    [deleteKey] meets that packet where it expects its [int64_t].  And a
    [set] that wakes a waiter whose peer is gone throws in its handler:
    the daemon closes the socket of the [set], and the [deleteKey] on it is
    never handled. *)
Example calls_on_a_connection_out_of_order :
  (let n1 := (Client.waitHelper_ all_up 7 ["/k"] (drained fresh)).2 in
   (Client.waitHelper_ all_up 7 ["/k"] (drained fresh)).1 = None ∧
   sent_to 7 (trace (daemon_of (Client.set all_up 7 "k" [x00] n1)))
   = [PWait STOP_WAITING] ∧
   (Client.deleteKey all_up 7 "k" (Client.set all_up 7 "k" [x00] n1)).1
   = None) ∧
  (let st := handle_all all_up [(4, Request (RWait ["/k"]))] fresh in
   let n1 := Client.set (λ s, negb (s =? 4)) 7 "k" [x00] (drained st) in
   hung_up 7 (daemon_of n1) = true ∧
   (Client.deleteKey all_up 7 "k" n1).1 = None ∧
   tcpStore_ (daemon_of (Client.deleteKey all_up 7 "k" n1).2) !! "/k"
   = Some [x00]).
Proof. repeat split. Qed.

(** ** ADD after ADD *)

Section AddSequence.

Variable writable : Z → bool.

(** The clients of a sequence of ADDs on [key] have their connections in
    order, none of them a waiter for [key] or a watcher of it. *)
Lemma add_sequence_from key adds acc n :
  in_int64 acc →
  tcpStore_ (daemon_of n) !! key = Some (decimal acc) →
  Forall (λ a, writable a.1 = true) adds →
  all_writable writable (waiting_on key (daemon_of n)) →
  all_writable writable (bucket (watchedSockets_ (daemon_of n)) key) →
  Forall (λ a, in_order a.1 n ∧ (a.1 ∉ waiting_on key (daemon_of n)) ∧
               (a.1 ∉ bucket (watchedSockets_ (daemon_of n)) key)) adds →
  (add_sequence writable key adds n).1
  = map Some (totals64 acc (map snd adds)) ∧
  tcpStore_ (daemon_of (add_sequence writable key adds n).2) !! key
  = Some (decimal (default acc (last (totals64 acc (map snd adds))))).
Proof.
  revert acc n. induction adds as [|[s d] adds IH];
    intros acc n Hacc Hk Hs Hwait Hwatch Hord; [done|].
  apply List.Forall_cons_iff in Hs as [Hs Hrest]. cbn [fst] in Hs.
  apply List.Forall_cons_iff in Hord as [(Hin & Hnw & Hnv) Hord'].
  cbn [fst] in Hin, Hnw, Hnv.
  cbn [add_sequence map snd totals64].
  pose proof (add_total_parsed (daemon_of n) key d _ acc Hk
                (stoll_decimal acc Hacc)) as Ht.
  destruct (addHelper_in_order writable s key d _ n Ht Hs Hin Hwait Hwatch
              Hnw Hnv) as (n' & -> & Hin' & Hk' & Hwait' & Hwatch' & Hothers).
  specialize (IH (wrap64 (d + acc)) n' (wrap64_in_int64 _) Hk' Hrest).
  rewrite Hwait', Hwatch' in IH.
  specialize (IH (all_writable_nil writable) Hwatch).
  assert (Hord2 : Forall (λ a, in_order a.1 n' ∧ (a.1 ∉ []) ∧
             (a.1 ∉ bucket (watchedSockets_ (daemon_of n)) key)) adds).
  { eapply List.Forall_impl; [|exact Hord'].
    intros [s' d'] (Hin2 & Hnw2 & Hnv2). cbn [fst] in *.
    split; [|split; [apply not_elem_of_nil | done]].
    destruct (decide (s' = s)) as [->|Hne]; [done|]. by apply Hothers. }
  specialize (IH Hord2).
  destruct (add_sequence writable key adds n') as [replies n2].
  cbn [fst snd] in *. destruct IH as [IH1 IH2]. split.
  - rewrite IH1. reflexivity.
  - rewrite IH2, default_last_cons. reflexivity.
Qed.

(** ADDs on a key that is absent at the start. *)
Lemma add_sequence_absent key adds n :
  tcpStore_ (daemon_of n) !! key = None →
  Forall (λ a, writable a.1 = true) adds →
  Forall in_int64 (totals 0 (map snd adds)) →
  all_writable writable (waiting_on key (daemon_of n)) →
  all_writable writable (bucket (watchedSockets_ (daemon_of n)) key) →
  Forall (λ a, in_order a.1 n ∧ (a.1 ∉ waiting_on key (daemon_of n)) ∧
               (a.1 ∉ bucket (watchedSockets_ (daemon_of n)) key)) adds →
  (add_sequence writable key adds n).1 = map Some (totals 0 (map snd adds)) ∧
  (adds ≠ [] →
   tcpStore_ (daemon_of (add_sequence writable key adds n).2) !! key
   = Some (decimal (sum_list_Z (map snd adds)))).
Proof.
  destruct adds as [|[s d] adds]; intros Hk Hs Hin Hwait Hwatch Hord; [done|].
  apply List.Forall_cons_iff in Hs as [Hs Hrest]. cbn [fst] in Hs.
  cbn [map snd totals] in Hin. apply List.Forall_cons_iff in Hin as [Hd Hin].
  apply List.Forall_cons_iff in Hord as [(Hio & Hnw & Hnv) Hord'].
  cbn [fst] in Hio, Hnw, Hnv.
  cbn [add_sequence map snd totals].
  pose proof (add_total_absent (daemon_of n) key d Hk) as Ht.
  destruct (addHelper_in_order writable s key d _ n Ht Hs Hio Hwait Hwatch
              Hnw Hnv) as (n' & -> & Hin' & Hk' & Hwait' & Hwatch' & Hothers).
  replace (0 + d) with d in * by lia.
  pose proof (add_sequence_from key adds d n' Hd Hk' Hrest) as Hseq.
  rewrite Hwait', Hwatch' in Hseq.
  specialize (Hseq (all_writable_nil writable) Hwatch).
  assert (Hord2 : Forall (λ a, in_order a.1 n' ∧ (a.1 ∉ []) ∧
             (a.1 ∉ bucket (watchedSockets_ (daemon_of n)) key)) adds).
  { eapply List.Forall_impl; [|exact Hord'].
    intros [s' d'] (Hin2 & Hnw2 & Hnv2). cbn [fst] in *.
    split; [|split; [apply not_elem_of_nil | done]].
    destruct (decide (s' = s)) as [->|Hne]; [done|]. by apply Hothers. }
  specialize (Hseq Hord2).
  rewrite (totals64_totals d _ Hin) in Hseq.
  destruct (add_sequence writable key adds n') as [replies n2].
  cbn [fst snd] in *. destruct Hseq as [H1 H2]. split.
  - rewrite H1. reflexivity.
  - intros _. rewrite H2, last_totals. unfold sum_list_Z. cbn [foldr].
    reflexivity.
Qed.

End AddSequence.

(** C4, with what it takes for granted spelled out.  Let the sends go
    through.  When [k] is absent (read [z = 0]) or holds a value that
    [std::stoll] reads as [z], and [z + delta] fits [int64_t], ADD(k, delta)
    stores the decimal string of [z + delta] and replies with [z + delta];
    the decimal string of every [int64_t] is such a value.  On a stored
    value that [std::stoll] rejects the handler throws before anything is
    stored or sent: the state is as it was, and the dispatch loop closes
    the socket without a reply.  For ADDs on a key that is absent at the
    start, from clients whose connections are in order (the daemon serves
    them, they have read what was written on them, and none is registered
    as a waiter for the key or a watcher of it), with every running total
    within [int64_t]: each reply is the running total at that ADD, and the
    string stored at the end is the decimal representation of the sum of
    all deltas. *)
Theorem add_semantics (writable : Z → bool) (k : string) (st : daemon) :
  all_writable writable (waiting_on k st) →
  all_writable writable (bucket (watchedSockets_ st) k) →
  (∀ socket delta z,
     writable socket = true →
     in_int64 (z + delta) →
     (tcpStore_ st !! k = None ∧ z = 0) ∨
     (∃ stored, tcpStore_ st !! k = Some stored ∧
                stoll (string_of_list_byte stored) = Ok z) →
     ∃ st' rest,
       addHandler writable socket k delta st = (Ok tt, st') ∧
       trace st' = trace st ++ Sent socket (PInt64 (z + delta)) :: rest ∧
       TCPStore_addHelper_ writable socket k delta st
       = (Some (z + delta), st') ∧
       (∀ taken, in_order socket (Net st taken) →
          (Client.addHelper_ writable socket k delta (Net st taken)).1
          = Some (z + delta)) ∧
       tcpStore_ st' !! k = Some (decimal (z + delta))) ∧
  (∀ z, in_int64 z → stoll (string_of_list_byte (decimal z)) = Ok z) ∧
  (∀ socket delta stored e,
     tcpStore_ st !! k = Some stored →
     stoll (string_of_list_byte stored) = Throw e →
     let st' := (dispatch writable socket (Request (RAdd k delta)) st).2 in
     addHandler writable socket k delta st = (Throw e, st) ∧
     (dispatch writable socket (Request (RAdd k delta)) st).1 = true ∧
     trace st' = trace st ++ [Closed socket] ∧
     tcpStore_ st' = tcpStore_ st) ∧
  (tcpStore_ st !! k = None →
   ∀ adds taken,
     adds ≠ [] →
     Forall (λ a, writable a.1 = true) adds →
     Forall in_int64 (totals 0 (map snd adds)) →
     Forall (λ a, in_order a.1 (Net st taken) ∧
                  (a.1 ∉ waiting_on k st) ∧
                  (a.1 ∉ bucket (watchedSockets_ st) k)) adds →
     (add_sequence writable k adds (Net st taken)).1
     = map Some (totals 0 (map snd adds)) ∧
     tcpStore_ (daemon_of (add_sequence writable k adds (Net st taken)).2) !! k
     = Some (decimal (sum_list_Z (map snd adds)))).
Proof.
  intros Hwait Hwatch. split; [|split; [|split]].
  - intros socket delta z Hs Hin Hcase.
    assert (Ht : add_total st k delta = Ok (z + delta)).
    { destruct Hcase as [[Hk ->]|(stored & Hk & Hp)].
      - rewrite (add_total_absent st k delta Hk). f_equal.
      - rewrite (add_total_parsed st k delta stored z Hk Hp).
        replace (delta + z) with (z + delta) by lia.
        by rewrite wrap64_id. }
    destruct (add_step writable socket k delta _ st Ht Hs Hwait Hwatch)
      as (st' & Hh & Hc & Hk' & _).
    destruct (addHandler_writes writable socket k delta _ st Ht Hs Hwait
                Hwatch) as (st2 & Hh2 & Htr & _).
    rewrite Hh in Hh2. injection Hh2 as <-.
    exists st'. eexists. split; [exact Hh|]. split; [exact Htr|].
    split; [exact Hc|]. split; [|exact Hk'].
    intros taken Hin'. unfold Client.addHelper_.
    assert (Hfirst :
      (recv socket (request_on writable socket (RAdd k delta) (Net st taken))).1
      = Some (PInt64 (z + delta))).
    { eapply (call_first writable socket (RAdd k delta) (Net st taken) st');
        [exact Hin' | exact Hh | exact Htr|].
      rewrite sent_to_app, sent_to_self. reflexivity. }
    destruct (recv socket _) as [p n']. cbn [fst] in Hfirst. by subst p.
  - apply stoll_decimal.
  - intros socket delta stored e Hk Hp st'.
    assert (Ht : add_total st k delta = Throw e)
      by (unfold add_total; by rewrite Hk, Hp).
    pose proof (addHandler_throws writable socket k delta e st Ht) as Hh.
    pose proof (dispatch_Throw writable socket (Request (RAdd k delta)) st e
                  st Hh) as Hd.
    unfold st'. rewrite Hd. cbn [fst snd].
    split; [exact Hh|]. split; [done|]. split; [done|].
    by rewrite tcpStore_scrub.
  - intros Hk adds taken Hne Hs Hin Hord.
    destruct (add_sequence_absent writable k adds (Net st taken) Hk Hs Hin
                Hwait Hwatch Hord) as [H1 H2].
    split; [exact H1 | exact (H2 Hne)].
Qed.

(** Scenario S1: three clients each add 1 to a new key; and an ADD on a
    key that holds no number. *)
Lemma add_semantics_witness :
  let adds := [(7, 1); (8, 1); (9, 1)] in
  let st := Daemon {["/k" := list_byte_of_string "abc"]} ∅ ∅ ∅ [7] [] in
  all_writable all_up (waiting_on "/c" fresh) ∧
  all_writable all_up (bucket (watchedSockets_ fresh) "/c") ∧
  tcpStore_ fresh !! "/c" = None ∧
  adds ≠ [] ∧
  Forall (λ a : Z * Z, all_up a.1 = true) adds ∧
  Forall in_int64 (totals 0 (map snd adds)) ∧
  Forall (λ a : Z * Z, in_order a.1 (drained fresh) ∧
                       (a.1 ∉ waiting_on "/c" fresh) ∧
                       (a.1 ∉ bucket (watchedSockets_ fresh) "/c")) adds ∧
  (add_sequence all_up "/c" adds (drained fresh)).1
  = [Some 1; Some 2; Some 3] ∧
  tcpStore_ (daemon_of (add_sequence all_up "/c" adds (drained fresh)).2)
    !! "/c" = Some (list_byte_of_string "3") ∧
  tcpStore_ st !! "/k" = Some (list_byte_of_string "abc") ∧
  stoll (string_of_list_byte (list_byte_of_string "abc"))
  = Throw invalid_argument ∧
  addHandler all_up 7 "/k" 1 st = (Throw invalid_argument, st) ∧
  trace (dispatch all_up 7 (Request (RAdd "/k" 1)) st).2 = [Closed 7] ∧
  all_up 7 = true ∧ in_int64 (0 + 5) ∧
  (Client.addHelper_ all_up 7 "/c" 5 (drained fresh)).1 = Some (0 + 5).
Proof.
  intros adds st.
  assert (H1 : all_writable all_up (waiting_on "/c" fresh))
    by (intros ? ?; reflexivity).
  assert (H2 : all_writable all_up (bucket (watchedSockets_ fresh) "/c"))
    by (intros ? ?; reflexivity).
  assert (H3 : tcpStore_ fresh !! "/c" = None) by reflexivity.
  assert (H4 : adds ≠ []) by discriminate.
  assert (H5 : Forall (λ a : Z * Z, all_up a.1 = true) adds)
    by (repeat constructor).
  assert (H6 : Forall in_int64 (totals 0 (map snd adds)))
    by (unfold adds; cbn [totals map snd];
        repeat (apply List.Forall_cons;
                  [unfold in_int64, INT64_MIN, INT64_MAX; lia|]);
        apply List.Forall_nil).
  assert (H7 : Forall (λ a : Z * Z, in_order a.1 (drained fresh) ∧
                         (a.1 ∉ waiting_on "/c" fresh) ∧
                         (a.1 ∉ bucket (watchedSockets_ fresh) "/c")) adds).
  { unfold adds.
    repeat (apply List.Forall_cons;
              [split; [by split|]; split; apply not_elem_of_nil|]).
    apply List.Forall_nil. }
  assert (H8 : tcpStore_ st !! "/k" = Some (list_byte_of_string "abc"))
    by reflexivity.
  assert (H9 : stoll (string_of_list_byte (list_byte_of_string "abc"))
               = Throw invalid_argument) by reflexivity.
  repeat (split; [assumption|]).
  destruct (proj2 (proj2 (proj2 (add_semantics all_up "/c" fresh H1 H2)))
              H3 adds _ H4 H5 H6 H7) as [Hr Hstore].
  split; [exact Hr|]. split; [exact Hstore|].
  split; [exact H8|]. split; [exact H9|].
  destruct (proj1 (proj2 (proj2 (add_semantics all_up "/k" st
                                   (λ _ _, eq_refl) (λ _ _, eq_refl))))
              7 1 _ _ H8 H9) as (Hh & _ & Ht & _).
  split; [exact Hh|]. split; [exact Ht|].
  assert (H10 : in_int64 (0 + 5))
    by (unfold in_int64, INT64_MIN, INT64_MAX; lia).
  split; [reflexivity|]. split; [exact H10|].
  destruct (proj1 (add_semantics all_up "/c" fresh H1 H2) 7 5 0 eq_refl H10
              (or_introl (conj H3 eq_refl)))
    as (st' & rest & _ & _ & _ & Hread & _).
  apply (Hread (taken (drained fresh))). by split.
Defined.

(** ADD on a key whose value is no number throws out of [std::stoll]: the
    value stays, nothing is written.  And ADDs on a key that held a number
    before them do not end at the sum of their deltas. *)
Lemma add_needs_a_number_and_a_fresh_key :
  (let st := (setHandler all_up 7 "/k" (list_byte_of_string "abc") fresh).2 in
   addHandler all_up 7 "/k" 1 st = (Throw invalid_argument, st) ∧
   tcpStore_ st !! "/k" = Some (list_byte_of_string "abc") ∧
   (dispatch all_up 7 (Request (RAdd "/k" 1)) st).1 = true ∧
   sent_to 7 (trace (dispatch all_up 7 (Request (RAdd "/k" 1)) st).2) = []) ∧
  (let st := (setHandler all_up 7 "/k" (list_byte_of_string "5") fresh).2 in
   (add_sequence all_up "/k" [(7, 1)] (drained st)).1 = [Some 6] ∧
   tcpStore_ (daemon_of (add_sequence all_up "/k" [(7, 1)] (drained st)).2)
     !! "/k" = Some (list_byte_of_string "6") ∧
   decimal (sum_list_Z [1]) ≠ list_byte_of_string "6").
Proof.
  split.
  - repeat split.
  - split; [reflexivity|]. split; [reflexivity|]. discriminate.
Qed.

(** ** [set] then [get], and the number of keys *)

(** X2.  On a connection in order (the daemon serves it, its client has
    read what was written on it, and it is not registered as a waiter or a
    watcher of the key, as a [wait] that timed out would leave it), after a
    [set(key, data)] whose wake-ups and notifications go through,
    [get(key)] on the same connection returns [data]; the empty vector and
    vectors with zero bytes are no exception.  The connection is in order
    again afterwards. *)
Theorem set_then_get (writable : Z → bool) (storeSocket : Z) (key : string)
    (data : list byte) (n : net) :
  writable storeSocket = true →
  in_order storeSocket n →
  all_writable writable (waiting_on (regularPrefix_ +:+ key) (daemon_of n)) →
  all_writable writable
    (bucket (watchedSockets_ (daemon_of n)) (regularPrefix_ +:+ key)) →
  storeSocket ∉ waiting_on (regularPrefix_ +:+ key) (daemon_of n) →
  storeSocket ∉ bucket (watchedSockets_ (daemon_of n))
                  (regularPrefix_ +:+ key) →
  (Client.get writable storeSocket key
     (Client.set writable storeSocket key data n)).1 = Some data ∧
  in_order storeSocket
    (Client.get writable storeSocket key
       (Client.set writable storeSocket key data n)).2.
Proof.
  intros Hs Hin Hwait Hwatch Hnw Hnv.
  destruct (set_in_order writable storeSocket key data n Hin Hwait Hwatch
              Hnw Hnv) as (Hin1 & Hstore1 & _).
  assert (Hk : tcpStore_ (daemon_of (Client.set writable storeSocket key data n))
               !! (regularPrefix_ +:+ key) = Some data)
    by (rewrite Hstore1; apply lookup_insert_eq).
  destruct (getHelper_in_order writable storeSocket _ data _ Hs Hin1 Hk)
    as (n2 & Hg & Hin2 & _).
  unfold Client.get. by rewrite Hg.
Qed.

Lemma set_then_get_witness :
  let st := Daemon ∅ {["/k" := [4]]} {[4 := 1]} {["/k" := [9]]} [4; 7; 9]
              [Sent 7 (PCheck NOT_READY)] in
  all_up 7 = true ∧ in_order 7 (drained st) ∧
  all_writable all_up (waiting_on (regularPrefix_ +:+ "k") st) ∧
  all_writable all_up (bucket (watchedSockets_ st) (regularPrefix_ +:+ "k")) ∧
  (7 ∉ waiting_on (regularPrefix_ +:+ "k") st) ∧
  (7 ∉ bucket (watchedSockets_ st) (regularPrefix_ +:+ "k")) ∧
  (Client.get all_up 7 "k" (Client.set all_up 7 "k" [] (drained st))).1
  = Some [].
Proof.
  intros st.
  assert (Hin : in_order 7 (drained st)) by (by split).
  assert (H1 : all_writable all_up (waiting_on (regularPrefix_ +:+ "k") st))
    by (intros ? ?; reflexivity).
  assert (H2 : all_writable all_up
                 (bucket (watchedSockets_ st) (regularPrefix_ +:+ "k")))
    by (intros ? ?; reflexivity).
  assert (H3 : 7 ∉ waiting_on (regularPrefix_ +:+ "k") st).
  { vm_compute. intros [H|H]%elem_of_cons; [discriminate H|].
    by apply elem_of_nil in H. }
  assert (H4 : 7 ∉ bucket (watchedSockets_ st) (regularPrefix_ +:+ "k")).
  { vm_compute. intros [H|H]%elem_of_cons; [discriminate H|].
    by apply elem_of_nil in H. }
  split; [reflexivity|]. split; [exact Hin|]. split; [exact H1|].
  split; [exact H2|]. split; [exact H3|]. split; [exact H4|].
  exact (proj1 (set_then_get all_up 7 "k" [] (drained st) eq_refl Hin H1 H2
                  H3 H4)).
Defined.

Lemma compareSet_daemon writable socket key e d n :
  hung_up socket (daemon_of n) = false →
  daemon_of (Client.compareSet writable socket key e d n).2
  = (dispatch writable socket
       (Request (RCompareSet (regularPrefix_ +:+ key) e d)) (daemon_of n)).2.
Proof.
  intros Hup. unfold Client.compareSet.
  pose proof (recv_daemon socket
                (request_on writable socket
                   (RCompareSet (regularPrefix_ +:+ key) e d) n)) as Hr.
  destruct (recv socket _) as [[[]|] n'] eqn:E; cbn [snd] in *;
    rewrite Hr; unfold request_on; by rewrite Hup.
Qed.

(** X4.  On a connection in order [getNumKeys] returns the number of keys
    in the store.  After a [set] whose wake-ups and notifications go
    through, on a connection that is not registered as a waiter or a
    watcher of the key, it is one more when the key was absent and the same
    when the key was there; after a [deleteKey] it is one less when the key
    was there; and a [compareSet] never changes which keys there are (it
    creates none, not even when the key is absent), so that after one
    whose notifications go through, on a connection that does not watch
    the key, the number is the same. *)
Theorem number_of_keys (writable : Z → bool) (storeSocket : Z) (key : string)
    (n : net) :
  writable storeSocket = true →
  in_order storeSocket n →
  let st := daemon_of n in
  let k := regularPrefix_ +:+ key in
  let count n := (Client.getNumKeys writable storeSocket n).1 in
  count n = Some (Z.of_nat (size (tcpStore_ st))) ∧
  (∀ data,
     all_writable writable (waiting_on k st) →
     all_writable writable (bucket (watchedSockets_ st) k) →
     storeSocket ∉ waiting_on k st →
     storeSocket ∉ bucket (watchedSockets_ st) k →
     count (Client.set writable storeSocket key data n)
     = Some (Z.of_nat (size (tcpStore_ st))
             + (if tcpStore_ st !! k is Some _ then 0 else 1))) ∧
  count (Client.deleteKey writable storeSocket key n).2
  = Some (Z.of_nat (size (tcpStore_ st))
          - (if tcpStore_ st !! k is Some _ then 1 else 0)) ∧
  (∀ e d,
     dom (tcpStore_
            (daemon_of (Client.compareSet writable storeSocket key e d n).2))
     = dom (tcpStore_ st) ∧
     (all_writable writable (bucket (watchedSockets_ st) k) →
      storeSocket ∉ bucket (watchedSockets_ st) k →
      count (Client.compareSet writable storeSocket key e d n).2
      = Some (Z.of_nat (size (tcpStore_ st))))).
Proof.
  intros Hs Hin st k count. split; [|split; [|split]].
  - destruct (getNumKeys_in_order writable storeSocket n Hs Hin)
      as (n' & Hg & _). unfold count. by rewrite Hg.
  - intros data Hwait Hwatch Hnw Hnv.
    destruct (set_in_order writable storeSocket key data n Hin Hwait Hwatch
                Hnw Hnv) as (Hin1 & Hstore1 & _).
    destruct (getNumKeys_in_order writable storeSocket _ Hs Hin1)
      as (n' & Hg & _).
    unfold count. rewrite Hg. cbn [fst]. rewrite Hstore1. fold k st. f_equal.
    destruct (tcpStore_ st !! k) as [v|] eqn:Hk.
    + rewrite map_size_insert_Some by eauto. lia.
    + rewrite map_size_insert_None by done. lia.
  - destruct (deleteKey_in_order writable storeSocket key n Hs Hin)
      as (n1 & Hd & Hin1 & Hstore1).
    destruct (getNumKeys_in_order writable storeSocket n1 Hs Hin1)
      as (n' & Hg & _).
    unfold count. rewrite Hd. cbn [snd]. rewrite Hg. cbn [fst].
    rewrite Hstore1. fold k st. f_equal.
    destruct (tcpStore_ st !! k) as [v|] eqn:Hk.
    + assert (Hsome : is_Some (tcpStore_ st !! k)) by eauto.
      pose proof (map_size_delete_Some k (tcpStore_ st) Hsome).
      pose proof (map_size_ne_0_lookup_2 (tcpStore_ st) k Hsome). lia.
    + rewrite delete_id by done. lia.
  - intros e d.
    assert (Hdom : dom (tcpStore_
              (daemon_of (Client.compareSet writable storeSocket key e d n).2))
            = dom (tcpStore_ st)).
    { rewrite compareSet_daemon by apply Hin.
      unfold dispatch. cbn [query]. fold k st.
      destruct (compareSetHandler writable storeSocket k e d st)
        as [[[]|x] st1] eqn:E; cbn [snd];
        rewrite ?tcpStore_scrub; cbn [tcpStore_ closeSocket emit];
        apply (compareSetHandler_dom _ _ _ _ _ _ _ _ E). }
    split; [exact Hdom|]. intros Hwatch Hnv.
    destruct (compareSet_in_order writable storeSocket key e d n Hs Hin
                Hwatch Hnv) as (v & n1 & Hc & Hin1 & _).
    rewrite Hc in Hdom. cbn [snd] in Hdom.
    destruct (getNumKeys_in_order writable storeSocket n1 Hs Hin1)
      as (n' & Hg & _).
    unfold count. rewrite Hc. cbn [snd]. rewrite Hg. cbn [fst].
    f_equal. f_equal. rewrite <- !size_dom. by rewrite Hdom.
Qed.

Lemma number_of_keys_witness :
  let st := Daemon {["/a" := [x01]]} {["/b" := [4]]} {[4 := 1]}
              {["/c" := [9]]} [4; 7; 9] [] in
  all_up 7 = true ∧ in_order 7 (drained st) ∧
  (Client.getNumKeys all_up 7 (drained st)).1 = Some 1 ∧
  all_writable all_up (waiting_on (regularPrefix_ +:+ "b") st) ∧
  all_writable all_up (bucket (watchedSockets_ st) (regularPrefix_ +:+ "b")) ∧
  (7 ∉ waiting_on (regularPrefix_ +:+ "b") st) ∧
  (7 ∉ bucket (watchedSockets_ st) (regularPrefix_ +:+ "b")) ∧
  (Client.getNumKeys all_up 7 (Client.set all_up 7 "b" [] (drained st))).1
  = Some 2 ∧
  all_writable all_up (bucket (watchedSockets_ st) (regularPrefix_ +:+ "c")) ∧
  (7 ∉ bucket (watchedSockets_ st) (regularPrefix_ +:+ "c")) ∧
  (Client.getNumKeys all_up 7
     (Client.compareSet all_up 7 "c" [] [x01] (drained st)).2).1 = Some 1.
Proof.
  intros st.
  assert (Hin : in_order 7 (drained st)) by (by split).
  assert (Hw : ∀ l, all_writable all_up l) by (intros l ? ?; reflexivity).
  assert (Hnw : 7 ∉ waiting_on (regularPrefix_ +:+ "b") st).
  { vm_compute. intros [H|H]%elem_of_cons; [discriminate H|].
    by apply elem_of_nil in H. }
  assert (Hnb : 7 ∉ bucket (watchedSockets_ st) (regularPrefix_ +:+ "b"))
    by (vm_compute; apply not_elem_of_nil).
  assert (Hnc : 7 ∉ bucket (watchedSockets_ st) (regularPrefix_ +:+ "c")).
  { vm_compute. intros [H|H]%elem_of_cons; [discriminate H|].
    by apply elem_of_nil in H. }
  destruct (number_of_keys all_up 7 "b" (drained st) eq_refl Hin)
    as (H1 & H2 & _).
  destruct (number_of_keys all_up 7 "c" (drained st) eq_refl Hin)
    as (_ & _ & _ & H4).
  split; [reflexivity|]. split; [exact Hin|]. split; [exact H1|].
  split; [apply Hw|]. split; [apply Hw|]. split; [exact Hnw|].
  split; [exact Hnb|].
  split; [exact (H2 [] (Hw _) (Hw _) Hnw Hnb)|].
  split; [apply Hw|]. split; [exact Hnc|].
  exact (proj2 (H4 [] [x01]) (Hw _) Hnc).
Defined.
